(** * gotype: resolving Go type declarations into a canonical type model

    A shallow embedding of [ast.go] (package [gotype]) and the properties
    its specification states about it.

    Conventions of the embedding.
    - Go strings are [string] (sequences of bytes).
    - A Go [map[K]V] is a [gmap K V]; indexing a missing key yields the zero
      value of [V], written out at each use.  The order in which [range]
      visits the keys of a map is left unspecified by the language: it is
      given here by a scheduler, a parameter of the development that every
      theorem quantifies over.
    - A function returning [(T, error)] returns an [outcome T]; run-time
      panics (nil dereference, failed type assertion, index out of range) are
      outcomes of their own, and so is the exhaustion of the recursion budget
      of the re-entrant resolution.
    - The file system and the parser are parameters: the package source
      locator, [os.Open] and [parser.ParseFile]. *)

From Stdlib Require Import ZArith String Ascii List Lia Bool DecimalString.
From stdpp Require Import base option list gmap strings fin_maps.

Local Open Scope string_scope.
Local Open Scope list_scope.

(* ===================================================================== *)
(** * Syntax trees ([go/ast], the part [ast.go] inspects) *)
(* ===================================================================== *)

Module ast.

(** [ast.ChanDir]: a bit mask, [SEND | RECV] for a bidirectional channel. *)
Definition ChanDir := Z.
Definition SEND : ChanDir := 1%Z.
Definition RECV : ChanDir := 2%Z.

(** [token.Token] of a [BasicLit]. *)
Inductive Token := INT | FLOAT | IMAG | CHAR | STRING.

(** [ast.Expr] and [ast.Field].  A [*ast.FieldList] that may be nil is an
    [option (list Field)]; [FuncType.Params] is documented non-nil in
    [go/ast] and is a plain list.  [OtherExpr] stands for every node kind
    [ast.go] has no case for (parenthesised, binary, index, ... expressions),
    with the node's printed form. *)
#[local] Unset Elimination Schemes.
Inductive Expr :=
| Ident (Name : string)
| SelectorExpr (X : Expr) (Sel : string)
| StarExpr (X : Expr)
| ArrayType (Len : option Expr) (Elt : Expr)
| FuncType (Params : list Field) (Results : option (list Field))
| MapType (Key Value : Expr)
| ChanType (Dir : ChanDir) (Value : Expr)
| StructType (Fields : option (list Field))
| InterfaceType (Methods : option (list Field))
| Ellipsis (Elt : Expr)
| BasicLit (Kind : Token) (Value : string)
| OtherExpr (shape : string)
with Field :=
| mkField (Names : list string) (Type_ : Expr).
#[local] Set Elimination Schemes.

Definition Field_Names (f : Field) : list string :=
  match f with mkField names _ => names end.
Definition Field_Type (f : Field) : Expr :=
  match f with mkField _ t => t end.

(** [ast.Spec]: import and type specifications; the others are lumped. *)
Inductive Spec :=
| ImportSpec (Name : option string) (Path : string)
| TypeSpec (Name : string) (Type_ : Expr)
| ValueSpec.

(** [ast.Decl]: only [*ast.GenDecl] is inspected. *)
Inductive Decl :=
| GenDecl (Specs : list Spec)
| FuncDecl.

(** [ast.File]: the declared package name and the top-level declarations. *)
Record File := mkFile { File_Name : string; File_Decls : list Decl }.

End ast.

(* ===================================================================== *)
(** * The canonical type model *)
(* ===================================================================== *)

(** Modelled from the spec: the declarations of the canonical model
    ([Type], [TypeSpec], the payload structs and the [PrimitiveKind]
    constants) are not part of [ast.go].  Their fields are the ones [ast.go]
    reads and writes; the kind constants are the names of Go's predeclared
    types, the "fixed Primitive Kind name list" of the specification. *)
Definition PrimitiveKind := string.

Definition PrimitiveKindBool : PrimitiveKind := "bool".
Definition PrimitiveKindByte : PrimitiveKind := "byte".
Definition PrimitiveKindRune : PrimitiveKind := "rune".
Definition PrimitiveKindInt : PrimitiveKind := "int".
Definition PrimitiveKindInt8 : PrimitiveKind := "int8".
Definition PrimitiveKindInt16 : PrimitiveKind := "int16".
Definition PrimitiveKindInt32 : PrimitiveKind := "int32".
Definition PrimitiveKindInt64 : PrimitiveKind := "int64".
Definition PrimitiveKindUint : PrimitiveKind := "uint".
Definition PrimitiveKindUint8 : PrimitiveKind := "uint8".
Definition PrimitiveKindUint16 : PrimitiveKind := "uint16".
Definition PrimitiveKindUint32 : PrimitiveKind := "uint32".
Definition PrimitiveKindUint64 : PrimitiveKind := "uint64".
Definition PrimitiveKindUintptr : PrimitiveKind := "uintptr".
Definition PrimitiveKindFloat32 : PrimitiveKind := "float32".
Definition PrimitiveKindFloat64 : PrimitiveKind := "float64".
Definition PrimitiveKindComplex64 : PrimitiveKind := "complex64".
Definition PrimitiveKindComplex128 : PrimitiveKind := "complex128".
Definition PrimitiveKindString : PrimitiveKind := "string".
Definition PrimitiveKindError : PrimitiveKind := "error".

Inductive ChanTypeDir := ChanTypeDirRecv | ChanTypeDirSend | ChanTypeDirBoth.

Record PrimitiveType := mkPrimitiveType { PrimitiveType_Kind : PrimitiveKind }.

Record QualType := mkQualType {
  QualType_Package : string;
  QualType_ShortPackagePath : string;
  QualType_Name : string
}.

(** Modelled from the spec: the struct [Type] and its payload structs are
    declared outside [ast.go].  [Type] is one struct with an optional pointer
    per variant, as the composite literals of [ast.go] fill it ([Type{PtrType:
    &typ}], ...); a nil pointer is [None].  The struct is called [Type_] here
    ([Type] is reserved). *)
#[local] Unset Elimination Schemes.
Inductive Type_ :=
| mkType (PrimitiveType_ : option PrimitiveType)
         (QualType_ : option QualType)
         (PtrType_ : option PtrType)
         (SliceType_ : option SliceType)
         (ArrayType_ : option ArrayType)
         (MapType_ : option MapType)
         (ChanType_ : option ChanType)
         (FuncType_ : option FuncType)
         (StructType_ : option StructType)
         (InterfaceType_ : option InterfaceType)
with PtrType := mkPtrType (Elem : Type_)
with SliceType := mkSliceType (Elem : Type_)
with ArrayType := mkArrayType (Len : Z) (Elem : Type_)
with MapType := mkMapType (Key : Type_) (Elem : Type_)
with ChanType := mkChanType (Dir : ChanTypeDir) (Elem : Type_)
with FuncType := mkFuncType (Inputs : list TypeField) (Outputs : list TypeField)
                            (IsVariadic : bool)
with TypeField := mkTypeField (Name : string) (Type' : Type_)
with StructType := mkStructType (Fields : list TypeField)
with InterfaceType := mkInterfaceType (Methods : list InterfaceTypeMethod)
with InterfaceTypeMethod := mkInterfaceTypeMethod (Name : string) (Func : FuncType).
#[local] Set Elimination Schemes.

Definition Type_PrimitiveType (t : Type_) :=
  match t with mkType x _ _ _ _ _ _ _ _ _ => x end.
Definition Type_QualType (t : Type_) :=
  match t with mkType _ x _ _ _ _ _ _ _ _ => x end.
Definition Type_PtrType (t : Type_) :=
  match t with mkType _ _ x _ _ _ _ _ _ _ => x end.
Definition Type_SliceType (t : Type_) :=
  match t with mkType _ _ _ x _ _ _ _ _ _ => x end.
Definition Type_ArrayType (t : Type_) :=
  match t with mkType _ _ _ _ x _ _ _ _ _ => x end.
Definition Type_MapType (t : Type_) :=
  match t with mkType _ _ _ _ _ x _ _ _ _ => x end.
Definition Type_ChanType (t : Type_) :=
  match t with mkType _ _ _ _ _ _ x _ _ _ => x end.
Definition Type_FuncType (t : Type_) :=
  match t with mkType _ _ _ _ _ _ _ x _ _ => x end.
Definition Type_StructType (t : Type_) :=
  match t with mkType _ _ _ _ _ _ _ _ x _ => x end.
Definition Type_InterfaceType (t : Type_) :=
  match t with mkType _ _ _ _ _ _ _ _ _ x => x end.

Definition TypeField_Name (f : TypeField) : string :=
  match f with mkTypeField n _ => n end.
Definition TypeField_Type (f : TypeField) : Type_ :=
  match f with mkTypeField _ t => t end.
Definition FuncType_Inputs (f : FuncType) : list TypeField :=
  match f with mkFuncType i _ _ => i end.
Definition FuncType_Outputs (f : FuncType) : list TypeField :=
  match f with mkFuncType _ o _ => o end.
Definition FuncType_IsVariadic (f : FuncType) : bool :=
  match f with mkFuncType _ _ v => v end.
Definition StructType_Fields (s : StructType) : list TypeField :=
  match s with mkStructType l => l end.
Definition InterfaceType_Methods (i : InterfaceType) : list InterfaceTypeMethod :=
  match i with mkInterfaceType l => l end.
Definition InterfaceTypeMethod_Name (m : InterfaceTypeMethod) : string :=
  match m with mkInterfaceTypeMethod n _ => n end.
Definition InterfaceTypeMethod_Func (m : InterfaceTypeMethod) : FuncType :=
  match m with mkInterfaceTypeMethod _ f => f end.

(** [Type{}]: the zero value, every pointer nil. *)
Definition Type_zero : Type_ :=
  mkType None None None None None None None None None None.

(** The composite literals [Type{PrimitiveType: &x}], [Type{QualType: &x}], ... *)
Definition Type_of_Primitive (x : PrimitiveType) : Type_ :=
  mkType (Some x) None None None None None None None None None.
Definition Type_of_Qual (x : QualType) : Type_ :=
  mkType None (Some x) None None None None None None None None.
Definition Type_of_Ptr (x : PtrType) : Type_ :=
  mkType None None (Some x) None None None None None None None.
Definition Type_of_Slice (x : SliceType) : Type_ :=
  mkType None None None (Some x) None None None None None None.
Definition Type_of_Array (x : ArrayType) : Type_ :=
  mkType None None None None (Some x) None None None None None.
Definition Type_of_Map (x : MapType) : Type_ :=
  mkType None None None None None (Some x) None None None None.
Definition Type_of_Chan (x : ChanType) : Type_ :=
  mkType None None None None None None (Some x) None None None.
Definition Type_of_Func (x : FuncType) : Type_ :=
  mkType None None None None None None None (Some x) None None.
Definition Type_of_Struct (x : StructType) : Type_ :=
  mkType None None None None None None None None (Some x) None.
Definition Type_of_Interface (x : InterfaceType) : Type_ :=
  mkType None None None None None None None None None (Some x).

(** Modelled from the spec: [TypeSpec] is declared outside [ast.go].  It is
    a type request, a package path and a declaration name, and the key of a
    map in [GenerateTypesFromSpecs]. *)
Record TypeSpec := mkTypeSpec { TypeSpec_PackagePath : string; TypeSpec_Name : string }.

#[global] Instance TypeSpec_eq_dec : EqDecision TypeSpec.
Proof. solve_decision. Defined.

#[global] Instance TypeSpec_countable : Countable TypeSpec.
Proof.
  refine (inj_countable' (fun s => (TypeSpec_PackagePath s, TypeSpec_Name s))
                         (fun p => mkTypeSpec (fst p) (snd p)) _).
  intros []; reflexivity.
Defined.

(* ===================================================================== *)
(** * Outcomes: results, errors and panics *)
(* ===================================================================== *)

(** The errors [ast.go] builds with [fmt.Errorf], by message, and the error of
    the package source locator, which is passed on as it is. *)
Inductive error :=
| SourceLookupFailed (cause : string)   (* the error of GetPackageSourceFiles *)
| CannotOpenFile (cause : string)       (* "cannot open file: %w" *)
| CannotParseGoCode (cause : string)    (* "cannot parse go code: %w" *)
| CannotFindDefinition (name : string)  (* "cannot find definition of %s. ..." *)
| UnrecognizedType (e : ast.Expr)       (* "unrecognized type: %v" *)
| UnrecognizedExpr (X : ast.Expr)       (* "unrecognized expr: %v" *)
| UnrecognizedIdentifier (shortImport : string)  (* "unrecognized identifier: %s" *)
| UnrecognizedArrayLength (len : ast.Expr).      (* "unrecognized array length: %v" *)

(** Run-time panics of the Go code. *)
Inductive panic :=
| NilDereference       (* a field read through a nil pointer *)
| IndexOutOfRange      (* s[i] with i >= len(s) *)
| TypeAssertionFailed. (* x.(T) on a value of another type *)

(** What a call does: it returns a value, returns an error, panics, or needs
    more nested resolution calls than the budget allows. *)
Inductive outcome (A : Type) :=
| Ok (a : A)
| Err (e : error)
| Panic (p : panic)
| OutOfFuel.
Arguments Ok {A} a.
Arguments Err {A} e.
Arguments Panic {A} p.
Arguments OutOfFuel {A}.

#[global] Instance outcome_ret : MRet outcome := fun A a => Ok a.
#[global] Instance outcome_bind : MBind outcome := fun A B k m =>
  match m with
  | Ok a => k a
  | Err e => Err e
  | Panic p => Panic p
  | OutOfFuel => OutOfFuel
  end.

Definition is_Ok {A} (m : outcome A) : bool :=
  match m with Ok _ => true | _ => false end.

(** [s[i]] on a slice: a panic when [i] is out of range. *)
Definition index {A} (s : list A) (i : nat) : outcome A :=
  match s !! i with
  | Some x => Ok x
  | None => Panic IndexOutOfRange
  end.

(* ===================================================================== *)
(** * The Go library functions [ast.go] calls on strings *)
(* ===================================================================== *)

Definition quote : string := String (ascii_of_nat 34) EmptyString.

(** [strings.Contains(s, substr)]. *)
Fixpoint strings_Contains (s substr : string) : bool :=
  if String.prefix substr s then true
  else match s with
       | EmptyString => false
       | String _ s' => strings_Contains s' substr
       end.

(** [strings.TrimPrefix(s, prefix)]. *)
Definition strings_TrimPrefix (s prefix : string) : string :=
  if String.prefix prefix s
  then String.substring (String.length prefix) (String.length s - String.length prefix) s
  else s.

Definition strings_HasSuffix (s suffix : string) : bool :=
  (String.length suffix <=? String.length s)%nat &&
  String.eqb (String.substring (String.length s - String.length suffix)
                               (String.length suffix) s) suffix.

(** [strings.TrimSuffix(s, suffix)]. *)
Definition strings_TrimSuffix (s suffix : string) : string :=
  if strings_HasSuffix s suffix
  then String.substring 0 (String.length s - String.length suffix) s
  else s.

(** The first element of [strings.Split(s, ".")]: what precedes the first dot. *)
Fixpoint strings_Split_dot_0 (s : string) : string :=
  match s with
  | EmptyString => EmptyString
  | String c s' => if Ascii.eqb c "." then EmptyString else String c (strings_Split_dot_0 s')
  end.

Fixpoint stripTrailingSlashes (s : string) : string :=
  match s with
  | EmptyString => EmptyString
  | String c s' =>
      match stripTrailingSlashes s' with
      | EmptyString => if Ascii.eqb c "/" then EmptyString else String c EmptyString
      | r => String c r
      end
  end.

Fixpoint afterLastSlash (s : string) : string :=
  match s with
  | EmptyString => EmptyString
  | String c s' =>
      if strings_Contains s' "/" then afterLastSlash s'
      else if Ascii.eqb c "/" then s' else s
  end.

(** [path.Base(path)]: the last element of the path, trailing slashes
    removed; "." for the empty path and "/" for a path of slashes only. *)
Definition path_Base (path : string) : string :=
  if String.eqb path "" then "."
  else
    let path := afterLastSlash (stripTrailingSlashes path) in
    if String.eqb path "" then "/" else path.

(** [fmt.Sprintf("%d", i)] for a counter [i >= 0].  The counters of [ast.go]
    count the entries of a slice, so they are natural numbers far below the
    range of [int]. *)
Definition itoa (i : nat) : string := NilEmpty.string_of_uint (Nat.to_uint i).

(** The value of a sequence of decimal digits, [None] on any other byte. *)
Fixpoint parseDigits (s : string) (acc : Z) : option Z :=
  match s with
  | EmptyString => Some acc
  | String c s' =>
      let d := nat_of_ascii c in
      if ((48 <=? d) && (d <=? 57))%nat
      then parseDigits s' (10 * acc + Z.of_nat (d - 48))%Z
      else None
  end.

(** Modelled from the spec: [parseInt] is not part of [ast.go], which only
    calls it; the development takes it as a parameter.  This instance reads
    "a literal non-negative integer token" of the specification as a
    non-empty sequence of decimal digits; it is used to run the model. *)
Definition parseInt_decimal (s : string) : option Z :=
  match s with
  | EmptyString => None
  | _ => parseDigits s 0%Z
  end.

(* ===================================================================== *)
(** * The order of [range] over a map *)
(* ===================================================================== *)

(** The [range] statements of [ast.go] over maps.  Within one top-level call
    every such statement that can meet a map of more than one key is run at
    most once per ticket: the re-entrant calls always pass a single request,
    and their maps have a single key. *)
Inductive ticket :=
| RangePackages                             (* GenerateTypesFromSpecs, line 26 *)
| RangeNames (packagePath : string) (file : nat)  (* line 76, in the file of that index *)
| RangeMissing (packagePath : string).      (* line 90 *)

(** An order of visit built from a choice function: the key visited next is
    the one at position [pick keys mod len(keys)] of those not visited yet.
    Whatever [pick] is, the result is a permutation of the keys. *)
Fixpoint pick_order (pick : list string -> nat) (n : nat) (keys : list string)
  : list string :=
  match n with
  | O => []
  | S n' =>
      match keys !! (pick keys mod length keys)%nat with
      | Some k => k :: pick_order pick n' (delete (pick keys mod length keys)%nat keys)
      | None => []
      end
  end.

(* ===================================================================== *)
(** * Declarations and import tables *)
(* ===================================================================== *)

(** [getImportNameFromPackagePath] (lines 145-152). *)
Definition getImportNameFromPackagePath (packagePath : string) : string :=
  let base := path_Base packagePath in
  if String.eqb base "" then ""
  else strings_Split_dot_0 base.

(** The body of the two loops of [generateImportMap] for one specification. *)
Definition addImportSpec (importMap : gmap string string) (spec : ast.Spec)
  : gmap string string :=
  match spec with
  | ast.ImportSpec Name Path =>
      let importPath := strings_TrimPrefix (strings_TrimSuffix Path quote) quote in
      let importName :=
        match Name with
        | Some name => name
        | None => getImportNameFromPackagePath importPath
        end in
      <[importName := importPath]> importMap
  | _ => importMap
  end.

Definition addImportDecl (importMap : gmap string string) (decl : ast.Decl)
  : gmap string string :=
  match decl with
  | ast.GenDecl Specs => foldl addImportSpec importMap Specs
  | _ => importMap
  end.

(** The table after the loop over the declarations (lines 120-137). *)
Definition importsOf (file : ast.File) : gmap string string :=
  foldl addImportDecl ∅ (ast.File_Decls file).

(** [generateImportMap] (lines 119-143). *)
Definition generateImportMap (packagePath : string) (file : ast.File)
  : gmap string string :=
  let importMap := importsOf file in
  if negb (strings_Contains (ast.File_Name file) "_test")
  then <[packagePath +:+ "__short" := ast.File_Name file]> importMap
  else importMap.

(** [getDeclarationByName] (lines 154-165): the type of the first type
    specification of that name, [None] for a nil result. *)
Fixpoint findTypeSpec (specs : list ast.Spec) (name : string) : option ast.Expr :=
  match specs with
  | [] => None
  | ast.TypeSpec n t :: rest =>
      if String.eqb n name then Some t else findTypeSpec rest name
  | _ :: rest => findTypeSpec rest name
  end.

Fixpoint getDeclarationByName_decls (decls : list ast.Decl) (name : string)
  : option ast.Expr :=
  match decls with
  | [] => None
  | ast.GenDecl Specs :: rest =>
      match findTypeSpec Specs name with
      | Some t => Some t
      | None => getDeclarationByName_decls rest name
      end
  | _ :: rest => getDeclarationByName_decls rest name
  end.

Definition getDeclarationByName (f : ast.File) (name : string) : option ast.Expr :=
  getDeclarationByName_decls (ast.File_Decls f) name.

(* ===================================================================== *)
(** * Parameter names *)
(* ===================================================================== *)

(** The inner loop of [getNamesFromExpr] over [j] (lines 432-439), for an
    entry with names [pnames]: [todo] are the names from index [j] on. *)
Fixpoint getNamesFromExpr_names (todo : list string) (names : list string)
  : list string :=
  match todo with
  | [] => names
  | n :: rest => getNamesFromExpr_names rest (names ++ [n])
  end.

(** The outer loop of [getNamesFromExpr], with its two variables. *)
Fixpoint getNamesFromExpr_loop (params : list ast.Field) (prefix : string)
  (names : list string) (i : nat) : list string :=
  match params with
  | [] => names
  | p :: rest =>
      match ast.Field_Names p with
      | [] =>
          (* n = 1, one pass through the else branch *)
          let i := S i in
          getNamesFromExpr_loop rest prefix (names ++ [prefix +:+ itoa i]) i
      | pnames =>
          getNamesFromExpr_loop rest prefix (getNamesFromExpr_names pnames names) i
      end
  end.

(** [getNamesFromExpr] (lines 424-442). *)
Definition getNamesFromExpr (params : list ast.Field) (prefix : string) : list string :=
  getNamesFromExpr_loop params prefix [] 0.

Definition getInputNamesFromAst (inputs : list ast.Field) : list string :=
  getNamesFromExpr inputs "arg".

Definition getOutputNamesFromAst (inputs : list ast.Field) : list string :=
  getNamesFromExpr inputs "out".

(* ===================================================================== *)
(** * Lowering type expressions *)
(* ===================================================================== *)

(** [generateTypeFromIdent] (lines 219-270): a [switch] on the identifier,
    tried from the first case to the last; a missing key of [importMap]
    reads as the empty string. *)
Definition generateTypeFromIdent (Name : string) (packagePath : string)
  (importMap : gmap string string) : Type_ :=
  let primitive (k : PrimitiveKind) := Type_of_Primitive (mkPrimitiveType k) in
  if String.eqb Name PrimitiveKindBool then primitive PrimitiveKindBool
  else if String.eqb Name PrimitiveKindByte then primitive PrimitiveKindByte
  else if String.eqb Name PrimitiveKindRune then primitive PrimitiveKindRune
  else if String.eqb Name PrimitiveKindInt then primitive PrimitiveKindInt
  else if String.eqb Name PrimitiveKindInt8 then primitive PrimitiveKindInt8
  else if String.eqb Name PrimitiveKindInt16 then primitive PrimitiveKindInt16
  else if String.eqb Name PrimitiveKindInt32 then primitive PrimitiveKindInt32
  else if String.eqb Name PrimitiveKindInt64 then primitive PrimitiveKindInt64
  else if String.eqb Name PrimitiveKindUint then primitive PrimitiveKindUint
  else if String.eqb Name PrimitiveKindUint8 then primitive PrimitiveKindUint8
  else if String.eqb Name PrimitiveKindUint16 then primitive PrimitiveKindUint16
  else if String.eqb Name PrimitiveKindUint32 then primitive PrimitiveKindUint32
  else if String.eqb Name PrimitiveKindUint64 then primitive PrimitiveKindUint64
  else if String.eqb Name PrimitiveKindUintptr then primitive PrimitiveKindUintptr
  else if String.eqb Name PrimitiveKindFloat32 then primitive PrimitiveKindFloat32
  else if String.eqb Name PrimitiveKindFloat64 then primitive PrimitiveKindFloat64
  else if String.eqb Name PrimitiveKindComplex64 then primitive PrimitiveKindComplex64
  else if String.eqb Name PrimitiveKindComplex128 then primitive PrimitiveKindComplex128
  else if String.eqb Name PrimitiveKindString then primitive PrimitiveKindString
  else if String.eqb Name "error" then primitive PrimitiveKindError
  else
    Type_of_Qual (mkQualType packagePath
                             (default "" (importMap !! (packagePath +:+ "__short")))
                             Name).

(** [generateTypeFromSelectorExpr] (lines 272-293). *)
Definition generateTypeFromSelectorExpr (X : ast.Expr) (Sel : string)
  (importMap : gmap string string) : outcome Type_ :=
  match X with
  | ast.Ident shortImport =>
      match importMap !! shortImport with
      | Some importPath => Ok (Type_of_Qual (mkQualType importPath shortImport Sel))
      | None => Err (UnrecognizedIdentifier shortImport)
      end
  | _ => Err (UnrecognizedExpr (ast.SelectorExpr X Sel))
  end.

Section Lowering.

(** [parseInt], the helper of the package that reads an array length. *)
Variable parseInt : string -> option Z.

(** [f.GenerateTypesFromSpecs], the entry point the lowering of an
    interface calls back. *)
Variable resolve : list TypeSpec -> outcome (list Type_).

Section Cases.

Variable packagePath : string.
Variable importMap : gmap string string.

(** [f.generateTypeFromExpr(_, packagePath, importMap)], the recursive
    call of each case. *)
Variable lower : ast.Expr -> outcome Type_.

(** [generateTypeFromStarExpr] (lines 295-305). *)
Definition generateTypeFromStarExpr (X : ast.Expr) : outcome PtrType :=
  elem ← lower X;
  Ok (mkPtrType elem).

(** [generateTypeFromArrayType] (lines 307-335). *)
Definition generateTypeFromArrayType (Len : option ast.Expr) (Elt : ast.Expr)
  : outcome Type_ :=
  match Len with
  | None =>
      elem ← lower Elt;
      Ok (Type_of_Slice (mkSliceType elem))
  | Some len =>
      match len with
      | ast.BasicLit _ Value =>
          match parseInt Value with
          | Some lenn =>
              elem ← lower Elt;
              Ok (Type_of_Array (mkArrayType lenn elem))
          | None => Err (UnrecognizedArrayLength len)
          end
      | _ => Err (UnrecognizedArrayLength len)
      end
  end.

(** The loop [for range field.Names] of [generateTypeFromFieldList]
    (lines 404-410). *)
Fixpoint appendNamed (fieldNames : list string) (names : list string)
  (typ : Type_) (types : list TypeField) (i : nat)
  : outcome (list TypeField * nat) :=
  match fieldNames with
  | [] => Ok (types, i)
  | _ :: rest =>
      name ← index names i;
      appendNamed rest names typ (types ++ [mkTypeField name typ]) (S i)
  end.

(** The loop of [generateTypeFromFieldList] over [fields.List], with its
    variables [types], [i] and [isVariadic] (lines 383-411). *)
Fixpoint generateTypeFromFieldList_loop (fields : list ast.Field)
  (names : list string) (types : list TypeField) (i : nat) (isVariadic : bool)
  : outcome (list TypeField * bool) :=
  match fields with
  | [] => Ok (types, isVariadic)
  | field :: rest =>
      let isVariadic :=
        match ast.Field_Type field with
        | ast.Ellipsis _ => true
        | _ => isVariadic
        end in
      typ ← match ast.Field_Type field with
            | ast.Ellipsis Elt => lower Elt
            | _ => lower (ast.Field_Type field)
            end;
      match ast.Field_Names field with
      | [] =>
          name ← index names i;
          generateTypeFromFieldList_loop rest names
            (types ++ [mkTypeField name typ]) (S i) isVariadic
      | fieldNames =>
          '(types, i) ← appendNamed fieldNames names typ types i;
          generateTypeFromFieldList_loop rest names types i isVariadic
      end
  end.

(** [generateTypeFromFieldList] (lines 371-414). *)
Definition generateTypeFromFieldList (fields : option (list ast.Field))
  (names : list string) : outcome (list TypeField * bool) :=
  match fields with
  | None => Ok ([], false)
  | Some List => generateTypeFromFieldList_loop List names [] 0 false
  end.

(** [generateTypeFromFuncType] (lines 337-369). *)
Definition generateTypeFromFuncType (Params : list ast.Field)
  (Results : option (list ast.Field)) : outcome FuncType :=
  '(params, isVariadic) ←
    generateTypeFromFieldList (Some Params) (getInputNamesFromAst Params);
  results ←
    match Results with
    | Some List =>
        '(results, _) ←
          generateTypeFromFieldList (Some List) (getOutputNamesFromAst List);
        Ok results
    | None => Ok []
    end;
  Ok (mkFuncType params results isVariadic).

(** [generateTypeFromMapType] (lines 444-460). *)
Definition generateTypeFromMapType (Key Value : ast.Expr) : outcome MapType :=
  keyDef ← lower Key;
  valDef ← lower Value;
  Ok (mkMapType keyDef valDef).

(** [generateTypeFromChanType] (lines 462-480). *)
Definition generateTypeFromChanType (Dir : ast.ChanDir) (Value : ast.Expr)
  : outcome ChanType :=
  c ← lower Value;
  if Z.eqb Dir ast.RECV then Ok (mkChanType ChanTypeDirRecv c)
  else if Z.eqb Dir ast.SEND then Ok (mkChanType ChanTypeDirSend c)
  else Ok (mkChanType ChanTypeDirBoth c).

(** The loop [for _, name := range field.Names] of
    [generateTypeFromStructType] (lines 493-503): the type of the entry is
    lowered once per name. *)
Section StructField.
Variable fieldTypeExpr : ast.Expr.

Fixpoint generateTypeFromStructType_names (fieldNames : list string)
  (fields : list TypeField) : outcome (list TypeField) :=
  match fieldNames with
  | [] => Ok fields
  | name :: rest =>
      fieldType ← lower fieldTypeExpr;
      generateTypeFromStructType_names rest
        (fields ++ [mkTypeField name fieldType])
  end.
End StructField.

Fixpoint generateTypeFromStructType_loop (List : list ast.Field)
  (fields : list TypeField) : outcome (list TypeField) :=
  match List with
  | [] => Ok fields
  | field :: rest =>
      fields ← generateTypeFromStructType_names
                 (ast.Field_Type field) (ast.Field_Names field) fields;
      generateTypeFromStructType_loop rest fields
  end.

(** [generateTypeFromStructType] (lines 482-507). *)
Definition generateTypeFromStructType (Fields : option (list ast.Field))
  : outcome StructType :=
  match Fields with
  | None => Ok (mkStructType [])
  | Some List =>
      fields ← generateTypeFromStructType_loop List [];
      Ok (mkStructType fields)
  end.

(** [innerInterface[0].InterfaceType.Methods] (lines 535 and 542): the
    first result, its [InterfaceType] pointer, which is dereferenced. *)
Definition embeddedMethods (innerInterface : list Type_)
  : outcome (list InterfaceTypeMethod) :=
  inner ← index innerInterface 0;
  match Type_InterfaceType inner with
  | Some it => Ok (InterfaceType_Methods it)
  | None => Panic NilDereference
  end.

(** One member of an interface (the [switch] of lines 521-543). *)
Definition generateTypeFromInterfaceType_member (field : ast.Field)
  (methods : list InterfaceTypeMethod) : outcome (list InterfaceTypeMethod) :=
  match ast.Field_Type field with
  | ast.FuncType Params Results =>
      name ← index (ast.Field_Names field) 0;
      funcType ← generateTypeFromFuncType Params Results;
      Ok (methods ++ [mkInterfaceTypeMethod name funcType])
  | ast.Ident Name =>
      innerInterface ← resolve [mkTypeSpec packagePath Name];
      embedded ← embeddedMethods innerInterface;
      Ok (methods ++ embedded)
  | ast.SelectorExpr X sel =>
      x ← match X with
          | ast.Ident Name => Ok Name
          | _ => Panic TypeAssertionFailed
          end;
      innerInterface ← resolve [mkTypeSpec (default "" (importMap !! x)) sel];
      embedded ← embeddedMethods innerInterface;
      Ok (methods ++ embedded)
  | _ => Ok methods
  end.

Fixpoint generateTypeFromInterfaceType_loop (List : list ast.Field)
  (methods : list InterfaceTypeMethod) : outcome (list InterfaceTypeMethod) :=
  match List with
  | [] => Ok methods
  | field :: rest =>
      methods ← generateTypeFromInterfaceType_member field methods;
      generateTypeFromInterfaceType_loop rest methods
  end.

(** [generateTypeFromInterfaceType] (lines 509-547). *)
Definition generateTypeFromInterfaceType (Methods : option (list ast.Field))
  : outcome InterfaceType :=
  match Methods with
  | None => Ok (mkInterfaceType [])
  | Some List =>
      methods ← generateTypeFromInterfaceType_loop List [];
      Ok (mkInterfaceType methods)
  end.

End Cases.

(** [generateTypeFromExpr] (lines 167-217). *)
Fixpoint generateTypeFromExpr (e : ast.Expr) (targetPkgPath : string)
  (importMap : gmap string string) {struct e} : outcome Type_ :=
  let lower e' := generateTypeFromExpr e' targetPkgPath importMap in
  match e with
  | ast.SelectorExpr X Sel => generateTypeFromSelectorExpr X Sel importMap
  | ast.Ident Name => Ok (generateTypeFromIdent Name targetPkgPath importMap)
  | ast.StarExpr X =>
      typ ← generateTypeFromStarExpr lower X;
      Ok (Type_of_Ptr typ)
  | ast.ArrayType Len Elt => generateTypeFromArrayType lower Len Elt
  | ast.FuncType Params Results =>
      typ ← generateTypeFromFuncType lower Params Results;
      Ok (Type_of_Func typ)
  | ast.MapType Key Value =>
      typ ← generateTypeFromMapType lower Key Value;
      Ok (Type_of_Map typ)
  | ast.ChanType Dir Value =>
      typ ← generateTypeFromChanType lower Dir Value;
      Ok (Type_of_Chan typ)
  | ast.StructType Fields =>
      typ ← generateTypeFromStructType lower Fields;
      Ok (Type_of_Struct typ)
  | ast.InterfaceType Methods =>
      typ ← generateTypeFromInterfaceType targetPkgPath importMap lower Methods;
      Ok (Type_of_Interface typ)
  | _ => Err (UnrecognizedType e)
  end.

End Lowering.

(* ===================================================================== *)
(** * Resolving a batch of requests *)
(* ===================================================================== *)

(** [groupTypeSpecByPackage] (lines 44-50). *)
Definition groupTypeSpecByPackage (typeSpecs : list TypeSpec)
  : gmap string (list string) :=
  foldl (fun result spec =>
           <[TypeSpec_PackagePath spec :=
               default [] (result !! TypeSpec_PackagePath spec) ++ [TypeSpec_Name spec]]>
             result)
        ∅ typeSpecs.

Section Generator.

Variable parseInt : string -> option Z.

(** [f.sourceFinder.GetPackageSourceFiles]: the files of a package, or the
    cause of the locator's error. *)
Variable GetPackageSourceFiles : string -> string + list string.

(** [os.Open] followed by the read of the file: its content, or the cause
    of the error. *)
Variable os_Open : string -> string + string.

(** [parser.ParseFile] on a file name and a content: the syntax tree, or the
    cause of the error. *)
Variable parser_ParseFile : string -> string -> string + ast.File.

(** The choice that orders each [range] over a map. *)
Variable choose : ticket -> list string -> nat.

Definition range_keys (t : ticket) (keys : list string) : list string :=
  pick_order (choose t) (length keys) keys.

(** [parseAstFile] (lines 103-117); [filepath.Base] is [path.Base] where
    the separator is the slash. *)
Definition parseAstFile (filename : string) : outcome ast.File :=
  match os_Open filename with
  | inl cause => Err (CannotOpenFile cause)
  | inr file =>
      match parser_ParseFile (path_Base filename) file with
      | inl cause => Err (CannotParseGoCode cause)
      | inr fileAst => Ok fileAst
      end
  end.

Section Body.

(** The nested calls of [f.GenerateTypesFromSpecs]. *)
Variable resolve : list TypeSpec -> outcome (list Type_).

(** The loop [for name := range remainingNames] in one file (lines
    76-85); [todo] are the names still to visit, in the order of the
    visit. *)
Fixpoint scanNames (fileAst : ast.File) (packagePath : string)
  (importMap : gmap string string) (todo : list string)
  (remainingNames : gset string) (resultMap : gmap string Type_)
  : outcome (gset string * gmap string Type_) :=
  match todo with
  | [] => Ok (remainingNames, resultMap)
  | name :: rest =>
      match getDeclarationByName fileAst name with
      | Some specType =>
          typ ← generateTypeFromExpr parseInt resolve specType packagePath importMap;
          scanNames fileAst packagePath importMap rest
            (remainingNames ∖ {[name]}) (<[name := typ]> resultMap)
      | None =>
          scanNames fileAst packagePath importMap rest remainingNames resultMap
      end
  end.

(** The loop over [goSources] (lines 64-86); [k] is the index of the
    next file. *)
Fixpoint scanSources (packagePath : string) (goSources : list string) (k : nat)
  (remainingNames : gset string) (resultMap : gmap string Type_)
  : outcome (gset string * gmap string Type_) :=
  match goSources with
  | [] => Ok (remainingNames, resultMap)
  | source :: rest =>
      if bool_decide (size remainingNames = 0%nat)
      then Ok (remainingNames, resultMap)
      else
        fileAst ← parseAstFile source;
        let importMap := generateImportMap packagePath fileAst in
        '(remainingNames, resultMap) ←
          scanNames fileAst packagePath importMap
            (range_keys (RangeNames packagePath k) (elements remainingNames))
            remainingNames resultMap;
        scanSources packagePath rest (S k) remainingNames resultMap
  end.

(** [generateTypesInSinglePackage] (lines 52-101). *)
Definition generateTypesInSinglePackage (packagePath : string)
  (names : list string) : outcome (list Type_) :=
  match GetPackageSourceFiles packagePath with
  | inl cause => Err (SourceLookupFailed cause)
  | inr goSources =>
      let remainingNames : gset string := list_to_set names in
      '(remainingNames, resultMap) ←
        scanSources packagePath goSources 0 remainingNames ∅;
      let results :=
        (fun name => default Type_zero (resultMap !! name)) <$> names in
      if bool_decide (size remainingNames ≠ 0%nat)
      then
        match range_keys (RangeMissing packagePath) (elements remainingNames) with
        | name :: _ => Err (CannotFindDefinition name)
        | [] => Ok results
        end
      else Ok results
  end.

(** The loop [for i, typ := range types] (lines 32-34). *)
Fixpoint storeTypes (packagePath : string) (specs : list string)
  (types : list Type_) (i : nat) (resultMap : gmap TypeSpec Type_)
  : outcome (gmap TypeSpec Type_) :=
  match types with
  | [] => Ok resultMap
  | typ :: rest =>
      name ← index specs i;
      storeTypes packagePath specs rest (S i)
        (<[mkTypeSpec packagePath name := typ]> resultMap)
  end.

(** The loop over the packages (lines 26-35), in the order [todo]. *)
Fixpoint resolvePackages (packagePathToSpecs : gmap string (list string))
  (todo : list string) (resultMap : gmap TypeSpec Type_)
  : outcome (gmap TypeSpec Type_) :=
  match todo with
  | [] => Ok resultMap
  | packagePath :: rest =>
      let specs := default [] (packagePathToSpecs !! packagePath) in
      types ← generateTypesInSinglePackage packagePath specs;
      resultMap ← storeTypes packagePath specs types 0 resultMap;
      resolvePackages packagePathToSpecs rest resultMap
  end.

(** The body of [GenerateTypesFromSpecs] (lines 22-42). *)
Definition GenerateTypesFromSpecs_body (typeSpecs : list TypeSpec)
  : outcome (list Type_) :=
  let packagePathToSpecs := groupTypeSpecByPackage typeSpecs in
  resultMap ←
    resolvePackages packagePathToSpecs
      (range_keys RangePackages (elements (dom packagePathToSpecs))) ∅;
  Ok ((fun spec => default Type_zero (resultMap !! spec)) <$> typeSpecs).

End Body.

(** [GenerateTypesFromSpecs]: [fuel] bounds the depth of the calls of
    [GenerateTypesFromSpecs] nested through embedded interfaces, which the
    source does not bound. *)
Fixpoint GenerateTypesFromSpecs (fuel : nat) (typeSpecs : list TypeSpec)
  : outcome (list Type_) :=
  match fuel with
  | O => OutOfFuel
  | S fuel' => GenerateTypesFromSpecs_body (GenerateTypesFromSpecs fuel') typeSpecs
  end.

(** The lowering of an expression inside a call that may nest [fuel] calls
    of [GenerateTypesFromSpecs]. *)
Definition lowerExpr (fuel : nat) (e : ast.Expr) (targetPkgPath : string)
  (importMap : gmap string string) : outcome Type_ :=
  generateTypeFromExpr parseInt (GenerateTypesFromSpecs fuel) e targetPkgPath importMap.

End Generator.

(* ===================================================================== *)
(** * A source tree to run the model on *)
(* ===================================================================== *)

Module Demo.

(** Package "p", two files:
<<
    // a.go                         // b.go
    package p                       package p
    type A interface { M(int) }     import "io"
    type N int                      type B interface { A; Close() error }
                                    type C interface { N }
                                    type S struct { x, y int; N }
                                    type F func(a int, int, b string)
                                    type W interface { io.Writer }
>> *)
Definition a_go : ast.File :=
  ast.mkFile "p"
    [ast.GenDecl [ast.TypeSpec "A"
       (ast.InterfaceType (Some [ast.mkField ["M"]
          (ast.FuncType [ast.mkField [] (ast.Ident "int")] None)]))];
     ast.GenDecl [ast.TypeSpec "N" (ast.Ident "int")]].

Definition b_go : ast.File :=
  ast.mkFile "p"
    [ast.GenDecl [ast.ImportSpec None (quote +:+ "io" +:+ quote)];
     ast.GenDecl [ast.TypeSpec "B"
       (ast.InterfaceType (Some
          [ast.mkField [] (ast.Ident "A");
           ast.mkField ["Close"]
             (ast.FuncType [] (Some [ast.mkField [] (ast.Ident "error")]))]))];
     ast.GenDecl [ast.TypeSpec "C"
       (ast.InterfaceType (Some [ast.mkField [] (ast.Ident "N")]))];
     ast.GenDecl [ast.TypeSpec "S"
       (ast.StructType (Some
          [ast.mkField ["x"; "y"] (ast.Ident "int");
           ast.mkField [] (ast.Ident "N")]))];
     ast.GenDecl [ast.TypeSpec "F"
       (ast.FuncType [ast.mkField ["a"] (ast.Ident "int");
                      ast.mkField [] (ast.Ident "int");
                      ast.mkField ["b"] (ast.Ident "string")] None)];
     ast.GenDecl [ast.TypeSpec "W"
       (ast.InterfaceType (Some
          [ast.mkField [] (ast.SelectorExpr (ast.Ident "io") "Writer")]))]].

Definition GetPackageSourceFiles (packagePath : string) : string + list string :=
  if String.eqb packagePath "p" then inr ["/src/p/a.go"; "/src/p/b.go"]
  else inl ("no such package: " +:+ packagePath).

(** The content of a file is not modelled: [os_Open] hands the name on and
    the parser answers by name. *)
Definition os_Open (filename : string) : string + string := inr filename.

Definition parser_ParseFile (base content : string) : string + ast.File :=
  if String.eqb base "a.go" then inr a_go
  else if String.eqb base "b.go" then inr b_go
  else inl "syntax error".

(** The scheduler that visits the keys in the order of [elements]. *)
Definition choose (t : ticket) (keys : list string) : nat := 0.

Definition resolve (fuel : nat) (typeSpecs : list TypeSpec) : outcome (list Type_) :=
  GenerateTypesFromSpecs parseInt_decimal GetPackageSourceFiles os_Open
    parser_ParseFile choose fuel typeSpecs.

End Demo.

(* ===================================================================== *)
(** * The vocabulary of the properties *)
(* ===================================================================== *)

(** The names the [switch] of [generateTypeFromIdent] compares with. *)
Definition primitiveKindNames : list string :=
  [PrimitiveKindBool; PrimitiveKindByte; PrimitiveKindRune; PrimitiveKindInt;
   PrimitiveKindInt8; PrimitiveKindInt16; PrimitiveKindInt32; PrimitiveKindInt64;
   PrimitiveKindUint; PrimitiveKindUint8; PrimitiveKindUint16; PrimitiveKindUint32;
   PrimitiveKindUint64; PrimitiveKindUintptr; PrimitiveKindFloat32;
   PrimitiveKindFloat64; PrimitiveKindComplex64; PrimitiveKindComplex128;
   PrimitiveKindString; "error"].

(** The marker the specification words: the declared package name ends
    with "_test", the suffix of the name of a test package. *)
Definition spec_carriesTestSuffix (name : string) : bool :=
  strings_HasSuffix name "_test".

(** The comparison the specification words: equality up to the case of the
    letters. *)
Definition spec_toLower (c : ascii) : ascii :=
  let n := nat_of_ascii c in
  if ((65 <=? n) && (n <=? 90))%nat then ascii_of_nat (n + 32) else c.

Fixpoint spec_ToLower (s : string) : string :=
  match s with
  | EmptyString => EmptyString
  | String c s' => String (spec_toLower c) (spec_ToLower s')
  end.

Definition spec_matchesCaseInsensitively (a b : string) : bool :=
  String.eqb (spec_ToLower a) (spec_ToLower b).

(** The names of a field list as the specification words them: an entry with
    names keeps them, an entry without names gets the prefix followed by the
    counter [n], which then advances. *)
Fixpoint spec_fieldNames (prefix : string) (n : nat) (fields : list ast.Field)
  : list string :=
  match fields with
  | [] => []
  | f :: rest =>
      match ast.Field_Names f with
      | [] => (prefix +:+ itoa n) :: spec_fieldNames prefix (S n) rest
      | fieldNames => fieldNames ++ spec_fieldNames prefix n rest
      end
  end.

(** The number of named fields a field list stands for. *)
Fixpoint NumSlots (fields : list ast.Field) : nat :=
  match fields with
  | [] => 0
  | f :: rest => Nat.max 1 (length (ast.Field_Names f)) + NumSlots rest
  end.

(** The expression [generateTypeFromFieldList] lowers for an entry: the
    element of an ellipsis, the type of the entry otherwise. *)
Definition typExprOf (f : ast.Field) : ast.Expr :=
  match ast.Field_Type f with
  | ast.Ellipsis Elt => Elt
  | typExpr => typExpr
  end.

(** The flag [isVariadic] after an entry: set by an ellipsis, kept otherwise. *)
Definition isVariadicAfter (f : ast.Field) (isVariadic : bool) : bool :=
  match ast.Field_Type f with
  | ast.Ellipsis _ => true
  | _ => isVariadic
  end.

(** The position of the first occurrence of a key in a list of keys. *)
Fixpoint index_of (x : string) (keys : list string) : nat :=
  match keys with
  | [] => 0
  | y :: rest => if String.eqb x y then 0 else S (index_of x rest)
  end.

(** The choice that visits the keys in the order [target]: the next key is
    the first one of [target] that is still to visit. *)
Definition pick_for (target : list string) (keys : list string) : nat :=
  match List.find (fun x => bool_decide (x ∈ keys)) target with
  | Some x => index_of x keys
  | None => 0
  end.

(** The names requested in a package, in the order of the requests. *)
Definition namesIn (packagePath : string) (typeSpecs : list TypeSpec) : list string :=
  TypeSpec_Name <$> filter (fun spec => TypeSpec_PackagePath spec = packagePath) typeSpecs.

(** One for a pointer that is set, zero for nil. *)
Definition is_set {A} (pointer : option A) : nat :=
  match pointer with Some _ => 1 | None => 0 end.

(** The number of pointers of a [Type] that are not nil. *)
Definition populated (t : Type_) : nat :=
  is_set (Type_PrimitiveType t) + is_set (Type_QualType t) +
  is_set (Type_PtrType t) + is_set (Type_SliceType t) +
  is_set (Type_ArrayType t) + is_set (Type_MapType t) +
  is_set (Type_ChanType t) + is_set (Type_FuncType t) +
  is_set (Type_StructType t) + is_set (Type_InterfaceType t).

(** Exactly one pointer of the value is set, and so it is in every [Type]
    inside its payload. *)
Fixpoint oneVariant (t : Type_) : bool :=
  (populated t =? 1)%nat &&
  match t with
  | mkType _ _ ptr slice array map chan func struct interface =>
      match ptr with Some (mkPtrType elem) => oneVariant elem | None => true end &&
      match slice with Some (mkSliceType elem) => oneVariant elem | None => true end &&
      match array with Some (mkArrayType _ elem) => oneVariant elem | None => true end &&
      match map with
      | Some (mkMapType key elem) => oneVariant key && oneVariant elem
      | None => true
      end &&
      match chan with Some (mkChanType _ elem) => oneVariant elem | None => true end &&
      match func with Some f => oneVariant_func f | None => true end &&
      match struct with
      | Some (mkStructType fields) => forallb oneVariant_field fields
      | None => true
      end &&
      match interface with
      | Some (mkInterfaceType methods) => forallb oneVariant_method methods
      | None => true
      end
  end
with oneVariant_func (f : FuncType) : bool :=
  match f with
  | mkFuncType inputs outputs _ =>
      forallb oneVariant_field inputs && forallb oneVariant_field outputs
  end
with oneVariant_field (f : TypeField) : bool :=
  match f with mkTypeField _ t => oneVariant t end
with oneVariant_method (m : InterfaceTypeMethod) : bool :=
  match m with mkInterfaceTypeMethod _ f => oneVariant_func f end.

(** The methods a [Type] hands to an interface that embeds it are well
    formed (a [Type] that is not an interface hands none). *)
Definition embeddable (t : Type_) : bool :=
  match Type_InterfaceType t with
  | Some it => forallb oneVariant_method (InterfaceType_Methods it)
  | None => true
  end.

(** A property of expressions holds of the type of every entry of a field
    list; a property holds of the content of an option. *)
Definition onFields (P : ast.Expr -> Prop) (fields : list ast.Field) : Prop :=
  Forall (fun f => P (ast.Field_Type f)) fields.

Definition onOption {A} (Q : A -> Prop) (o : option A) : Prop :=
  match o with Some a => Q a | None => True end.

(** The lowering of an expression returns well-formed types only. *)
Definition lowersWell (lower : ast.Expr -> outcome Type_) (e : ast.Expr) : Prop :=
  forall t, lower e = Ok t -> oneVariant t = true.

(** The predicate of the induction on expressions: the expression lowers
    well, and so does the element of an ellipsis. *)
Definition lowersWell' (lower : ast.Expr -> outcome Type_) (e : ast.Expr) : Prop :=
  lowersWell lower e /\
  match e with
  | ast.Ellipsis Elt => lowersWell lower Elt
  | _ => True
  end.

(** Every type a map holds is well formed. *)
Definition allOneVariant (M : gmap string Type_) : Prop :=
  forall n t, M !! n = Some t -> oneVariant t = true.

(** What [getDeclarationByName] looks at in a specification: the name and
    the type of a type specification. *)
Definition typeSpecEntry (spec : ast.Spec) : option (string * ast.Expr) :=
  match spec with
  | ast.TypeSpec n t => Some (n, t)
  | _ => None
  end.

(** The type specifications of a file, in the order of the source. *)
Definition typeSpecsOf (f : ast.File) : list (string * ast.Expr) :=
  flat_map (fun decl => match decl with
                        | ast.GenDecl Specs => omap typeSpecEntry Specs
                        | _ => []
                        end) (ast.File_Decls f).

(** The entry [generateImportMap] writes for an import specification: the
    explicit name or the name drawn from the path, and the path without its
    quotes (lines 125-133). *)
Definition importEntry (spec : ast.Spec) : option (string * string) :=
  match spec with
  | ast.ImportSpec Name Path =>
      let importPath := strings_TrimPrefix (strings_TrimSuffix Path quote) quote in
      Some (match Name with
            | Some name => name
            | None => getImportNameFromPackagePath importPath
            end, importPath)
  | _ => None
  end.

(** The entries of the imports of a file, in the order of the source. *)
Definition importEntries (f : ast.File) : list (string * string) :=
  flat_map (fun decl => match decl with
                        | ast.GenDecl Specs => omap importEntry Specs
                        | _ => []
                        end) (ast.File_Decls f).

(** An entry of a field list whose type is an ellipsis. *)
Definition isEllipsisField (f : ast.Field) : bool :=
  match ast.Field_Type f with
  | ast.Ellipsis _ => true
  | _ => false
  end.

(** The number of named fields an entry of a field list stands for. *)
Definition slotsOf (f : ast.Field) : nat := Nat.max 1 (length (ast.Field_Names f)).

(** Two outcomes fail the same way: with the same error, the same panic, or
    both for want of budget. *)
Definition sameFailure {A B} (m : outcome A) (m' : outcome B) : Prop :=
  match m, m' with
  | Err e, Err e' => e = e'
  | Panic p, Panic p' => p = p'
  | OutOfFuel, OutOfFuel => True
  | _, _ => False
  end.

(** The errors the lowering of an expression makes itself. *)
Definition unrecognized (e : error) : bool :=
  match e with
  | UnrecognizedType _ | UnrecognizedExpr _ | UnrecognizedIdentifier _
  | UnrecognizedArrayLength _ => true
  | _ => false
  end.

(** An outcome that is a value or an error of the lowering itself: no
    other error, no panic, no exhausted budget. *)
Definition okOrErr {A} (m : outcome A) : Prop :=
  match m with
  | Ok _ => True
  | Err e => unrecognized e = true
  | _ => False
  end.

(** Two outcomes agree: they are equal, and a value or an error of the
    lowering itself. *)
Definition agree {A} (m m' : outcome A) : Prop := m = m' /\ okOrErr m.

(** The member of an interface is a method with a name, or has a shape the
    lowering of interfaces passes over: it is not the name of an interface to
    embed. *)
Definition noEmbedding_member (ok : ast.Expr -> bool) (f : ast.Field) : bool :=
  match ast.Field_Type f with
  | ast.FuncType _ _ =>
      negb (bool_decide (ast.Field_Names f = [])) && ok (ast.Field_Type f)
  | ast.Ident _ | ast.SelectorExpr _ _ => false
  | _ => true
  end.

(** No interface inside the expression embeds another one, and the methods
    of its interfaces have names. *)
Fixpoint noEmbedding (e : ast.Expr) : bool :=
  match e with
  | ast.StarExpr X => noEmbedding X
  | ast.ArrayType _ Elt => noEmbedding Elt
  | ast.FuncType Params Results =>
      forallb (fun f => noEmbedding (ast.Field_Type f)) Params &&
      match Results with
      | Some List => forallb (fun f => noEmbedding (ast.Field_Type f)) List
      | None => true
      end
  | ast.MapType Key Value => noEmbedding Key && noEmbedding Value
  | ast.ChanType _ Value => noEmbedding Value
  | ast.StructType Fields =>
      match Fields with
      | Some List => forallb (fun f => noEmbedding (ast.Field_Type f)) List
      | None => true
      end
  | ast.InterfaceType Methods =>
      match Methods with
      | Some List => forallb (noEmbedding_member noEmbedding) List
      | None => true
      end
  | ast.Ellipsis Elt => noEmbedding Elt
  | _ => true
  end.

(** One step of the fold that builds the import table. *)
Definition insertEntry (m : gmap string string) (e : string * string)
  : gmap string string := <[e.1 := e.2]> m.

(** What the member of an interface asks of two lowerings for them to agree
    on the interface. *)
Definition memberAgrees (lower lower' : ast.Expr -> outcome Type_) (f : ast.Field)
  : Prop :=
  match ast.Field_Type f with
  | ast.FuncType Params Results =>
      ast.Field_Names f <> [] /\
      agree (generateTypeFromFuncType lower Params Results)
            (generateTypeFromFuncType lower' Params Results)
  | ast.Ident _ | ast.SelectorExpr _ _ => False
  | _ => True
  end.

(** Two lowerings agree on an expression without embedding, and on the
    element of an ellipsis. *)
Definition lowersAlike (lower lower' : ast.Expr -> outcome Type_) (e : ast.Expr)
  : Prop :=
  (noEmbedding e = true -> agree (lower e) (lower' e)) /\
  match e with
  | ast.Ellipsis Elt => noEmbedding Elt = true -> agree (lower Elt) (lower' Elt)
  | _ => True
  end.

(** The fields a struct gets from its entries [List] when [ts] are the
    types of the entries: one field per name, in the order of the source. *)
Definition structFields (List : list ast.Field) (ts : list Type_) : list TypeField :=
  concat (zip_with (fun f t => (fun name => mkTypeField name t) <$> ast.Field_Names f)
                   List ts).

(** The member of an interface is a method: its type is a signature. *)
Definition isFuncMember (f : ast.Field) : bool :=
  match ast.Field_Type f with
  | ast.FuncType _ _ => true
  | _ => false
  end.

(** The member of an interface names a type to embed. *)
Definition isEmbeddedMember (f : ast.Field) : bool :=
  match ast.Field_Type f with
  | ast.Ident _ | ast.SelectorExpr _ _ => true
  | _ => false
  end.

(** [m] is the method of the member [f]: it has the first name of [f] and
    the lowered signature of [f]. *)
Definition methodOf (lower : ast.Expr -> outcome Type_) (f : ast.Field)
  (m : InterfaceTypeMethod) : Prop :=
  match ast.Field_Type f with
  | ast.FuncType Params Results =>
      head (ast.Field_Names f) = Some (InterfaceTypeMethod_Name m) /\
      generateTypeFromFuncType lower Params Results = Ok (InterfaceTypeMethod_Func m)
  | _ => False
  end.

(** An outcome refines another one: it is the same, or it stopped for want
    of budget. *)
Definition refines {A} (m m' : outcome A) : Prop := m = OutOfFuel \/ m = m'.

(** The values of an outcome are values of another one. *)
Definition okImplies {A} (m m' : outcome A) : Prop := forall a, m = Ok a -> m' = Ok a.

(** Two lowerings are related by [R] on an expression, on the element of an
    ellipsis and on the signature of a function type. *)
Definition lowersRelated (R : forall A, outcome A -> outcome A -> Prop)
  (lower lower' : ast.Expr -> outcome Type_) (e : ast.Expr) : Prop :=
  R _ (lower e) (lower' e) /\
  match e with
  | ast.Ellipsis Elt => R _ (lower Elt) (lower' Elt)
  | ast.FuncType Params Results =>
      R _ (generateTypeFromFuncType lower Params Results)
          (generateTypeFromFuncType lower' Params Results)
  | _ => True
  end.

(** What the member of an interface asks of two lowerings for them to be
    related on the interface. *)
Definition memberRelated (R : forall A, outcome A -> outcome A -> Prop)
  (lower lower' : ast.Expr -> outcome Type_) (f : ast.Field) : Prop :=
  match ast.Field_Type f with
  | ast.FuncType Params Results =>
      R _ (generateTypeFromFuncType lower Params Results)
          (generateTypeFromFuncType lower' Params Results)
  | _ => True
  end.

(** The variants of [Type]. *)
Inductive variant :=
| VPrimitive | VQual | VPtr | VSlice | VArray | VMap | VChan | VFunc | VStruct
| VInterface.

(** The variants whose pointer is set in a [Type]. *)
Definition variantsOf (t : Type_) : list variant :=
  let set {A} (pointer : option A) (v : variant) : list variant :=
    match pointer with Some _ => [v] | None => [] end in
  match t with
  | mkType pr q ptr sl ar mp ch fn st it =>
      set pr VPrimitive ++ set q VQual ++ set ptr VPtr ++ set sl VSlice ++
      set ar VArray ++ set mp VMap ++ set ch VChan ++ set fn VFunc ++
      set st VStruct ++ set it VInterface
  end.

(** The variant that goes with the form of a type expression; none for a
    form that is no case of [generateTypeFromExpr]. *)
Definition variantFor (e : ast.Expr) : option variant :=
  match e with
  | ast.Ident Name =>
      Some (if bool_decide (Name ∈ primitiveKindNames) then VPrimitive else VQual)
  | ast.SelectorExpr _ _ => Some VQual
  | ast.StarExpr _ => Some VPtr
  | ast.ArrayType None _ => Some VSlice
  | ast.ArrayType (Some _) _ => Some VArray
  | ast.FuncType _ _ => Some VFunc
  | ast.MapType _ _ => Some VMap
  | ast.ChanType _ _ => Some VChan
  | ast.StructType _ => Some VStruct
  | ast.InterfaceType _ => Some VInterface
  | _ => None
  end.

(** The call returns: a value or an error, no panic and no exhausted
    budget. *)
Definition returns {A} (m : outcome A) : Prop :=
  match m with
  | Ok _ | Err _ => True
  | _ => False
  end.

(** Two outcomes are the same return. *)
Definition sameReturn {A} (m m' : outcome A) : Prop := m = m' /\ returns m.

(* ===================================================================== *)
(** * Basic facts *)
(* ===================================================================== *)

Lemma bind_Ok {A B} (m : outcome A) (k : A -> outcome B) (b : B) :
  m ≫= k = Ok b -> exists a, m = Ok a /\ k a = Ok b.
Proof. destruct m as [a| | |]; simpl; intros H; try discriminate. eauto. Qed.

Lemma bind_Ok_l {A B} (m : outcome A) (k : A -> outcome B) (a : A) :
  m = Ok a -> m ≫= k = k a.
Proof. intros ->. reflexivity. Qed.

Lemma bind_not_Ok {A B} (m : outcome A) (k : A -> outcome B) :
  is_Ok m = false -> is_Ok (m ≫= k) = false.
Proof. destruct m; simpl; congruence. Qed.

Lemma is_Ok_true {A} (m : outcome A) : is_Ok m = true <-> exists a, m = Ok a.
Proof.
  destruct m; simpl; split; try discriminate; eauto;
    intros [a Ha]; discriminate.
Qed.

Lemma index_Ok {A} (s : list A) (i : nat) (x : A) :
  index s i = Ok x <-> s !! i = Some x.
Proof.
  unfold index. destruct (s !! i); split; intros H; try discriminate; congruence.
Qed.

(** Examples of the library functions. *)
Example strings_Contains_suffix : strings_Contains "gotype_test" "_test" = true.
Proof. reflexivity. Qed.
Example strings_Contains_inside : strings_Contains "my_tests" "_test" = true.
Proof. reflexivity. Qed.
Example strings_Contains_none : strings_Contains "gotype" "_test" = false.
Proof. reflexivity. Qed.
Example path_Base_ex : path_Base "gopkg.in/yaml.v2/" = "yaml.v2".
Proof. reflexivity. Qed.
Example getImportName_ex : getImportNameFromPackagePath "gopkg.in/yaml.v2" = "yaml".
Proof. reflexivity. Qed.
Example getImportName_empty : getImportNameFromPackagePath "" = "".
Proof. reflexivity. Qed.
Example itoa_ex : itoa 12 = "12".
Proof. reflexivity. Qed.

(* ===================================================================== *)
(** * Identifiers *)
(* ===================================================================== *)

(** C2, as stated, fails: the identifier [Int] matches the kind name [int]
    up to case, and it is lowered to a qualified type, not to the primitive
    type [int]. *)
Lemma C2_case_counterexample :
  PrimitiveKindInt ∈ primitiveKindNames /\
  spec_matchesCaseInsensitively "Int" PrimitiveKindInt = true /\
  generateTypeFromIdent "Int" "p" ∅ = Type_of_Qual (mkQualType "p" "" "Int") /\
  generateTypeFromIdent "Int" "p" ∅ <> Type_of_Primitive (mkPrimitiveType PrimitiveKindInt).
Proof.
  split; [| split; [reflexivity | split; [reflexivity | discriminate]]].
  unfold primitiveKindNames. set_solver.
Qed.

(** C2, amended: an identifier is compared exactly (case included) with the
    names of the primitive kinds and with "error"; on a match the result is
    the primitive type of that kind, otherwise it is the qualified type of
    the target package, the entry of the import table for the package's own
    short name (the empty string when there is none) and the identifier.
    The function returns a type for every identifier: it has no error. *)
Theorem C2_ident_lowering (Name packagePath : string) (importMap : gmap string string) :
  generateTypeFromIdent Name packagePath importMap =
    if bool_decide (Name ∈ primitiveKindNames)
    then Type_of_Primitive (mkPrimitiveType Name)
    else Type_of_Qual
           (mkQualType packagePath
                       (default "" (importMap !! (packagePath +:+ "__short")))
                       Name).
Proof.
  unfold generateTypeFromIdent.
  repeat match goal with
  | |- context [String.eqb Name ?k] =>
      destruct (String.eqb_spec Name k) as [->|?];
        [ rewrite bool_decide_eq_true_2; [reflexivity | unfold primitiveKindNames; set_solver] |]
  end.
  rewrite bool_decide_eq_false_2; [reflexivity |].
  unfold primitiveKindNames.
  intros Hin. repeat (apply elem_of_cons in Hin as [Hin|Hin]; [congruence |]).
  by apply elem_of_nil in Hin.
Qed.

(* ===================================================================== *)
(** * Arrays and slices *)
(* ===================================================================== *)

Section ArrayLength.

Variable parseInt : string -> option Z.
Variable resolve : list TypeSpec -> outcome (list Type_).

Local Abbreviation lower := (generateTypeFromExpr parseInt resolve).

Lemma generateTypeFromExpr_ArrayType Len Elt pkg im :
  lower (ast.ArrayType Len Elt) pkg im =
    generateTypeFromArrayType parseInt (fun e => lower e pkg im) Len Elt.
Proof. reflexivity. Qed.

(** C6: an array type without a length lowers its element and yields a
    slice; with a length that is a basic literal [parseInt] reads as [n] it
    lowers its element and yields an array of length [n]; with any other
    length it fails with "unrecognized array length", whatever the element
    is; and [[3]int] lowers to the array of length 3 of the primitive
    [int]. *)
Theorem C6_array_lowering (pkg : string) (im : gmap string string) (Elt : ast.Expr) :
  lower (ast.ArrayType None Elt) pkg im =
    (elem ← lower Elt pkg im; Ok (Type_of_Slice (mkSliceType elem)))
  /\ (forall kind Value n, parseInt Value = Some n ->
       lower (ast.ArrayType (Some (ast.BasicLit kind Value)) Elt) pkg im =
         (elem ← lower Elt pkg im; Ok (Type_of_Array (mkArrayType n elem))))
  /\ (forall len, (forall kind Value, len = ast.BasicLit kind Value -> parseInt Value = None) ->
       lower (ast.ArrayType (Some len) Elt) pkg im = Err (UnrecognizedArrayLength len))
  /\ (parseInt "3" = Some 3%Z ->
       lower (ast.ArrayType (Some (ast.BasicLit ast.INT "3")) (ast.Ident "int")) pkg im =
         Ok (Type_of_Array
               (mkArrayType 3 (Type_of_Primitive (mkPrimitiveType PrimitiveKindInt))))).
Proof.
  repeat split.
  - intros kind Value n Hn. rewrite generateTypeFromExpr_ArrayType.
    unfold generateTypeFromArrayType. rewrite Hn. reflexivity.
  - intros len Hlen. rewrite generateTypeFromExpr_ArrayType.
    unfold generateTypeFromArrayType.
    destruct len; try reflexivity.
    rewrite (Hlen Kind Value eq_refl). reflexivity.
  - intros H3. rewrite generateTypeFromExpr_ArrayType.
    unfold generateTypeFromArrayType. rewrite H3. reflexivity.
Qed.

End ArrayLength.

(** C6 on [[3]int], on [[16]byte] and on an array whose length is an
    identifier and whose element has no case in the lowering. *)
Lemma C6_array_lowering_witness :
  let lower := generateTypeFromExpr parseInt_decimal (fun _ => OutOfFuel) in
  lower (ast.ArrayType (Some (ast.BasicLit ast.INT "3")) (ast.Ident "int")) "p" ∅ =
    Ok (Type_of_Array (mkArrayType 3 (Type_of_Primitive (mkPrimitiveType PrimitiveKindInt))))
  /\ lower (ast.ArrayType (Some (ast.BasicLit ast.INT "16")) (ast.Ident "byte")) "p" ∅ =
       Ok (Type_of_Array (mkArrayType 16 (Type_of_Primitive (mkPrimitiveType PrimitiveKindByte))))
  /\ lower (ast.ArrayType (Some (ast.Ident "n")) (ast.OtherExpr "(int)")) "p" ∅ =
       Err (UnrecognizedArrayLength (ast.Ident "n")).
Proof.
  pose proof (C6_array_lowering parseInt_decimal (fun _ => OutOfFuel) "p" ∅) as H.
  split; [| split].
  - destruct (H (ast.Ident "int")) as (_ & _ & _ & H3). apply H3. reflexivity.
  - destruct (H (ast.Ident "byte")) as (_ & Hn & _ & _).
    rewrite (Hn ast.INT "16" 16%Z); reflexivity.
  - destruct (H (ast.OtherExpr "(int)")) as (_ & _ & Hbad & _).
    apply Hbad. intros kind Value Heq. discriminate.
Defined.

(* ===================================================================== *)
(** * Import tables *)
(* ===================================================================== *)

(** A string that ends with [suffix] contains it. *)
Lemma strings_Contains_unfold s substr :
  strings_Contains s substr =
    if String.prefix substr s then true
    else match s with
         | EmptyString => false
         | String _ s' => strings_Contains s' substr
         end.
Proof. by destruct s. Qed.

Lemma strings_Contains_at s substr n :
  (n + String.length substr <= String.length s)%nat ->
  String.substring n (String.length substr) s = substr ->
  strings_Contains s substr = true.
Proof.
  revert s. induction n as [|n IH]; intros s Hlen Hsub.
  - rewrite strings_Contains_unfold.
    by rewrite (proj2 (String.prefix_correct substr s) Hsub).
  - destruct s as [|c s]; [simpl in Hlen; lia |].
    rewrite strings_Contains_unfold.
    destruct (String.prefix substr (String c s)); [reflexivity |].
    apply IH; [simpl in Hlen; lia | exact Hsub].
Qed.

Lemma strings_HasSuffix_Contains s suffix :
  strings_HasSuffix s suffix = true -> strings_Contains s suffix = true.
Proof.
  unfold strings_HasSuffix. intros H. apply andb_true_iff in H as [Hlen Heq].
  apply Nat.leb_le in Hlen. apply String.eqb_eq in Heq.
  apply (strings_Contains_at s suffix (String.length s - String.length suffix));
    [lia | exact Heq].
Qed.

(** C7, as stated, fails: the package name [my_tests] does not end with
    "_test", it carries no test-only suffix marker, and the entry of the
    package's own short name is not added for a file of that package,
    because the name contains "_test".  So the entry is not added exactly
    when the name carries the suffix. *)
Lemma C7_suffix_counterexample :
  spec_carriesTestSuffix "my_tests" = false
  /\ strings_Contains "my_tests" "_test" = true
  /\ importsOf (ast.mkFile "my_tests" []) !! "p__short" = None
  /\ generateImportMap "p" (ast.mkFile "my_tests" []) !! "p__short" = None
  /\ ~ (forall (packagePath : string) (file : ast.File),
          importsOf file !! (packagePath +:+ "__short") = None ->
          (generateImportMap packagePath file !! (packagePath +:+ "__short")
             = Some (ast.File_Name file)
           <-> spec_carriesTestSuffix (ast.File_Name file) = false)).
Proof.
  split; [reflexivity | split; [reflexivity | split; [reflexivity |]]].
  split; [reflexivity |].
  intros Hclaim.
  destruct (Hclaim "p" (ast.mkFile "my_tests" []) eq_refl) as [_ Hadded].
  specialize (Hadded eq_refl). discriminate Hadded.
Qed.

(** C7, amended: the import table of a file is the table of its imports, to
    which the entry from the package path followed by "__short" to the
    declared package name is added exactly when that name does not contain
    "_test", anywhere in it; when it does, and so whenever the name ends
    with "_test", the table is the table of the imports alone.  The builder
    is a total function: it has no error. *)
Theorem C7_self_reference_entry (packagePath : string) (file : ast.File) :
  let key := packagePath +:+ "__short" in
  let name := ast.File_Name file in
  (strings_Contains name "_test" = false ->
     generateImportMap packagePath file = <[key := name]> (importsOf file) /\
     generateImportMap packagePath file !! key = Some name)
  /\ (strings_Contains name "_test" = true ->
       generateImportMap packagePath file = importsOf file)
  /\ (importsOf file !! key = None ->
       (generateImportMap packagePath file !! key = Some name <->
        strings_Contains name "_test" = false))
  /\ (spec_carriesTestSuffix name = true ->
       strings_Contains name "_test" = true /\
       generateImportMap packagePath file = importsOf file).
Proof.
  intros key name.
  assert (Hsuffix : spec_carriesTestSuffix name = true ->
                    strings_Contains name "_test" = true).
  { apply strings_HasSuffix_Contains. }
  unfold generateImportMap. fold key name.
  destruct (strings_Contains name "_test") eqn:Hc; simpl.
  - split; [discriminate |]. split; [reflexivity |]. split.
    + intros Hnone. rewrite Hnone. split; discriminate.
    + intros _. split; reflexivity.
  - split; [intros _; split; [reflexivity | apply lookup_insert_eq] |].
    split; [discriminate |]. split.
    + intros _. split; [reflexivity | intros _; apply lookup_insert_eq].
    + intros Hs. specialize (Hsuffix Hs). discriminate Hsuffix.
Qed.

(** C7 on a production file, on the test file of the same package, and on
    a file of a package whose name has "_test" inside. *)
Lemma C7_self_reference_entry_witness :
  let imports := [ast.GenDecl [ast.ImportSpec None (quote +:+ "go/ast" +:+ quote)]] in
  generateImportMap "github.com/x/gotype" (ast.mkFile "gotype" imports)
    !! "github.com/x/gotype__short" = Some "gotype"
  /\ generateImportMap "github.com/x/gotype" (ast.mkFile "gotype_test" imports)
       = importsOf (ast.mkFile "gotype_test" imports)
  /\ generateImportMap "github.com/x/gotype" (ast.mkFile "gotype_test" imports)
       !! "github.com/x/gotype__short" = None
  /\ generateImportMap "github.com/x/my_tests" (ast.mkFile "my_tests" imports)
       = importsOf (ast.mkFile "my_tests" imports).
Proof.
  intros imports.
  destruct (C7_self_reference_entry "github.com/x/gotype" (ast.mkFile "gotype" imports))
    as (Hadd & _ & _ & _).
  destruct (C7_self_reference_entry "github.com/x/gotype" (ast.mkFile "gotype_test" imports))
    as (_ & _ & _ & Hsuffix).
  destruct (C7_self_reference_entry "github.com/x/my_tests" (ast.mkFile "my_tests" imports))
    as (_ & Homit & _ & _).
  split; [apply Hadd; reflexivity |].
  destruct Hsuffix as [_ Hsame]; [reflexivity |].
  split; [exact Hsame |].
  split; [rewrite Hsame; vm_compute; reflexivity |].
  apply Homit. reflexivity.
Defined.

(* ===================================================================== *)
(** * Field lists *)
(* ===================================================================== *)

Lemma getNamesFromExpr_names_app todo names :
  getNamesFromExpr_names todo names = names ++ todo.
Proof.
  revert names. induction todo as [|n todo IH]; intros names; simpl.
  - by rewrite app_nil_r.
  - rewrite IH, <- app_assoc. reflexivity.
Qed.

Lemma getNamesFromExpr_loop_spec params prefix names i :
  getNamesFromExpr_loop params prefix names i =
    names ++ spec_fieldNames prefix (S i) params.
Proof.
  revert names i. induction params as [|p params IH]; intros names i; simpl.
  - by rewrite app_nil_r.
  - destruct (ast.Field_Names p) as [|n ns].
    + rewrite IH, <- app_assoc. reflexivity.
    + rewrite IH, getNamesFromExpr_names_app, <- !app_assoc. reflexivity.
Qed.

Lemma getNamesFromExpr_spec params prefix :
  getNamesFromExpr params prefix = spec_fieldNames prefix 1 params.
Proof. unfold getNamesFromExpr. by rewrite getNamesFromExpr_loop_spec. Qed.

Lemma spec_fieldNames_length prefix n fields :
  length (spec_fieldNames prefix n fields) = NumSlots fields.
Proof.
  revert n. induction fields as [|f fields IH]; intros n; simpl; [reflexivity |].
  destruct (ast.Field_Names f) as [|x xs]; simpl.
  - by rewrite IH.
  - rewrite length_app, IH. reflexivity.
Qed.

Section FieldList.

Variable lower : ast.Expr -> outcome Type_.

Lemma lower_typExprOf (f : ast.Field) :
  match ast.Field_Type f with
  | ast.Ellipsis Elt => lower Elt
  | _ => lower (ast.Field_Type f)
  end = lower (typExprOf f).
Proof. unfold typExprOf. destruct (ast.Field_Type f); reflexivity. Qed.

Lemma appendNamed_Ok fieldNames names typ types i types' i' :
  appendNamed fieldNames names typ types i = Ok (types', i') ->
  i' = (i + length fieldNames)%nat /\
  TypeField_Name <$> types' =
    (TypeField_Name <$> types) ++ take (length fieldNames) (drop i names) /\
  TypeField_Type <$> types' =
    (TypeField_Type <$> types) ++ replicate (length fieldNames) typ.
Proof.
  revert types i. induction fieldNames as [|n ns IH]; intros types i; simpl.
  - intros [= <- <-]. rewrite !app_nil_r. repeat split; lia.
  - intros H. apply bind_Ok in H as (name & Hname & H).
    apply index_Ok in Hname. apply IH in H as (-> & Hnames & Htypes).
    split; [lia |]. split.
    + rewrite Hnames, fmap_app, <- app_assoc. simpl. f_equal.
      rewrite (drop_S _ _ _ Hname). reflexivity.
    + rewrite Htypes, fmap_app, <- app_assoc. reflexivity.
Qed.

Lemma appendNamed_progress fieldNames names typ types i :
  (i + length fieldNames <= length names)%nat ->
  is_Ok (appendNamed fieldNames names typ types i) = true.
Proof.
  revert types i. induction fieldNames as [|n ns IH]; intros types i Hle; simpl in *.
  - reflexivity.
  - unfold index. destruct (names !! i) as [name|] eqn:Hname.
    + simpl. apply IH. lia.
    + apply lookup_ge_None in Hname. lia.
Qed.

Lemma generateTypeFromFieldList_loop_cons f fields names types i v :
  generateTypeFromFieldList_loop lower (f :: fields) names types i v =
    (typ ← lower (typExprOf f);
     if bool_decide (ast.Field_Names f = [])
     then name ← index names i;
          generateTypeFromFieldList_loop lower fields names
            (types ++ [mkTypeField name typ]) (S i) (isVariadicAfter f v)
     else '(types, i) ← appendNamed (ast.Field_Names f) names typ types i;
          generateTypeFromFieldList_loop lower fields names types i
            (isVariadicAfter f v)).
Proof.
  cbn [generateTypeFromFieldList_loop]. rewrite lower_typExprOf.
  destruct (ast.Field_Names f); reflexivity.
Qed.

(** A successful run of the loop appends, for the entries in order, the
    next names of [names] from index [i] on. *)
Lemma generateTypeFromFieldList_loop_Ok fields names types i v types' v' :
  generateTypeFromFieldList_loop lower fields names types i v = Ok (types', v') ->
  TypeField_Name <$> types' =
    (TypeField_Name <$> types) ++ take (NumSlots fields) (drop i names).
Proof.
  revert types i v. induction fields as [|f fields IH]; intros types i v.
  - simpl. intros [= <- <-]. by rewrite app_nil_r.
  - rewrite generateTypeFromFieldList_loop_cons. intros H.
    apply bind_Ok in H as (typ & Htyp & H).
    cbn [NumSlots]. case_bool_decide as Hns.
    + apply bind_Ok in H as (name & Hname & H). apply index_Ok in Hname.
      apply IH in H as Hnames. rewrite Hns. simpl.
      rewrite Hnames, fmap_app, <- app_assoc. simpl. f_equal.
      rewrite (drop_S _ _ _ Hname). reflexivity.
    + apply bind_Ok in H as ([types1 i1] & Hnamed & H).
      apply appendNamed_Ok in Hnamed as (-> & Hnames1 & _).
      apply IH in H as Hnames.
      assert (Hmax : Nat.max 1 (length (ast.Field_Names f)) = length (ast.Field_Names f))
        by (destruct (ast.Field_Names f); [done | simpl; lia]).
      rewrite Hmax.
      rewrite Hnames, Hnames1, <- app_assoc. f_equal.
      rewrite <- take_take_drop, drop_drop. reflexivity.
Qed.

(** The loop succeeds when every entry lowers and [names] is long enough. *)
Lemma generateTypeFromFieldList_loop_progress fields names types i v :
  (i + NumSlots fields <= length names)%nat ->
  Forall (fun f => is_Ok (lower (typExprOf f)) = true) fields ->
  is_Ok (generateTypeFromFieldList_loop lower fields names types i v) = true.
Proof.
  revert types i v. induction fields as [|f fields IH]; intros types i v Hle Hall;
    [reflexivity |].
  apply Forall_cons in Hall as [Hf Hall].
  rewrite generateTypeFromFieldList_loop_cons.
  apply is_Ok_true in Hf as [typ ->]. cbn [NumSlots] in Hle.
  rewrite (bind_Ok_l _ _ typ eq_refl).
  case_bool_decide as Hns.
  - rewrite Hns in Hle. simpl in Hle.
    unfold index. destruct (names !! i) as [name|] eqn:Hname.
    + simpl. apply IH; [lia | done].
    + apply lookup_ge_None in Hname. lia.
  - assert (Hp : is_Ok (appendNamed (ast.Field_Names f) names typ types i) = true)
      by (apply appendNamed_progress; lia).
    apply is_Ok_true in Hp as [[types1 i1] Hnamed]. rewrite Hnamed.
    apply appendNamed_Ok in Hnamed as (-> & _ & _).
    simpl. apply IH; [lia | done].
Qed.

Lemma generateTypeFromFieldList_names fields prefix types v :
  generateTypeFromFieldList lower (Some fields) (getNamesFromExpr fields prefix)
    = Ok (types, v) ->
  TypeField_Name <$> types = spec_fieldNames prefix 1 fields.
Proof.
  unfold generateTypeFromFieldList. intros H.
  apply generateTypeFromFieldList_loop_Ok in H as ->.
  rewrite getNamesFromExpr_spec. simpl.
  rewrite drop_0, <- (spec_fieldNames_length prefix 1 fields). apply firstn_all.
Qed.

Lemma generateTypeFromFieldList_progress fields prefix :
  Forall (fun f => is_Ok (lower (typExprOf f)) = true) fields ->
  is_Ok (generateTypeFromFieldList lower (Some fields)
           (getNamesFromExpr fields prefix)) = true.
Proof.
  intros Hall. unfold generateTypeFromFieldList.
  apply generateTypeFromFieldList_loop_progress; [| done].
  rewrite getNamesFromExpr_spec, spec_fieldNames_length. lia.
Qed.

(** C3: when the lowering of a function signature succeeds, the names of
    its parameters are those of the parameter list, where an entry without
    names is called "arg" followed by a counter that starts at 1 and
    advances on entries without names only; the names of its results
    are built the same way with "out" and a counter of their own.  The
    lowering succeeds as soon as every entry's type lowers. *)
Theorem C3_field_names (Params : list ast.Field) (Results : option (list ast.Field)) :
  (forall ft, generateTypeFromFuncType lower Params Results = Ok ft ->
     TypeField_Name <$> FuncType_Inputs ft = spec_fieldNames "arg" 1 Params /\
     TypeField_Name <$> FuncType_Outputs ft =
       spec_fieldNames "out" 1 (default [] Results))
  /\ (Forall (fun f => is_Ok (lower (typExprOf f)) = true)
             (Params ++ default [] Results) ->
      is_Ok (generateTypeFromFuncType lower Params Results) = true).
Proof.
  unfold generateTypeFromFuncType, getInputNamesFromAst, getOutputNamesFromAst.
  split.
  - intros ft H.
    apply bind_Ok in H as ([params v] & Hparams & H).
    apply generateTypeFromFieldList_names in Hparams.
    apply bind_Ok in H as (results & Hresults & [= <-]). simpl.
    split; [exact Hparams |].
    destruct Results as [List|]; simpl.
    + apply bind_Ok in Hresults as ([results' v'] & Hres & [= <-]).
      by apply generateTypeFromFieldList_names in Hres.
    + by injection Hresults as <-.
  - intros Hall. apply Forall_app in Hall as [Hparams Hresults].
    pose proof (generateTypeFromFieldList_progress Params "arg" Hparams) as Hp.
    apply is_Ok_true in Hp as [[params v] Hp].
    rewrite (bind_Ok_l _ _ _ Hp).
    destruct Results as [List|]; [| reflexivity].
    pose proof (generateTypeFromFieldList_progress List "out" Hresults) as Hr.
    apply is_Ok_true in Hr as [[results v'] Hr].
    rewrite Hr. reflexivity.
Qed.

End FieldList.

(** C3 on [func(a int, int, b string) (bool, err error, int)]: the
    parameters are called a, arg1, b and the results out1, err, out2. *)
Lemma C3_field_names_witness :
  let lower e := generateTypeFromExpr parseInt_decimal (fun _ => OutOfFuel) e "p" ∅ in
  let Params := [ast.mkField ["a"] (ast.Ident "int");
                 ast.mkField [] (ast.Ident "int");
                 ast.mkField ["b"] (ast.Ident "string")] in
  let Results := Some [ast.mkField [] (ast.Ident "bool");
                       ast.mkField ["err"] (ast.Ident "error");
                       ast.mkField [] (ast.Ident "int")] in
  exists ft,
    generateTypeFromFuncType lower Params Results = Ok ft /\
    TypeField_Name <$> FuncType_Inputs ft = ["a"; "arg1"; "b"] /\
    TypeField_Name <$> FuncType_Outputs ft = ["out1"; "err"; "out2"].
Proof.
  intros lower Params Results.
  destruct (C3_field_names lower Params Results) as [Hnames Hprogress].
  assert (Hok : is_Ok (generateTypeFromFuncType lower Params Results) = true).
  { apply Hprogress. repeat constructor. }
  destruct (generateTypeFromFuncType lower Params Results) as [ft| | |] eqn:Hft;
    try discriminate Hok.
  exists ft. split; [reflexivity |]. exact (Hnames ft eq_refl).
Defined.

(* ===================================================================== *)
(** * Structs *)
(* ===================================================================== *)

Section Struct.

Variable lower : ast.Expr -> outcome Type_.

Lemma generateTypeFromStructType_loop_app l1 l2 fields :
  generateTypeFromStructType_loop lower (l1 ++ l2) fields =
    (fields ← generateTypeFromStructType_loop lower l1 fields;
     generateTypeFromStructType_loop lower l2 fields).
Proof.
  revert fields. induction l1 as [|f l1 IH]; intros fields; simpl; [reflexivity |].
  destruct (generateTypeFromStructType_names lower (ast.Field_Type f)
              (ast.Field_Names f) fields); simpl; auto.
Qed.

(** An entry without names leaves the fields as they are, whatever its
    type expression and whatever lowering would make of it. *)
Lemma generateTypeFromStructType_loop_unnamed pre e post fields :
  generateTypeFromStructType_loop lower (pre ++ ast.mkField [] e :: post) fields =
  generateTypeFromStructType_loop lower (pre ++ post) fields.
Proof.
  rewrite !generateTypeFromStructType_loop_app.
  destruct (generateTypeFromStructType_loop lower pre fields); reflexivity.
Qed.

End Struct.

(** C9: in a struct type, a field-list entry without names adds no field to
    the result and its type expression is not lowered: the struct lowers as
    if the entry were not there, whatever the entry's type expression is and
    whatever its lowering would do. *)
Theorem C9_struct_entry_without_names
  (parseInt : string -> option Z) (resolve : list TypeSpec -> outcome (list Type_))
  (pre post : list ast.Field) (e : ast.Expr) (pkg : string) (im : gmap string string) :
  generateTypeFromExpr parseInt resolve
    (ast.StructType (Some (pre ++ ast.mkField [] e :: post))) pkg im =
  generateTypeFromExpr parseInt resolve (ast.StructType (Some (pre ++ post))) pkg im
  /\ forall lower : ast.Expr -> outcome Type_,
       generateTypeFromStructType lower (Some (pre ++ ast.mkField [] e :: post)) =
       generateTypeFromStructType lower (Some (pre ++ post)).
Proof.
  assert (H : forall lower : ast.Expr -> outcome Type_,
             generateTypeFromStructType lower (Some (pre ++ ast.mkField [] e :: post)) =
             generateTypeFromStructType lower (Some (pre ++ post))).
  { intros lower. unfold generateTypeFromStructType.
    by rewrite generateTypeFromStructType_loop_unnamed. }
  split; [| exact H].
  cbn [generateTypeFromExpr]. by rewrite H.
Qed.

(** A struct whose embedded field has a type no case of the lowering accepts
    lowers to the struct of its named fields. *)
Example struct_malformed_embedded_field :
  generateTypeFromExpr parseInt_decimal (fun _ => OutOfFuel)
    (ast.StructType (Some [ast.mkField ["x"] (ast.Ident "int");
                           ast.mkField [] (ast.OtherExpr "(T)")])) "p" ∅ =
  Ok (Type_of_Struct (mkStructType
        [mkTypeField "x" (Type_of_Primitive (mkPrimitiveType PrimitiveKindInt))])).
Proof. reflexivity. Qed.

(* ===================================================================== *)
(** * Interfaces *)
(* ===================================================================== *)

Section Interface.

Variable resolve : list TypeSpec -> outcome (list Type_).
Variable packagePath : string.
Variable importMap : gmap string string.
Variable lower : ast.Expr -> outcome Type_.

Local Abbreviation member :=
  (generateTypeFromInterfaceType_member resolve packagePath importMap lower).
Local Abbreviation loop :=
  (generateTypeFromInterfaceType_loop resolve packagePath importMap lower).

Lemma generateTypeFromInterfaceType_loop_app l1 l2 methods :
  loop (l1 ++ l2) methods = (methods ← loop l1 methods; loop l2 methods).
Proof.
  revert methods. induction l1 as [|f l1 IH]; intros methods; simpl; [reflexivity |].
  destruct (member f methods); simpl; auto.
Qed.

(** The methods of an embedded interface are appended where the member
    stands: after the methods of the members before it, before those of the
    members after it. *)
Lemma embedded_interface_spliced pre names Name post t rest it :
  resolve [mkTypeSpec packagePath Name] = Ok (t :: rest) ->
  Type_InterfaceType t = Some it ->
  loop (pre ++ ast.mkField names (ast.Ident Name) :: post) [] =
    (methods ← loop pre []; loop post (methods ++ InterfaceType_Methods it)).
Proof.
  intros Hres Hit. rewrite generateTypeFromInterfaceType_loop_app.
  destruct (loop pre []) as [methods| | |]; try reflexivity.
  cbn. rewrite Hres. cbn. rewrite Hit. reflexivity.
Qed.

(** An embedded name that resolves to a type that is not an interface:
    the nil [InterfaceType] pointer of the result is dereferenced. *)
Lemma embedded_non_interface_nil_dereference pre names Name post t rest methods :
  loop pre [] = Ok methods ->
  resolve [mkTypeSpec packagePath Name] = Ok (t :: rest) ->
  Type_InterfaceType t = None ->
  generateTypeFromInterfaceType resolve packagePath importMap lower
    (Some (pre ++ ast.mkField names (ast.Ident Name) :: post)) = Panic NilDereference.
Proof.
  intros Hpre Hres Hit. unfold generateTypeFromInterfaceType.
  rewrite generateTypeFromInterfaceType_loop_app, Hpre.
  cbn. rewrite Hres. cbn. rewrite Hit. reflexivity.
Qed.

End Interface.

(** C1 fails on the code: in the package of [Demo], [C] is
    [interface { N }] and [N] is [int].  Resolving [C] resolves [N], whose
    result is not an interface, and reads the methods through its nil
    [InterfaceType] pointer: the call panics, it does not return an error. *)
Theorem C1_embedded_non_interface_panics (fuel : nat) :
  Demo.resolve (S (S fuel)) [mkTypeSpec "p" "N"] =
    Ok [Type_of_Primitive (mkPrimitiveType PrimitiveKindInt)]
  /\ Demo.resolve (S (S fuel)) [mkTypeSpec "p" "C"] = Panic NilDereference.
Proof. split; vm_compute; reflexivity. Qed.

(** The interface B of [Demo] embeds A, declared in another file of the
    package, and declares Close: the methods of A come first, then Close. *)
Example interface_embedding_across_files :
  Demo.resolve 3 [mkTypeSpec "p" "B"] =
    Ok [Type_of_Interface (mkInterfaceType
          [mkInterfaceTypeMethod "M"
             (mkFuncType
                [mkTypeField "arg1" (Type_of_Primitive (mkPrimitiveType PrimitiveKindInt))]
                [] false);
           mkInterfaceTypeMethod "Close"
             (mkFuncType []
                [mkTypeField "out1" (Type_of_Primitive (mkPrimitiveType PrimitiveKindError))]
                false)])].
Proof. vm_compute. reflexivity. Qed.

(* ===================================================================== *)
(** * The order of visit *)
(* ===================================================================== *)

Lemma pick_order_Permutation (pick : list string -> nat) (keys : list string) :
  pick_order pick (length keys) keys ≡ₚ keys.
Proof.
  remember (length keys) as n eqn:Hn. revert keys Hn.
  induction n as [|n IH]; intros keys Hn.
  - destruct keys; [reflexivity | discriminate].
  - cbn [pick_order].
    assert (Hlt : (pick keys mod length keys < length keys)%nat)
      by (apply Nat.mod_upper_bound; lia).
    destruct (lookup_lt_is_Some_2 keys _ Hlt) as [k Hk]. rewrite Hk.
    etransitivity; [| symmetry; apply (delete_Permutation keys _ k Hk)].
    apply Permutation_skip. apply IH.
    rewrite length_delete by eauto. lia.
Qed.

Lemma index_of_lookup x keys : x ∈ keys -> keys !! index_of x keys = Some x.
Proof.
  induction keys as [|y keys IH]; intros Hin; [by apply elem_of_nil in Hin |].
  cbn [index_of]. destruct (String.eqb_spec x y) as [->|Hne]; [reflexivity |].
  apply elem_of_cons in Hin as [->|Hin]; [done |]. by apply IH.
Qed.

Lemma find_first_in (pre : list string) x rest (keys : list string) :
  (forall y, y ∈ pre -> y ∉ keys) -> x ∈ keys ->
  List.find (fun x => bool_decide (x ∈ keys)) (pre ++ x :: rest) = Some x.
Proof.
  intros Hpre Hx. induction pre as [|y pre IH]; cbn [app List.find].
  - by rewrite bool_decide_eq_true_2.
  - rewrite bool_decide_eq_false_2 by (apply Hpre; by left).
    apply IH. intros z Hz. apply Hpre. by right.
Qed.

(** Every order of the keys is the order of some choice: the scheduler
    leaves no order of visit out. *)
Lemma pick_order_complete (keys target : list string) :
  NoDup keys -> target ≡ₚ keys ->
  exists pick, pick_order pick (length keys) keys = target.
Proof.
  intros Hnodup Hperm. exists (pick_for target).
  assert (Hgen : forall todo pre ks,
            target = pre ++ todo -> NoDup ks -> ks ≡ₚ todo ->
            (forall y, y ∈ pre -> y ∉ ks) ->
            pick_order (pick_for target) (length ks) ks = todo).
  { induction todo as [|x todo IH]; intros pre ks Htarget Hks Hp Hpre.
    - apply Permutation_nil_r in Hp as ->. reflexivity.
    - assert (Hx : x ∈ ks) by (rewrite Hp; by left).
      assert (Hlen : length ks = S (length todo)) by (by rewrite Hp).
      rewrite Hlen. cbn [pick_order].
      assert (Hpick : pick_for target ks = index_of x ks).
      { unfold pick_for. rewrite Htarget. by rewrite find_first_in. }
      pose proof (index_of_lookup x ks Hx) as Hlookup.
      rewrite Hpick, Nat.mod_small by (by eapply lookup_lt_Some).
      rewrite Hlookup. f_equal.
      pose proof (delete_Permutation ks _ x Hlookup) as Hdel.
      assert (Hlen' : length (delete (index_of x ks) ks) = length todo).
      { apply Permutation_length in Hdel. cbn in Hdel. lia. }
      rewrite <- Hlen'. apply (IH (pre ++ [x])).
      + by rewrite <- app_assoc.
      + rewrite Hdel in Hks. by apply NoDup_cons in Hks as [_ ?].
      + apply (Permutation_cons_inv (a := x)). by rewrite <- Hdel.
      + intros y Hy Hin. rewrite Hdel in Hks. apply NoDup_cons in Hks as [Hnot _].
        apply elem_of_app in Hy as [Hy|Hy].
        * apply (Hpre y Hy). rewrite Hdel. by right.
        * apply list_elem_of_singleton in Hy as ->. done. }
  apply (Hgen target [] keys); [reflexivity | done | by symmetry |].
  intros y Hy. by apply elem_of_nil in Hy.
Qed.

Lemma pick_order_singleton (pick : list string -> nat) (k : string) :
  pick_order pick 1 [k] = [k].
Proof. cbn [pick_order length]. rewrite Nat.mod_1_r. reflexivity. Qed.

(* ===================================================================== *)
(** * Grouping the requests *)
(* ===================================================================== *)

Lemma groupTypeSpecByPackage_foldl typeSpecs (result : gmap string (list string)) p :
  foldl (fun result spec =>
           <[TypeSpec_PackagePath spec :=
               default [] (result !! TypeSpec_PackagePath spec) ++ [TypeSpec_Name spec]]>
             result) result typeSpecs !! p =
    match namesIn p typeSpecs with
    | [] => result !! p
    | names => Some (default [] (result !! p) ++ names)
    end.
Proof.
  revert result. induction typeSpecs as [|[q n] typeSpecs IH]; intros result;
    [reflexivity |].
  cbn [foldl]. rewrite IH. unfold namesIn. cbn [TypeSpec_PackagePath TypeSpec_Name].
  destruct (decide (q = p)) as [->|Hne].
  - rewrite filter_cons_True by done. rewrite lookup_insert_eq. cbn.
    destruct (TypeSpec_Name <$> filter _ typeSpecs) as [|m ms].
    + reflexivity.
    + by rewrite <- app_assoc.
  - rewrite filter_cons_False by done. rewrite lookup_insert_ne by done.
    reflexivity.
Qed.

Lemma groupTypeSpecByPackage_lookup typeSpecs p :
  groupTypeSpecByPackage typeSpecs !! p =
    match namesIn p typeSpecs with
    | [] => None
    | names => Some names
    end.
Proof.
  unfold groupTypeSpecByPackage. rewrite groupTypeSpecByPackage_foldl.
  rewrite lookup_empty. reflexivity.
Qed.

Lemma elem_of_namesIn p n typeSpecs :
  n ∈ namesIn p typeSpecs <-> mkTypeSpec p n ∈ typeSpecs.
Proof.
  unfold namesIn. rewrite list_elem_of_fmap. split.
  - intros ([q m] & -> & Hin). apply list_elem_of_filter in Hin as [Hq Hin].
    cbn in *. by subst.
  - intros Hin. exists (mkTypeSpec p n). split; [reflexivity |].
    apply list_elem_of_filter. split; [reflexivity | done].
Qed.

Lemma groupTypeSpecByPackage_default typeSpecs p :
  default [] (groupTypeSpecByPackage typeSpecs !! p) = namesIn p typeSpecs.
Proof.
  rewrite groupTypeSpecByPackage_lookup. by destruct (namesIn p typeSpecs).
Qed.

Lemma groupTypeSpecByPackage_dom typeSpecs p n :
  mkTypeSpec p n ∈ typeSpecs -> p ∈ dom (groupTypeSpecByPackage typeSpecs).
Proof.
  intros Hin. apply elem_of_dom. rewrite groupTypeSpecByPackage_lookup.
  apply elem_of_namesIn in Hin. destruct (namesIn p typeSpecs); [| eauto].
  by apply elem_of_nil in Hin.
Qed.

(* ===================================================================== *)
(** * The scan of a package *)
(* ===================================================================== *)

Section Scan.

Variable parseInt : string -> option Z.
Variable os_Open : string -> string + string.
Variable parser_ParseFile : string -> string -> string + ast.File.
Variable choose : ticket -> list string -> nat.
Variable resolve : list TypeSpec -> outcome (list Type_).

Local Abbreviation lower := (generateTypeFromExpr parseInt resolve).
Local Abbreviation parseAst := (parseAstFile os_Open parser_ParseFile).
Local Abbreviation scanN := (scanNames parseInt resolve).
Local Abbreviation scanS :=
  (scanSources parseInt os_Open parser_ParseFile choose resolve).

Lemma range_keys_Permutation t keys : range_keys choose t keys ≡ₚ keys.
Proof. apply pick_order_Permutation. Qed.

Lemma range_keys_singleton t k : range_keys choose t [k] = [k].
Proof. apply pick_order_singleton. Qed.

Lemma elem_of_range_keys t (R : gset string) n :
  n ∈ range_keys choose t (elements R) <-> n ∈ R.
Proof. rewrite range_keys_Permutation. apply elem_of_elements. Qed.


Lemma elem_of_without (R : gset string) n name :
  n <> name -> (n ∈ R ∖ {[name]} <-> n ∈ R).
Proof.
  intros Hne. rewrite elem_of_difference, elem_of_singleton. tauto.
Qed.

Lemma not_elem_of_without (R : gset string) n : n ∉ R ∖ {[n]}.
Proof.
  rewrite elem_of_difference, elem_of_singleton. tauto.
Qed.

(** What a successful scan of the names [todo] in one file does to a name:
    a name that is declared in the file is lowered, stored and removed from
    the working set; any other name is left as it was. *)
Lemma scanNames_Ok fa p im todo R M R' M' :
  scanN fa p im todo R M = Ok (R', M') ->
  forall n,
    (n ∉ todo -> M' !! n = M !! n /\ (n ∈ R' <-> n ∈ R)) /\
    (n ∈ todo ->
       match getDeclarationByName fa n with
       | Some e => exists t, lower e p im = Ok t /\ M' !! n = Some t /\ n ∉ R'
       | None => M' !! n = M !! n /\ (n ∈ R' <-> n ∈ R)
       end).
Proof.
  revert R M. induction todo as [|name rest IH]; intros R M H n.
  - injection H as <- <-. split; [done |]. intros Hin. by apply elem_of_nil in Hin.
  - cbn [scanNames] in H.
    destruct (getDeclarationByName fa name) as [e|] eqn:Hdecl.
    + apply bind_Ok in H as (t & Hlow & H).
      destruct (IH _ _ H n) as [IH1 IH2].
      assert (Hhere : n = name -> n ∉ rest ->
                exists t, lower e p im = Ok t /\ M' !! n = Some t /\ n ∉ R').
      { intros -> Hrest. destruct (IH1 Hrest) as [HM HR].
        exists t. rewrite HM, lookup_insert_eq. split; [done |]. split; [done |].
        rewrite HR. apply not_elem_of_without. }
      split.
      * intros Hnot. apply not_elem_of_cons in Hnot as [Hne Hrest].
        destruct (IH1 Hrest) as [HM HR].
        rewrite HM, lookup_insert_ne by done. split; [done |].
        rewrite HR. by apply elem_of_without.
      * intros Hin. destruct (decide (n ∈ rest)) as [Hrest|Hrest].
        -- specialize (IH2 Hrest).
           destruct (getDeclarationByName fa n) as [e'|] eqn:Hn; [exact IH2 |].
           assert (n <> name) by congruence.
           destruct IH2 as [HM HR]. rewrite HM, lookup_insert_ne by done.
           split; [done |]. rewrite HR. by apply elem_of_without.
        -- apply elem_of_cons in Hin as [->|Hin]; [| done].
           rewrite Hdecl. by apply Hhere.
    + destruct (IH _ _ H n) as [IH1 IH2]. split.
      * intros Hnot. apply not_elem_of_cons in Hnot as [Hne Hrest]. by apply IH1.
      * intros Hin. destruct (decide (n ∈ rest)) as [Hrest|Hrest]; [by apply IH2 |].
        apply elem_of_cons in Hin as [->|Hin]; [| done].
        rewrite Hdecl. by apply IH1.
Qed.

Lemma scanSources_cons p source rest k R M :
  scanS p (source :: rest) k R M =
    if bool_decide (size R = 0%nat) then Ok (R, M)
    else
      (fileAst ← parseAst source;
       '(R, M) ← scanN fileAst p (generateImportMap p fileAst)
                   (range_keys choose (RangeNames p k) (elements R)) R M;
       scanS p rest (S k) R M).
Proof. reflexivity. Qed.

(** The scan stops at once on an empty working set. *)
Lemma scanSources_empty p srcs k M : scanS p srcs k ∅ M = Ok (∅, M).
Proof.
  destruct srcs as [|source rest]; [reflexivity |].
  rewrite scanSources_cons, bool_decide_eq_true_2; [reflexivity |].
  apply size_empty.
Qed.

(** A name outside the working set is not touched. *)
Lemma scanSources_stable p srcs k R M R' M' n :
  scanS p srcs k R M = Ok (R', M') ->
  n ∉ R -> (n ∉ R') /\ M' !! n = M !! n.
Proof.
  revert k R M. induction srcs as [|source rest IH]; intros k R M H Hn.
  - by injection H as <- <-.
  - rewrite scanSources_cons in H. case_bool_decide as Hsize.
    + by injection H as <- <-.
    + apply bind_Ok in H as (fa & Hparse & H).
      apply bind_Ok in H as ([R1 M1] & Hscan & H).
      destruct (scanNames_Ok _ _ _ _ _ _ _ _ Hscan n) as [Hout _].
      destruct Hout as [HM HR]; [by rewrite elem_of_range_keys |].
      destruct (IH _ _ _ H) as [HR' HM']; [by rewrite HR |].
      split; [done | congruence].
Qed.

(** The names a completed scan leaves in the working set were in it from
    the start, and every file was read and declares none of them. *)
Lemma scanSources_remaining p srcs k R M R' M' m :
  scanS p srcs k R M = Ok (R', M') ->
  m ∈ R' ->
  m ∈ R /\
  Forall (fun source => exists fa, parseAst source = Ok fa /\
                                   getDeclarationByName fa m = None) srcs.
Proof.
  revert k R M. induction srcs as [|source rest IH]; intros k R M H Hm.
  - injection H as <- <-. split; [done | constructor].
  - rewrite scanSources_cons in H. case_bool_decide as Hsize.
    + injection H as <- <-. apply size_empty_inv in Hsize.
      apply Hsize in Hm. by apply not_elem_of_empty in Hm.
    + apply bind_Ok in H as (fa & Hparse & H).
      apply bind_Ok in H as ([R1 M1] & Hscan & H).
      destruct (IH _ _ _ H Hm) as [Hm1 Hrest].
      destruct (scanNames_Ok _ _ _ _ _ _ _ _ Hscan m) as [Hout Hin].
      destruct (decide (m ∈ R)) as [HmR|HmR].
      * split; [done |]. constructor; [| done].
        exists fa. split; [done |].
        specialize (Hin (proj2 (elem_of_range_keys _ _ _) HmR)).
        destruct (getDeclarationByName fa m); [| done].
        destruct Hin as (t & _ & _ & Hnot). done.
      * destruct Hout as [_ HR]; [by rewrite elem_of_range_keys |].
        by apply HR in Hm1.
Qed.

(** A name of the working set that no file declares stays in it. *)
Lemma scanSources_keeps p srcs k R M R' M' n :
  (forall source fa, source ∈ srcs -> parseAst source = Ok fa ->
                     getDeclarationByName fa n = None) ->
  scanS p srcs k R M = Ok (R', M') ->
  n ∈ R -> n ∈ R'.
Proof.
  revert k R M. induction srcs as [|source rest IH]; intros k R M Hmiss H Hn.
  - by injection H as <- <-.
  - rewrite scanSources_cons in H. case_bool_decide as Hsize.
    + by injection H as <- <-.
    + apply bind_Ok in H as (fa & Hparse & H).
      apply bind_Ok in H as ([R1 M1] & Hscan & H).
      apply (IH _ _ _ (fun s f Hs => Hmiss s f (list_elem_of_further _ _ _ Hs)) H).
      destruct (scanNames_Ok _ _ _ _ _ _ _ _ Hscan n) as [_ Hin].
      specialize (Hin (proj2 (elem_of_range_keys _ _ _) Hn)).
      rewrite (Hmiss source fa (list_elem_of_here _ _) Hparse) in Hin.
      by apply Hin.
Qed.

(** A name that a successful scan removes from the working set has its
    type stored, and the scan for that name alone stores the same type. *)
Lemma scanSources_single p srcs k R M R' M' n :
  scanS p srcs k R M = Ok (R', M') ->
  n ∈ R -> n ∉ R' ->
  exists t, M' !! n = Some t /\
            forall k0 M0, scanS p srcs k0 {[n]} M0 = Ok (∅, <[n := t]> M0).
Proof.
  revert k R M. induction srcs as [|source rest IH]; intros k R M H Hn Hn'.
  - injection H as <- <-. done.
  - rewrite scanSources_cons in H. case_bool_decide as Hsize.
    + injection H as <- <-. done.
    + apply bind_Ok in H as (fa & Hparse & H).
      apply bind_Ok in H as ([R1 M1] & Hscan & H).
      destruct (scanNames_Ok _ _ _ _ _ _ _ _ Hscan n) as [_ Hin].
      specialize (Hin (proj2 (elem_of_range_keys _ _ _) Hn)).
      assert (Hone : forall k0 M0,
                scanS p (source :: rest) k0 {[n]} M0 =
                '(R, M) ← scanN fa p (generateImportMap p fa) [n] {[n]} M0;
                scanS p rest (S k0) R M).
      { intros k0 M0. rewrite scanSources_cons, bool_decide_eq_false_2.
        - rewrite Hparse, elements_singleton, range_keys_singleton. reflexivity.
        - rewrite size_singleton. lia. }
      destruct (getDeclarationByName fa n) as [e|] eqn:Hdecl.
      * destruct Hin as (t & Hlow & HM1 & HR1).
        destruct (scanSources_stable _ _ _ _ _ _ _ n H HR1) as [_ HM'].
        exists t. split; [congruence |].
        intros k0 M0. rewrite Hone. cbn [scanNames]. rewrite Hdecl, Hlow.
        cbn. rewrite difference_diag_L. apply scanSources_empty.
      * destruct Hin as [HM1 HR1].
        destruct (IH _ _ _ H (proj2 HR1 Hn) Hn') as (t & HM' & Hsingle).
        exists t. split; [done |].
        intros k0 M0. rewrite Hone. cbn [scanNames]. rewrite Hdecl.
        cbn. apply Hsingle.
Qed.

End Scan.

(* ===================================================================== *)
(** * One package, then all of them *)
(* ===================================================================== *)

Section Package.

Variable parseInt : string -> option Z.
Variable GetPackageSourceFiles : string -> string + list string.
Variable os_Open : string -> string + string.
Variable parser_ParseFile : string -> string -> string + ast.File.
Variable choose : ticket -> list string -> nat.
Variable resolve : list TypeSpec -> outcome (list Type_).

Local Abbreviation parseAst := (parseAstFile os_Open parser_ParseFile).
Local Abbreviation scanS :=
  (scanSources parseInt os_Open parser_ParseFile choose resolve).
Local Abbreviation inPackage :=
  (generateTypesInSinglePackage parseInt GetPackageSourceFiles os_Open
     parser_ParseFile choose resolve).
Local Abbreviation packages :=
  (resolvePackages parseInt GetPackageSourceFiles os_Open parser_ParseFile
     choose resolve).
Local Abbreviation body :=
  (GenerateTypesFromSpecs_body parseInt GetPackageSourceFiles os_Open
     parser_ParseFile choose resolve).

Lemma range_keys_nil_inv t (R : gset string) :
  range_keys choose t (elements R) = [] -> R = ∅.
Proof.
  intros H. apply leibniz_equiv, elements_empty_inv.
  apply Permutation_nil_r. rewrite <- H. symmetry. apply range_keys_Permutation.
Qed.

(** A package is resolved when the scan ends on an empty working set; the
    results are then read from the map the scan filled. *)
Lemma generateTypesInSinglePackage_Ok p names types :
  inPackage p names = Ok types ->
  exists srcs M,
    GetPackageSourceFiles p = inr srcs /\
    scanS p srcs 0 (list_to_set names) ∅ = Ok (∅, M) /\
    types = (fun name => default Type_zero (M !! name)) <$> names.
Proof.
  unfold generateTypesInSinglePackage.
  destruct (GetPackageSourceFiles p) as [cause|srcs]; [discriminate |].
  intros H. apply bind_Ok in H as ([R M] & Hscan & H).
  exists srcs, M. split; [reflexivity |].
  case_bool_decide as Hsize.
  - destruct (range_keys choose (RangeMissing p) (elements R)) eqn:Hkeys;
      [| discriminate].
    apply range_keys_nil_inv in Hkeys as ->. injection H as <-. done.
  - assert (R = ∅) as ->.
    { apply leibniz_equiv, size_empty_inv. by destruct (decide (size R = 0%nat)). }
    injection H as <-. done.
Qed.

(** A scan that ends on a working set that is not empty: the error names
    one of the names left, which no file of the package declares. *)
Lemma generateTypesInSinglePackage_missing p names srcs R M :
  GetPackageSourceFiles p = inr srcs ->
  scanS p srcs 0 (list_to_set names) ∅ = Ok (R, M) ->
  R <> ∅ ->
  exists m,
    inPackage p names = Err (CannotFindDefinition m) /\
    m ∈ R /\ m ∈ names /\
    Forall (fun source => exists fa, parseAst source = Ok fa /\
                                     getDeclarationByName fa m = None) srcs.
Proof.
  intros Hsrcs Hscan HR. unfold generateTypesInSinglePackage.
  rewrite Hsrcs, Hscan. cbn.
  rewrite bool_decide_eq_true_2
    by (apply size_non_empty_iff; intros Heq; by apply HR, leibniz_equiv).
  destruct (range_keys choose (RangeMissing p) (elements R)) as [|m ms] eqn:Hkeys.
  - by apply range_keys_nil_inv in Hkeys.
  - assert (Hm : m ∈ R).
    { apply (elem_of_range_keys choose (RangeMissing p)). rewrite Hkeys. by left. }
    exists m. split; [reflexivity |]. split; [done |].
    edestruct scanSources_remaining as [Hin Hall]; [exact Hscan | exact Hm |].
    split; [by apply elem_of_list_to_set in Hin | done].
Qed.

(** A requested name that no file of the package declares: the package is
    not resolved. *)
Lemma generateTypesInSinglePackage_never_Ok p names n :
  n ∈ names ->
  (forall srcs source fa,
      GetPackageSourceFiles p = inr srcs -> source ∈ srcs ->
      parseAst source = Ok fa -> getDeclarationByName fa n = None) ->
  is_Ok (inPackage p names) = false.
Proof.
  intros Hn Hmiss. destruct (inPackage p names) as [types| | |] eqn:H; try done.
  apply generateTypesInSinglePackage_Ok in H as (srcs & M & Hsrcs & Hscan & _).
  assert (Hin : n ∈ (∅ : gset string)).
  { eapply scanSources_keeps; [| exact Hscan | by apply elem_of_list_to_set].
    intros source fa. by apply Hmiss. }
  by apply not_elem_of_empty in Hin.
Qed.

(** The request for one name, from the scan for that name alone. *)
Lemma generateTypesInSinglePackage_single p n srcs M t :
  GetPackageSourceFiles p = inr srcs ->
  scanS p srcs 0 {[n]} ∅ = Ok (∅, M) ->
  M !! n = Some t ->
  inPackage p [n] = Ok [t].
Proof.
  intros Hsrcs Hscan HM. unfold generateTypesInSinglePackage.
  rewrite Hsrcs, list_to_set_singleton_L, Hscan. cbn.
  rewrite bool_decide_eq_false_2 by (rewrite size_empty; lia).
  by rewrite HM.
Qed.

(** What [storeTypes] leaves in the map. *)
Lemma storeTypes_Ok p specs types i (M M' : gmap TypeSpec Type_) :
  storeTypes p specs types i M = Ok M' ->
  (forall spec t, M' !! spec = Some t ->
     M !! spec = Some t \/
     exists j n, types !! j = Some t /\ specs !! (i + j)%nat = Some n /\
                 spec = mkTypeSpec p n) /\
  (forall spec, is_Some (M !! spec) -> is_Some (M' !! spec)) /\
  (forall j n, (j < length types)%nat -> specs !! (i + j)%nat = Some n ->
               is_Some (M' !! mkTypeSpec p n)).
Proof.
  revert i M. induction types as [|typ rest IH]; intros i M H.
  - injection H as <-. split; [by left |]. split; [done |].
    intros j n Hj. simpl in Hj. lia.
  - cbn [storeTypes] in H. apply bind_Ok in H as (name & Hname & H).
    apply index_Ok in Hname.
    destruct (IH _ _ H) as (IH1 & IH2 & IH3). split; [| split].
    + intros spec t Hspec. destruct (IH1 _ _ Hspec) as [HM|(j & n & Hj & Hn & ->)].
      * destruct (decide (mkTypeSpec p name = spec)) as [<-|Hne].
        -- rewrite lookup_insert_eq in HM. injection HM as ->.
           right. exists 0%nat, name. rewrite Nat.add_0_r. done.
        -- rewrite lookup_insert_ne in HM by done. by left.
      * right. exists (S j), n. split; [done |].
        split; [| done]. by rewrite Nat.add_succ_r.
    + intros spec Hspec. apply IH2.
      apply lookup_insert_is_Some'. by right.
    + intros j n Hj Hn. destruct j as [|j].
      * rewrite Nat.add_0_r, Hname in Hn. injection Hn as <-.
        apply IH2. rewrite lookup_insert_eq. eauto.
      * apply (IH3 j); [simpl in Hj; lia |]. by rewrite Nat.add_succ_r in Hn.
Qed.

(** What a successful loop over the packages [todo] leaves in the map:
    every new entry is a result of its package, the old entries stay, and
    every name requested in a package of [todo] has an entry. *)
Lemma resolvePackages_Ok (G : gmap string (list string)) todo
  (M M' : gmap TypeSpec Type_) :
  packages G todo M = Ok M' ->
  (forall spec t, M' !! spec = Some t ->
     M !! spec = Some t \/
     exists types j,
       inPackage (TypeSpec_PackagePath spec)
                 (default [] (G !! TypeSpec_PackagePath spec)) = Ok types /\
       types !! j = Some t /\
       default [] (G !! TypeSpec_PackagePath spec) !! j = Some (TypeSpec_Name spec)) /\
  (forall spec, is_Some (M !! spec) -> is_Some (M' !! spec)) /\
  (forall p n, p ∈ todo -> n ∈ default [] (G !! p) ->
               is_Some (M' !! mkTypeSpec p n)).
Proof.
  revert M. induction todo as [|p rest IH]; intros M H.
  - injection H as <-. split; [by left |]. split; [done |].
    intros p n Hp. by apply elem_of_nil in Hp.
  - cbn [resolvePackages] in H.
    apply bind_Ok in H as (types & Htypes & H).
    apply bind_Ok in H as (M1 & Hstore & H).
    destruct (IH _ H) as (IH1 & IH2 & IH3).
    destruct (storeTypes_Ok _ _ _ _ _ _ Hstore) as (S1 & S2 & S3).
    split; [| split].
    + intros spec t Hspec. destruct (IH1 _ _ Hspec) as [HM1|?]; [| by right].
      destruct (S1 _ _ HM1) as [HM|(j & n & Hj & Hn & ->)]; [by left |].
      right. exists types, j. done.
    + intros spec Hspec. by apply IH2, S2.
    + intros q n Hq Hn. apply elem_of_cons in Hq as [->|Hq]; [| by apply IH3].
      apply IH2. apply list_elem_of_lookup in Hn as [j Hj].
      apply (S3 j); [| done].
      apply generateTypesInSinglePackage_Ok in Htypes as (_ & M0 & _ & _ & ->).
      rewrite length_fmap. by eapply lookup_lt_Some.
Qed.

(** The loop over the packages fails as soon as one of them does. *)
Lemma resolvePackages_not_Ok (G : gmap string (list string)) todo
  (M : gmap TypeSpec Type_) p :
  p ∈ todo ->
  is_Ok (inPackage p (default [] (G !! p))) = false ->
  is_Ok (packages G todo M) = false.
Proof.
  revert M. induction todo as [|q rest IH]; intros M Hp Hfail.
  - by apply elem_of_nil in Hp.
  - cbn [resolvePackages].
    destruct (decide (q = p)) as [->|Hne].
    + by apply bind_not_Ok.
    + apply elem_of_cons in Hp as [->|Hp]; [done |].
      destruct (inPackage q (default [] (G !! q))) as [types| | |]; try done.
      cbn. destruct (storeTypes q _ types 0 M) as [M1| | |]; try done.
      cbn. by apply IH.
Qed.

(** The loop stops at the first package that fails, with its error. *)
Lemma resolvePackages_first_error (G : gmap string (list string)) pre p post
  (M M1 : gmap TypeSpec Type_) e :
  packages G pre M = Ok M1 ->
  inPackage p (default [] (G !! p)) = Err e ->
  packages G (pre ++ p :: post) M = Err e.
Proof.
  revert M. induction pre as [|q pre IH]; intros M Hpre Herr.
  - cbn [app resolvePackages]. by rewrite Herr.
  - cbn [app resolvePackages] in *.
    apply bind_Ok in Hpre as (types & Htypes & Hpre).
    apply bind_Ok in Hpre as (M0 & Hstore & Hpre).
    rewrite Htypes. cbn. rewrite Hstore. cbn. by apply IH.
Qed.

(** The results of a successful call: one per request, each read from the
    result of its package at an index where the package's names have the
    name of the request. *)
Lemma GenerateTypesFromSpecs_body_Ok typeSpecs results :
  body typeSpecs = Ok results ->
  length results = length typeSpecs /\
  forall i p n, typeSpecs !! i = Some (mkTypeSpec p n) ->
    exists t types j,
      results !! i = Some t /\
      inPackage p (namesIn p typeSpecs) = Ok types /\
      types !! j = Some t /\
      namesIn p typeSpecs !! j = Some n.
Proof.
  unfold GenerateTypesFromSpecs_body. intros H.
  apply bind_Ok in H as (M & Hloop & H). injection H as <-.
  split; [by rewrite length_fmap |].
  intros i p n Hi. rewrite list_lookup_fmap, Hi. cbn.
  destruct (resolvePackages_Ok _ _ _ _ Hloop) as (H1 & _ & H3).
  assert (Hin : mkTypeSpec p n ∈ typeSpecs) by (by eapply list_elem_of_lookup_2).
  destruct (H3 p n) as [t Ht].
  { apply elem_of_range_keys. by eapply groupTypeSpecByPackage_dom. }
  { rewrite groupTypeSpecByPackage_default. by apply elem_of_namesIn. }
  rewrite Ht. cbn.
  destruct (H1 _ _ Ht) as [Hempty|(types & j & Htypes & Hj & Hn)].
  - by rewrite lookup_empty in Hempty.
  - cbn in Htypes, Hn. rewrite groupTypeSpecByPackage_default in Htypes, Hn.
    exists t, types, j. done.
Qed.

(** The call fails as soon as one of its packages does. *)
Lemma GenerateTypesFromSpecs_body_not_Ok typeSpecs p n :
  mkTypeSpec p n ∈ typeSpecs ->
  is_Ok (inPackage p (namesIn p typeSpecs)) = false ->
  is_Ok (body typeSpecs) = false.
Proof.
  intros Hin Hfail. unfold GenerateTypesFromSpecs_body.
  apply bind_not_Ok. apply (resolvePackages_not_Ok _ _ _ p).
  - apply elem_of_range_keys. by eapply groupTypeSpecByPackage_dom.
  - by rewrite groupTypeSpecByPackage_default.
Qed.

(** The call for a single request. *)
Lemma GenerateTypesFromSpecs_body_single p n :
  body [mkTypeSpec p n] =
    (types ← inPackage p [n];
     M ← storeTypes p [n] types 0 ∅;
     Ok [default Type_zero (M !! mkTypeSpec p n)]).
Proof.
  unfold GenerateTypesFromSpecs_body, groupTypeSpecByPackage.
  cbn [foldl TypeSpec_PackagePath TypeSpec_Name].
  rewrite lookup_empty. cbn [default from_option app].
  rewrite dom_insert_L, dom_empty_L, (right_id_L ∅ (∪)).
  rewrite elements_singleton, range_keys_singleton.
  cbn [resolvePackages]. rewrite lookup_insert_eq. cbn [default from_option id].
  destruct (inPackage p [n]) as [types| | |]; try reflexivity.
  cbn. destruct (storeTypes p [n] types 0 ∅); reflexivity.
Qed.

Lemma GenerateTypesFromSpecs_body_single_Ok p n t :
  inPackage p [n] = Ok [t] -> body [mkTypeSpec p n] = Ok [t].
Proof.
  intros H. rewrite GenerateTypesFromSpecs_body_single, H. cbn.
  by rewrite lookup_insert_eq.
Qed.

(** Every result of a successful batch is the result of its request alone:
    the declaration is found in the same file and lowered the same way. *)
Lemma GenerateTypesFromSpecs_body_each typeSpecs results :
  body typeSpecs = Ok results ->
  forall i spec, typeSpecs !! i = Some spec ->
    exists t, results !! i = Some t /\ body [spec] = Ok [t].
Proof.
  intros H i [p n] Hi.
  destruct (GenerateTypesFromSpecs_body_Ok _ _ H) as [_ Heach].
  destruct (Heach i p n Hi) as (t & types & j & Hres & Htypes & Hj & Hn).
  exists t. split; [done |].
  apply GenerateTypesFromSpecs_body_single_Ok.
  apply generateTypesInSinglePackage_Ok in Htypes as (srcs & M & Hsrcs & Hscan & ->).
  rewrite list_lookup_fmap, Hn in Hj. cbn in Hj. injection Hj as Hj.
  edestruct (scanSources_single) with (n := n) as (t' & Ht' & Hsingle);
    [exact Hscan | | apply not_elem_of_empty |].
  { apply elem_of_list_to_set. by eapply list_elem_of_lookup_2. }
  rewrite Ht' in Hj. cbn in Hj. subst t'.
  eapply generateTypesInSinglePackage_single; [exact Hsrcs | apply Hsingle |].
  apply lookup_insert_eq.
Qed.

End Package.

(* ===================================================================== *)
(** * The entry point *)
(* ===================================================================== *)

Section Resolve.

Variable parseInt : string -> option Z.
Variable GetPackageSourceFiles : string -> string + list string.
Variable os_Open : string -> string + string.
Variable parser_ParseFile : string -> string -> string + ast.File.
Variable choose : ticket -> list string -> nat.

Local Abbreviation parseAst := (parseAstFile os_Open parser_ParseFile).
Local Abbreviation GenerateTypes :=
  (GenerateTypesFromSpecs parseInt GetPackageSourceFiles os_Open parser_ParseFile
     choose).
Local Abbreviation scanS fuel :=
  (scanSources parseInt os_Open parser_ParseFile choose (GenerateTypes fuel)).
Local Abbreviation inPackage fuel :=
  (generateTypesInSinglePackage parseInt GetPackageSourceFiles os_Open
     parser_ParseFile choose (GenerateTypes fuel)).

Lemma GenerateTypesFromSpecs_S fuel typeSpecs :
  GenerateTypes (S fuel) typeSpecs =
    GenerateTypesFromSpecs_body parseInt GetPackageSourceFiles os_Open
      parser_ParseFile choose (GenerateTypes fuel) typeSpecs.
Proof. reflexivity. Qed.


Lemma groupTypeSpecByPackage_dom_one typeSpecs p n :
  mkTypeSpec p n ∈ typeSpecs ->
  (forall spec, spec ∈ typeSpecs -> TypeSpec_PackagePath spec = p) ->
  dom (groupTypeSpecByPackage typeSpecs) = ({[p]} : gset string).
Proof.
  intros Hin Hall. apply set_eq. intros q.
  rewrite elem_of_singleton, elem_of_dom, groupTypeSpecByPackage_lookup. split.
  - intros Hsome. destruct (namesIn q typeSpecs) as [|m ms] eqn:Hq.
    + by destruct Hsome.
    + assert (Hm : m ∈ namesIn q typeSpecs) by (rewrite Hq; by left).
      apply elem_of_namesIn in Hm. by apply Hall in Hm.
  - intros ->. apply elem_of_namesIn in Hin.
    destruct (namesIn p typeSpecs); [by apply elem_of_nil in Hin | eauto].
Qed.

(** C5: when the scan of a package has read all its files and names are
    left in the working set, the package fails with the error "cannot find
    definition" of one of the names left, a requested name that no file of
    the package declares.  The call then returns no result at all; its
    error is that error when the packages visited before this one were
    resolved, and in particular when this package is the only one
    requested. *)
Theorem C5_declaration_not_found (fuel : nat) (typeSpecs : list TypeSpec)
  (p n : string) (srcs : list string) (R : gset string) (M : gmap string Type_) :
  mkTypeSpec p n ∈ typeSpecs ->
  GetPackageSourceFiles p = inr srcs ->
  scanS fuel p srcs 0 (list_to_set (namesIn p typeSpecs)) ∅ = Ok (R, M) ->
  R <> ∅ ->
  exists m,
    inPackage fuel p (namesIn p typeSpecs) = Err (CannotFindDefinition m)
    /\ mkTypeSpec p m ∈ typeSpecs
    /\ Forall (fun source => exists fa, parseAst source = Ok fa /\
                                        getDeclarationByName fa m = None) srcs
    /\ is_Ok (GenerateTypes (S fuel) typeSpecs) = false
    /\ (forall pre post M1,
          range_keys choose RangePackages
            (elements (dom (groupTypeSpecByPackage typeSpecs))) = pre ++ p :: post ->
          resolvePackages parseInt GetPackageSourceFiles os_Open parser_ParseFile
            choose (GenerateTypes fuel) (groupTypeSpecByPackage typeSpecs) pre ∅
            = Ok M1 ->
          GenerateTypes (S fuel) typeSpecs = Err (CannotFindDefinition m))
    /\ ((forall spec, spec ∈ typeSpecs -> TypeSpec_PackagePath spec = p) ->
        GenerateTypes (S fuel) typeSpecs = Err (CannotFindDefinition m)).
Proof.
  intros Hin Hsrcs Hscan HR.
  destruct (generateTypesInSinglePackage_missing _ _ _ _ _ _ _ _ _ _ _
              Hsrcs Hscan HR) as (m & Herr & _ & Hm & Hall).
  assert (Hfirst : forall pre post M1,
            range_keys choose RangePackages
              (elements (dom (groupTypeSpecByPackage typeSpecs))) = pre ++ p :: post ->
            resolvePackages parseInt GetPackageSourceFiles os_Open parser_ParseFile
              choose (GenerateTypes fuel) (groupTypeSpecByPackage typeSpecs) pre ∅
              = Ok M1 ->
            GenerateTypes (S fuel) typeSpecs = Err (CannotFindDefinition m)).
  { intros pre post M1 Horder Hpre. rewrite GenerateTypesFromSpecs_S.
    unfold GenerateTypesFromSpecs_body. rewrite Horder.
    erewrite resolvePackages_first_error; [reflexivity | exact Hpre |].
    by rewrite groupTypeSpecByPackage_default. }
  exists m. split; [exact Herr |]. split; [by apply elem_of_namesIn |].
  split; [exact Hall |]. split; [| split; [exact Hfirst |]].
  - rewrite GenerateTypesFromSpecs_S.
    eapply GenerateTypesFromSpecs_body_not_Ok; [exact Hin |].
    by rewrite Herr.
  - intros Hone. apply (Hfirst [] [] ∅); [| reflexivity].
    rewrite (groupTypeSpecByPackage_dom_one _ _ _ Hin Hone).
    by rewrite elements_singleton, range_keys_singleton.
Qed.

(** A requested name that no file of its package declares: the call
    returns no result, whatever the other requests are. *)
Lemma GenerateTypesFromSpecs_missing_name fuel typeSpecs p n :
  mkTypeSpec p n ∈ typeSpecs ->
  (forall srcs source fa,
      GetPackageSourceFiles p = inr srcs -> source ∈ srcs ->
      parseAst source = Ok fa -> getDeclarationByName fa n = None) ->
  is_Ok (GenerateTypes fuel typeSpecs) = false.
Proof.
  intros Hin Hmiss. destruct fuel as [|fuel]; [reflexivity |].
  rewrite GenerateTypesFromSpecs_S.
  eapply GenerateTypesFromSpecs_body_not_Ok; [exact Hin |].
  eapply generateTypesInSinglePackage_never_Ok; [| exact Hmiss].
  by apply elem_of_namesIn.
Qed.



End Resolve.

(* ===================================================================== *)
(** * Exactly one variant *)
(* ===================================================================== *)

Example oneVariant_zero : oneVariant Type_zero = false.
Proof. reflexivity. Qed.

Lemma oneVariant_embeddable t : oneVariant t = true -> embeddable t = true.
Proof.
  destruct t as [pr q ptr sl ar mp ch fn st [[methods]|]]; [| reflexivity].
  cbn [oneVariant embeddable Type_InterfaceType InterfaceType_Methods].
  rewrite !andb_true_iff. tauto.
Qed.

(** Induction on expressions, through the field lists. *)
Section ExprInduction.

Variable P : ast.Expr -> Prop.

Hypothesis HIdent : forall Name, P (ast.Ident Name).
Hypothesis HSelectorExpr : forall X Sel, P X -> P (ast.SelectorExpr X Sel).
Hypothesis HStarExpr : forall X, P X -> P (ast.StarExpr X).
Hypothesis HArrayType : forall Len Elt,
    onOption P Len -> P Elt -> P (ast.ArrayType Len Elt).
Hypothesis HFuncType : forall Params Results,
    onFields P Params -> onOption (onFields P) Results -> P (ast.FuncType Params Results).
Hypothesis HMapType : forall Key Value, P Key -> P Value -> P (ast.MapType Key Value).
Hypothesis HChanType : forall Dir Value, P Value -> P (ast.ChanType Dir Value).
Hypothesis HStructType : forall Fields,
    onOption (onFields P) Fields -> P (ast.StructType Fields).
Hypothesis HInterfaceType : forall Methods,
    onOption (onFields P) Methods -> P (ast.InterfaceType Methods).
Hypothesis HEllipsis : forall Elt, P Elt -> P (ast.Ellipsis Elt).
Hypothesis HBasicLit : forall Kind Value, P (ast.BasicLit Kind Value).
Hypothesis HOtherExpr : forall shape, P (ast.OtherExpr shape).

Fixpoint Expr_induction (e : ast.Expr) : P e :=
  let fields :=
    fix fields (l : list ast.Field) : onFields P l :=
      match l return onFields P l with
      | [] => List.Forall_nil _
      | f :: l' =>
          List.Forall_cons (fun f => P (ast.Field_Type f)) f l'
            (match f return P (ast.Field_Type f) with
             | ast.mkField _ t => Expr_induction t
             end)
            (fields l')
      end in
  let optFields (o : option (list ast.Field)) : onOption (onFields P) o :=
    match o return onOption (onFields P) o with
    | Some l => fields l
    | None => I
    end in
  match e return P e with
  | ast.Ident Name => HIdent Name
  | ast.SelectorExpr X Sel => HSelectorExpr X Sel (Expr_induction X)
  | ast.StarExpr X => HStarExpr X (Expr_induction X)
  | ast.ArrayType Len Elt =>
      HArrayType Len Elt
        (match Len return onOption P Len with
         | Some len => Expr_induction len
         | None => I
         end)
        (Expr_induction Elt)
  | ast.FuncType Params Results =>
      HFuncType Params Results (fields Params) (optFields Results)
  | ast.MapType Key Value => HMapType Key Value (Expr_induction Key) (Expr_induction Value)
  | ast.ChanType Dir Value => HChanType Dir Value (Expr_induction Value)
  | ast.StructType Fields => HStructType Fields (optFields Fields)
  | ast.InterfaceType Methods => HInterfaceType Methods (optFields Methods)
  | ast.Ellipsis Elt => HEllipsis Elt (Expr_induction Elt)
  | ast.BasicLit Kind Value => HBasicLit Kind Value
  | ast.OtherExpr shape => HOtherExpr shape
  end.

End ExprInduction.

Lemma oneVariant_Primitive x : oneVariant (Type_of_Primitive x) = true.
Proof. reflexivity. Qed.

Lemma oneVariant_Qual x : oneVariant (Type_of_Qual x) = true.
Proof. reflexivity. Qed.

Lemma generateTypeFromIdent_oneVariant Name packagePath importMap :
  oneVariant (generateTypeFromIdent Name packagePath importMap) = true.
Proof.
  unfold generateTypeFromIdent.
  repeat (destruct (String.eqb Name _); [reflexivity |]). reflexivity.
Qed.

Lemma oneVariant_Ptr elem :
  oneVariant (Type_of_Ptr (mkPtrType elem)) = oneVariant elem.
Proof. cbn. by destruct (oneVariant elem). Qed.

Lemma oneVariant_Slice elem :
  oneVariant (Type_of_Slice (mkSliceType elem)) = oneVariant elem.
Proof. cbn. by destruct (oneVariant elem). Qed.

Lemma oneVariant_Array len elem :
  oneVariant (Type_of_Array (mkArrayType len elem)) = oneVariant elem.
Proof. cbn. by destruct (oneVariant elem). Qed.

Lemma oneVariant_Map key elem :
  oneVariant (Type_of_Map (mkMapType key elem)) = oneVariant key && oneVariant elem.
Proof. cbn. by destruct (oneVariant key), (oneVariant elem). Qed.

Lemma oneVariant_Chan dir elem :
  oneVariant (Type_of_Chan (mkChanType dir elem)) = oneVariant elem.
Proof. cbn. by destruct (oneVariant elem). Qed.

Lemma oneVariant_Func f : oneVariant (Type_of_Func f) = oneVariant_func f.
Proof. cbn. by destruct (oneVariant_func f). Qed.

Lemma oneVariant_Struct fields :
  oneVariant (Type_of_Struct (mkStructType fields)) = forallb oneVariant_field fields.
Proof. cbn. by destruct (forallb oneVariant_field fields). Qed.

Lemma oneVariant_Interface methods :
  oneVariant (Type_of_Interface (mkInterfaceType methods)) =
    forallb oneVariant_method methods.
Proof. cbn. by destruct (forallb oneVariant_method methods). Qed.

Lemma forallb_snoc {A} (f : A -> bool) (l : list A) (x : A) :
  forallb f (l ++ [x]) = forallb f l && f x.
Proof. rewrite forallb_app. cbn. by rewrite andb_true_r. Qed.

Section WellFormedCases.

Variable resolve : list TypeSpec -> outcome (list Type_).
Variable packagePath : string.
Variable importMap : gmap string string.
Variable lower : ast.Expr -> outcome Type_.

Hypothesis resolve_embeddable : forall specs ts,
    resolve specs = Ok ts -> Forall (fun t => embeddable t = true) ts.

Lemma appendNamed_oneVariant fieldNames names typ types i types' i' :
  oneVariant typ = true ->
  forallb oneVariant_field types = true ->
  appendNamed fieldNames names typ types i = Ok (types', i') ->
  forallb oneVariant_field types' = true.
Proof.
  intros Htyp. revert types i.
  induction fieldNames as [|n ns IH]; intros types i Htypes H.
  - by injection H as <- <-.
  - cbn [appendNamed] in H. apply bind_Ok in H as (name & _ & H).
    apply IH in H; [done |]. rewrite forallb_snoc, Htypes. exact Htyp.
Qed.

Lemma generateTypeFromFieldList_loop_oneVariant fields names types i v types' v' :
  Forall (fun f => lowersWell lower (typExprOf f)) fields ->
  forallb oneVariant_field types = true ->
  generateTypeFromFieldList_loop lower fields names types i v = Ok (types', v') ->
  forallb oneVariant_field types' = true.
Proof.
  revert types i v. induction fields as [|f fields IH]; intros types i v Hall Htypes H.
  - by injection H as <- <-.
  - apply Forall_cons in Hall as [Hf Hall].
    rewrite generateTypeFromFieldList_loop_cons in H.
    apply bind_Ok in H as (typ & Htyp & H). apply Hf in Htyp.
    case_bool_decide.
    + apply bind_Ok in H as (name & _ & H).
      apply IH in H; [done | done |]. rewrite forallb_snoc, Htypes. exact Htyp.
    + apply bind_Ok in H as ([types1 i1] & Hnamed & H).
      apply IH in H; [done | done |].
      by eapply appendNamed_oneVariant.
Qed.

Lemma generateTypeFromFuncType_oneVariant Params Results ft :
  Forall (fun f => lowersWell lower (typExprOf f)) Params ->
  onOption (Forall (fun f => lowersWell lower (typExprOf f))) Results ->
  generateTypeFromFuncType lower Params Results = Ok ft ->
  oneVariant_func ft = true.
Proof.
  intros HP HR H. unfold generateTypeFromFuncType in H.
  apply bind_Ok in H as ([params v] & Hparams & H).
  apply bind_Ok in H as (results & Hresults & H). injection H as <-.
  cbn [oneVariant_func]. apply andb_true_iff. split.
  - unfold generateTypeFromFieldList in Hparams.
    eapply generateTypeFromFieldList_loop_oneVariant;
      [exact HP | | exact Hparams]; reflexivity.
  - destruct Results as [List|].
    + apply bind_Ok in Hresults as ([results' v'] & Hres & H). injection H as <-.
      unfold generateTypeFromFieldList in Hres.
      eapply generateTypeFromFieldList_loop_oneVariant;
        [exact HR | | exact Hres]; reflexivity.
    + by injection Hresults as <-.
Qed.

Lemma generateTypeFromStructType_names_oneVariant e fieldNames fields fields' :
  lowersWell lower e ->
  forallb oneVariant_field fields = true ->
  generateTypeFromStructType_names lower e fieldNames fields = Ok fields' ->
  forallb oneVariant_field fields' = true.
Proof.
  intros He. revert fields.
  induction fieldNames as [|n ns IH]; intros fields Hfields H.
  - by injection H as <-.
  - cbn [generateTypeFromStructType_names] in H.
    apply bind_Ok in H as (t & Ht & H). apply He in Ht.
    apply IH in H; [done |]. rewrite forallb_snoc, Hfields. exact Ht.
Qed.

Lemma generateTypeFromStructType_oneVariant Fields st :
  onOption (Forall (fun f => lowersWell lower (ast.Field_Type f))) Fields ->
  generateTypeFromStructType lower Fields = Ok st ->
  oneVariant (Type_of_Struct st) = true.
Proof.
  intros Hall H. destruct Fields as [List|]; cbn in H.
  - apply bind_Ok in H as (fields & Hloop & H). injection H as <-.
    rewrite oneVariant_Struct.
    assert (Hgen : forall fields0,
              forallb oneVariant_field fields0 = true ->
              generateTypeFromStructType_loop lower List fields0 = Ok fields ->
              forallb oneVariant_field fields = true);
      [| eapply Hgen; [| exact Hloop]; reflexivity].
    clear Hloop. cbn in Hall.
    induction List as [|f List IH]; intros fields0 H0 H.
    + by injection H as <-.
    + apply Forall_cons in Hall as [Hf Hall].
      cbn [generateTypeFromStructType_loop] in H.
      apply bind_Ok in H as (fields1 & Hnames & H).
      eapply IH; [exact Hall | | exact H].
      eapply generateTypeFromStructType_names_oneVariant;
        [exact Hf | exact H0 | exact Hnames].
  - by injection H as <-.
Qed.

Lemma embeddedMethods_oneVariant innerInterface embedded :
  Forall (fun t => embeddable t = true) innerInterface ->
  embeddedMethods innerInterface = Ok embedded ->
  forallb oneVariant_method embedded = true.
Proof.
  intros Hall H. unfold embeddedMethods in H.
  apply bind_Ok in H as (inner & Hinner & H). apply index_Ok in Hinner.
  apply list_elem_of_lookup_2 in Hinner.
  rewrite Forall_forall in Hall. specialize (Hall _ Hinner).
  unfold embeddable in Hall.
  destruct (Type_InterfaceType inner) as [it|]; [| discriminate].
  by injection H as <-.
Qed.

Lemma generateTypeFromInterfaceType_member_oneVariant f methods methods' :
  (forall Params Results ft,
      ast.Field_Type f = ast.FuncType Params Results ->
      generateTypeFromFuncType lower Params Results = Ok ft ->
      oneVariant_func ft = true) ->
  forallb oneVariant_method methods = true ->
  generateTypeFromInterfaceType_member resolve packagePath importMap lower f methods
    = Ok methods' ->
  forallb oneVariant_method methods' = true.
Proof.
  intros Hfunc Hmethods H. unfold generateTypeFromInterfaceType_member in H.
  destruct (ast.Field_Type f) as [Name|X Sel| | |Params Results| | | | | | |] eqn:Hf;
    try (by injection H as <-).
  - apply bind_Ok in H as (inner & Hinner & H).
    apply bind_Ok in H as (embedded & Hemb & H). injection H as <-.
    rewrite forallb_app, Hmethods. cbn.
    eapply embeddedMethods_oneVariant; [| exact Hemb].
    by eapply resolve_embeddable.
  - apply bind_Ok in H as (x & _ & H).
    apply bind_Ok in H as (inner & Hinner & H).
    apply bind_Ok in H as (embedded & Hemb & H). injection H as <-.
    rewrite forallb_app, Hmethods. cbn.
    eapply embeddedMethods_oneVariant; [| exact Hemb].
    by eapply resolve_embeddable.
  - apply bind_Ok in H as (name & _ & H).
    apply bind_Ok in H as (funcType & Hft & H). injection H as <-.
    rewrite forallb_snoc, Hmethods. cbn.
    by eapply Hfunc.
Qed.

Lemma generateTypeFromInterfaceType_oneVariant Methods it :
  onOption (Forall (fun f =>
              forall Params Results ft,
                ast.Field_Type f = ast.FuncType Params Results ->
                generateTypeFromFuncType lower Params Results = Ok ft ->
                oneVariant_func ft = true)) Methods ->
  generateTypeFromInterfaceType resolve packagePath importMap lower Methods = Ok it ->
  oneVariant (Type_of_Interface it) = true.
Proof.
  intros Hall H. destruct Methods as [List|]; cbn in H.
  - apply bind_Ok in H as (methods & Hloop & H). injection H as <-.
    rewrite oneVariant_Interface.
    assert (Hgen : forall methods0,
              forallb oneVariant_method methods0 = true ->
              generateTypeFromInterfaceType_loop resolve packagePath importMap lower
                List methods0 = Ok methods ->
              forallb oneVariant_method methods = true);
      [| eapply Hgen; [| exact Hloop]; reflexivity].
    clear Hloop. cbn in Hall.
    induction List as [|f List IH]; intros methods0 H0 H.
    + by injection H as <-.
    + apply Forall_cons in Hall as [Hf Hall].
      cbn [generateTypeFromInterfaceType_loop] in H.
      apply bind_Ok in H as (methods1 & Hmember & H).
      eapply IH; [exact Hall | | exact H].
      eapply generateTypeFromInterfaceType_member_oneVariant;
        [exact Hf | exact H0 | exact Hmember].
  - by injection H as <-.
Qed.

End WellFormedCases.

Section WellFormed.

Variable parseInt : string -> option Z.
Variable resolve : list TypeSpec -> outcome (list Type_).
Variable pkg : string.
Variable im : gmap string string.

Hypothesis resolve_embeddable : forall specs ts,
    resolve specs = Ok ts -> Forall (fun t => embeddable t = true) ts.

Local Abbreviation lower := (fun e => generateTypeFromExpr parseInt resolve e pkg im).

Lemma lowersWell'_typExprOf fields :
  onFields (lowersWell' lower) fields ->
  Forall (fun f => lowersWell lower (typExprOf f)) fields.
Proof.
  unfold onFields. intros H. eapply Forall_impl; [exact H |].
  intros f [Hf Helt]. unfold typExprOf.
  destruct (ast.Field_Type f); done.
Qed.

Lemma lowersWell'_Field_Type fields :
  onFields (lowersWell' lower) fields ->
  Forall (fun f => lowersWell lower (ast.Field_Type f)) fields.
Proof.
  unfold onFields. intros H. eapply Forall_impl; [exact H |]. by intros f [Hf _].
Qed.

Lemma lowersWell'_methods fields :
  onFields (lowersWell' lower) fields ->
  Forall (fun f =>
            forall Params Results ft,
              ast.Field_Type f = ast.FuncType Params Results ->
              generateTypeFromFuncType lower Params Results = Ok ft ->
              oneVariant_func ft = true) fields.
Proof.
  unfold onFields. intros H. eapply Forall_impl; [exact H |].
  intros f [Hf _] Params Results ft Heq Hft.
  rewrite Heq in Hf. rewrite <- oneVariant_Func. apply Hf.
  cbn [generateTypeFromExpr]. by rewrite Hft.
Qed.

Lemma generateTypeFromExpr_lowersWell' e : lowersWell' lower e.
Proof.
  induction e as [Name|X Sel IHX|X IHX|Len Elt IHLen IHElt|Params Results IHP IHR
                 |Key Value IHK IHV|Dir Value IHV|Fields IHF|Methods IHM
                 |Elt IHElt|Kind Value|shape] using Expr_induction;
    (split; [intros t H | try exact I]).
  - cbn in H. injection H as <-. apply generateTypeFromIdent_oneVariant.
  - cbn [generateTypeFromExpr] in H. unfold generateTypeFromSelectorExpr in H.
    destruct X; try discriminate. destruct (im !! Name); [| discriminate].
    by injection H as <-.
  - cbn [generateTypeFromExpr] in H. unfold generateTypeFromStarExpr in H.
    apply bind_Ok in H as (typ & H & Ht). injection Ht as <-.
    apply bind_Ok in H as (elem & Helem & Ht). injection Ht as <-.
    rewrite oneVariant_Ptr. by apply IHX.
  - cbn [generateTypeFromExpr] in H. unfold generateTypeFromArrayType in H.
    destruct Len as [len|].
    + destruct len; try discriminate. destruct (parseInt Value); [| discriminate].
      apply bind_Ok in H as (elem & Helem & Ht). injection Ht as <-.
      rewrite oneVariant_Array. by apply IHElt.
    + apply bind_Ok in H as (elem & Helem & Ht). injection Ht as <-.
      rewrite oneVariant_Slice. by apply IHElt.
  - cbn [generateTypeFromExpr] in H.
    apply bind_Ok in H as (typ & H & Ht). injection Ht as <-.
    rewrite oneVariant_Func.
    eapply generateTypeFromFuncType_oneVariant; [| | exact H].
    + by apply lowersWell'_typExprOf.
    + destruct Results; [by apply lowersWell'_typExprOf | exact I].
  - cbn [generateTypeFromExpr] in H. unfold generateTypeFromMapType in H.
    apply bind_Ok in H as (typ & H & Ht). injection Ht as <-.
    apply bind_Ok in H as (keyDef & Hkey & H).
    apply bind_Ok in H as (valDef & Hval & Ht). injection Ht as <-.
    rewrite oneVariant_Map. apply andb_true_iff.
    split; [by apply IHK | by apply IHV].
  - cbn [generateTypeFromExpr] in H. unfold generateTypeFromChanType in H.
    apply bind_Ok in H as (typ & H & Ht). injection Ht as <-.
    apply bind_Ok in H as (c & Hc & H).
    apply IHV in Hc.
    repeat case_match; injection H as <-; by rewrite oneVariant_Chan.
  - cbn [generateTypeFromExpr] in H.
    apply bind_Ok in H as (typ & H & Ht). injection Ht as <-.
    eapply generateTypeFromStructType_oneVariant; [| exact H].
    destruct Fields; [by apply lowersWell'_Field_Type | exact I].
  - cbn [generateTypeFromExpr] in H.
    apply bind_Ok in H as (typ & H & Ht). injection Ht as <-.
    eapply generateTypeFromInterfaceType_oneVariant;
      [exact resolve_embeddable | | exact H].
    destruct Methods; [by apply lowersWell'_methods | exact I].
  - discriminate H.
  - apply IHElt.
  - discriminate H.
  - discriminate H.
Qed.

Lemma generateTypeFromExpr_oneVariant e t :
  generateTypeFromExpr parseInt resolve e pkg im = Ok t -> oneVariant t = true.
Proof. apply generateTypeFromExpr_lowersWell'. Qed.

End WellFormed.

Section ResolveWellFormed.

Variable parseInt : string -> option Z.
Variable GetPackageSourceFiles : string -> string + list string.
Variable os_Open : string -> string + string.
Variable parser_ParseFile : string -> string -> string + ast.File.
Variable choose : ticket -> list string -> nat.

Local Abbreviation GenerateTypes :=
  (GenerateTypesFromSpecs parseInt GetPackageSourceFiles os_Open parser_ParseFile
     choose).

Section Body.

Variable resolve : list TypeSpec -> outcome (list Type_).

Hypothesis lower_oneVariant : forall e p im t,
    generateTypeFromExpr parseInt resolve e p im = Ok t -> oneVariant t = true.

Lemma scanNames_oneVariant fa p im todo R M R' M' :
  allOneVariant M ->
  scanNames parseInt resolve fa p im todo R M = Ok (R', M') ->
  allOneVariant M'.
Proof.
  revert R M. induction todo as [|name rest IH]; intros R M HM H.
  - by injection H as <- <-.
  - cbn [scanNames] in H. destruct (getDeclarationByName fa name) as [e|].
    + apply bind_Ok in H as (t & Ht & H). eapply IH; [| exact H].
      intros n t' Hn. destruct (decide (name = n)) as [->|Hne].
      * rewrite lookup_insert_eq in Hn. injection Hn as <-.
        by eapply lower_oneVariant.
      * rewrite lookup_insert_ne in Hn by done. by eapply HM.
    + by eapply IH.
Qed.

Lemma scanSources_oneVariant p srcs k R M R' M' :
  allOneVariant M ->
  scanSources parseInt os_Open parser_ParseFile choose resolve p srcs k R M
    = Ok (R', M') ->
  allOneVariant M'.
Proof.
  revert k R M. induction srcs as [|source rest IH]; intros k R M HM H.
  - by injection H as <- <-.
  - rewrite scanSources_cons in H. case_bool_decide.
    + by injection H as <- <-.
    + apply bind_Ok in H as (fa & _ & H).
      apply bind_Ok in H as ([R1 M1] & Hscan & H).
      eapply IH; [| exact H]. by eapply scanNames_oneVariant.
Qed.

Lemma GenerateTypesFromSpecs_body_oneVariant typeSpecs results :
  GenerateTypesFromSpecs_body parseInt GetPackageSourceFiles os_Open
    parser_ParseFile choose resolve typeSpecs = Ok results ->
  Forall (fun t => oneVariant t = true) results.
Proof.
  intros H. apply Forall_lookup. intros i t Hi.
  destruct (GenerateTypesFromSpecs_body_Ok _ _ _ _ _ _ _ _ H) as [Hlen Heach].
  assert (Hlt : (i < length typeSpecs)%nat)
    by (rewrite <- Hlen; by eapply lookup_lt_Some).
  destruct (lookup_lt_is_Some_2 _ _ Hlt) as [[p n] Hspec].
  destruct (Heach i p n Hspec) as (t' & types & j & Hres & Htypes & Hj & Hn).
  assert (t' = t) as -> by congruence.
  apply generateTypesInSinglePackage_Ok in Htypes
    as (srcs & M & Hsrcs & Hscan & ->).
  rewrite list_lookup_fmap, Hn in Hj. cbn in Hj. injection Hj as Hj.
  edestruct scanSources_single with (n := n) as (t' & Ht' & _);
    [exact Hscan | | apply not_elem_of_empty |].
  { apply elem_of_list_to_set. by eapply list_elem_of_lookup_2. }
  rewrite Ht' in Hj. cbn in Hj. subst t'.
  eapply scanSources_oneVariant; [| exact Hscan | exact Ht'].
  intros m t0 Hm. by rewrite lookup_empty in Hm.
Qed.

End Body.

Lemma GenerateTypesFromSpecs_oneVariant fuel typeSpecs results :
  GenerateTypes fuel typeSpecs = Ok results ->
  Forall (fun t => oneVariant t = true) results.
Proof.
  revert typeSpecs results. induction fuel as [|fuel IH]; intros typeSpecs results H.
  - discriminate H.
  - cbn [GenerateTypesFromSpecs] in H.
    eapply GenerateTypesFromSpecs_body_oneVariant; [| exact H].
    intros e p im t. apply generateTypeFromExpr_oneVariant.
    intros specs ts Hts. apply IH in Hts.
    eapply Forall_impl; [exact Hts |]. intros t0. apply oneVariant_embeddable.
Qed.

(** C8: a type returned by a successful lowering has exactly one of its ten
    variants set, and so has every type nested in it; the same holds of the
    types a successful call of the entry point returns. *)
Theorem C8_exactly_one_variant (fuel : nat) :
  (forall e pkg im t,
      lowerExpr parseInt GetPackageSourceFiles os_Open parser_ParseFile choose
        fuel e pkg im = Ok t ->
      populated t = 1%nat /\ oneVariant t = true)
  /\ (forall typeSpecs results,
        GenerateTypes fuel typeSpecs = Ok results ->
        Forall (fun t => populated t = 1%nat /\ oneVariant t = true) results).
Proof.
  assert (Hpop : forall t, oneVariant t = true ->
                           populated t = 1%nat /\ oneVariant t = true).
  { intros t Ht. split; [| exact Ht]. destruct t. cbn [oneVariant] in Ht.
    apply andb_true_iff in Ht as [Ht _]. by apply Nat.eqb_eq in Ht. }
  split.
  - intros e pkg im t H. apply Hpop. unfold lowerExpr in H.
    eapply generateTypeFromExpr_oneVariant; [| exact H].
    intros specs ts Hts. apply GenerateTypesFromSpecs_oneVariant in Hts.
    eapply Forall_impl; [exact Hts |]. intros t0. apply oneVariant_embeddable.
  - intros typeSpecs results H. apply GenerateTypesFromSpecs_oneVariant in H.
    eapply Forall_impl; [exact H |]. exact Hpop.
Qed.

End ResolveWellFormed.

(* ===================================================================== *)
(** * The theorems on the source tree of [Demo] *)
(* ===================================================================== *)


(** C5 on the requests Z, A of package "p", which declares A and no Z. *)
Lemma C5_declaration_not_found_witness :
  Demo.resolve 3 [mkTypeSpec "p" "Z"; mkTypeSpec "p" "A"] =
    Err (CannotFindDefinition "Z").
Proof.
  pose (tA := Type_of_Interface (mkInterfaceType
                [mkInterfaceTypeMethod "M"
                   (mkFuncType
                      [mkTypeField "arg1"
                         (Type_of_Primitive (mkPrimitiveType PrimitiveKindInt))]
                      [] false)])).
  destruct (C5_declaration_not_found parseInt_decimal Demo.GetPackageSourceFiles
              Demo.os_Open Demo.parser_ParseFile Demo.choose
              2 [mkTypeSpec "p" "Z"; mkTypeSpec "p" "A"] "p" "Z"
              ["/src/p/a.go"; "/src/p/b.go"] {["Z"]} (<["A" := tA]> ∅))
    as (m & _ & Hm & Hall & _ & _ & Hone).
  - by left.
  - reflexivity.
  - vm_compute. reflexivity.
  - apply non_empty_singleton_L.
  - assert (m = "Z") as ->.
    { apply elem_of_cons in Hm as [Hm|Hm]; [by injection Hm |].
      apply elem_of_cons in Hm as [Hm|Hm]; [| by apply elem_of_nil in Hm].
      injection Hm as ->. exfalso.
      apply Forall_cons in Hall as [(fa & Hparse & Hdecl) _].
      vm_compute in Hparse. injection Hparse as <-.
      vm_compute in Hdecl. discriminate Hdecl. }
    apply Hone. intros spec Hspec.
    repeat (apply elem_of_cons in Hspec as [->|Hspec]; [reflexivity |]).
    by apply elem_of_nil in Hspec.
Defined.

(** C8 on the interface B of package "p", which embeds A. *)
Lemma C8_exactly_one_variant_witness :
  exists t, Demo.resolve 3 [mkTypeSpec "p" "B"] = Ok [t] /\
            populated t = 1%nat /\ oneVariant t = true.
Proof.
  destruct (C8_exactly_one_variant parseInt_decimal Demo.GetPackageSourceFiles
              Demo.os_Open Demo.parser_ParseFile Demo.choose 3)
    as [_ Hresults].
  destruct (Demo.resolve 3 [mkTypeSpec "p" "B"]) as [[|t [|t' l]]| | |] eqn:H;
    try (vm_compute in H; discriminate H).
  exists t. split; [reflexivity |].
  specialize (Hresults _ _ H). by apply Forall_cons in Hresults as [? _].
Defined.


(* ===================================================================== *)
(** * Further properties: grouping, declarations and import tables *)
(* ===================================================================== *)

(** X1: [groupTypeSpecByPackage] maps each requested package to the names
    requested in it, in the order of the requests and with their repetitions;
    a package is a key exactly when a request names it, so that no key has an
    empty list, and the names of all the keys together are as many as the
    requests. *)
Theorem X1_group_by_package (typeSpecs : list TypeSpec) (p : string) :
  default [] (groupTypeSpecByPackage typeSpecs !! p) = namesIn p typeSpecs
  /\ (p ∈ dom (groupTypeSpecByPackage typeSpecs) <->
      exists n, mkTypeSpec p n ∈ typeSpecs)
  /\ groupTypeSpecByPackage typeSpecs !! p <> Some []
  /\ (forall i spec, typeSpecs !! i = Some spec ->
        exists names, groupTypeSpecByPackage typeSpecs !! TypeSpec_PackagePath spec
                        = Some names /\ TypeSpec_Name spec ∈ names).
Proof.
  split; [apply groupTypeSpecByPackage_default |]. split; [| split].
  - split.
    + intros Hdom. apply elem_of_dom in Hdom as [names Hnames].
      rewrite groupTypeSpecByPackage_lookup in Hnames.
      destruct (namesIn p typeSpecs) as [|n ns] eqn:Hp; [discriminate |].
      exists n. apply elem_of_namesIn. rewrite Hp. by left.
    + intros [n Hn]. by eapply groupTypeSpecByPackage_dom.
  - rewrite groupTypeSpecByPackage_lookup.
    destruct (namesIn p typeSpecs); discriminate.
  - intros i [q n] Hi. cbn [TypeSpec_PackagePath TypeSpec_Name].
    apply list_elem_of_lookup_2 in Hi. apply elem_of_namesIn in Hi.
    rewrite groupTypeSpecByPackage_lookup.
    destruct (namesIn q typeSpecs) as [|m ms]; [by apply elem_of_nil in Hi |].
    eauto.
Qed.

Lemma find_app {A} (f : A -> bool) (l1 l2 : list A) :
  List.find f (l1 ++ l2) =
    match List.find f l1 with
    | Some x => Some x
    | None => List.find f l2
    end.
Proof.
  induction l1 as [|x l1 IH]; [reflexivity |].
  cbn [app List.find]. by destruct (f x).
Qed.

Lemma findTypeSpec_find specs name :
  findTypeSpec specs name =
    snd <$> List.find (fun d => String.eqb (fst d) name) (omap typeSpecEntry specs).
Proof.
  induction specs as [|spec specs IH]; [reflexivity |].
  destruct spec as [Name Path|n t|]; simpl; try exact IH.
  destruct (String.eqb n name); [reflexivity | exact IH].
Qed.

Lemma getDeclarationByName_find f name :
  getDeclarationByName f name =
    snd <$> List.find (fun d => String.eqb (fst d) name) (typeSpecsOf f).
Proof.
  unfold getDeclarationByName, typeSpecsOf.
  induction (ast.File_Decls f) as [|decl decls IH]; [reflexivity |].
  destruct decl as [Specs|]; cbn [getDeclarationByName_decls flat_map]; [| exact IH].
  rewrite find_app, findTypeSpec_find.
  destruct (List.find _ (omap typeSpecEntry Specs)); [reflexivity | exact IH].
Qed.

(** X2: [getDeclarationByName] returns the type of the first type
    specification of the file that has the name, whatever declaration it
    stands in, and nil exactly when the file has no type specification of
    that name; import and value specifications and the declarations that are
    not general declarations are passed over. *)
Theorem X2_first_declaration_wins (f : ast.File) (name : string) :
  getDeclarationByName f name =
    snd <$> List.find (fun d => String.eqb (fst d) name) (typeSpecsOf f)
  /\ (getDeclarationByName f name = None <-> name ∉ (typeSpecsOf f).*1)
  /\ (forall t, getDeclarationByName f name = Some t -> (name, t) ∈ typeSpecsOf f)
  /\ (forall pre t post,
        typeSpecsOf f = pre ++ (name, t) :: post -> name ∉ pre.*1 ->
        getDeclarationByName f name = Some t).
Proof.
  rewrite getDeclarationByName_find. split; [reflexivity |].
  split; [| split].
  - split.
    + intros Hnone Hin. apply list_elem_of_fmap in Hin as ([n t] & -> & Hin).
      apply list_elem_of_In in Hin.
      destruct (List.find _ (typeSpecsOf f)) eqn:Hfind; [discriminate |].
      eapply find_none in Hfind; [| exact Hin].
      cbn in Hfind. by rewrite String.eqb_refl in Hfind.
    + intros Hnot. destruct (List.find _ (typeSpecsOf f)) as [[n t]|] eqn:Hfind;
        [| reflexivity].
      apply find_some in Hfind as [Hin Heq]. cbn in Heq.
      apply String.eqb_eq in Heq as ->. exfalso. apply Hnot.
      apply list_elem_of_fmap. exists (name, t). split; [reflexivity |].
      by apply list_elem_of_In.
  - intros t Hsome.
    destruct (List.find _ (typeSpecsOf f)) as [[n t']|] eqn:Hfind; [| discriminate].
    injection Hsome as ->. apply find_some in Hfind as [Hin Heq]. cbn in Heq.
    apply String.eqb_eq in Heq as ->. by apply list_elem_of_In.
  - intros pre t post -> Hpre. rewrite find_app.
    destruct (List.find _ pre) as [[n t']|] eqn:Hfind.
    + apply find_some in Hfind as [Hin Heq]. cbn in Heq.
      apply String.eqb_eq in Heq as ->. exfalso. apply Hpre.
      apply list_elem_of_fmap. exists (name, t'). split; [reflexivity |].
      by apply list_elem_of_In.
    + cbn [List.find fst]. by rewrite String.eqb_refl.
Qed.

(** X2 on a file with two specifications of the same name. *)
Lemma X2_first_declaration_wins_witness :
  getDeclarationByName
    (ast.mkFile "p" [ast.FuncDecl;
                     ast.GenDecl [ast.ValueSpec; ast.TypeSpec "T" (ast.Ident "int")];
                     ast.GenDecl [ast.TypeSpec "T" (ast.Ident "string")]]) "T"
    = Some (ast.Ident "int").
Proof.
  eapply (proj2 (proj2 (proj2 (X2_first_declaration_wins _ "T"))) []).
  - reflexivity.
  - cbn. apply not_elem_of_nil.
Defined.









Lemma addImportSpec_entries m specs :
  foldl addImportSpec m specs = foldl insertEntry m (omap importEntry specs).
Proof.
  revert m. induction specs as [|spec specs IH]; intros m; [reflexivity |].
  destruct spec as [Name Path|n t|]; simpl; apply IH.
Qed.

Lemma addImportDecl_entries m decls :
  foldl addImportDecl m decls =
    foldl insertEntry m
      (flat_map (fun decl => match decl with
                             | ast.GenDecl Specs => omap importEntry Specs
                             | _ => []
                             end) decls).
Proof.
  revert m. induction decls as [|decl decls IH]; intros m; [reflexivity |].
  destruct decl as [Specs|]; cbn [foldl flat_map addImportDecl]; [| apply IH].
  by rewrite foldl_app, <- addImportSpec_entries, IH.
Qed.

Lemma insertEntry_lookup_notin m entries k :
  k ∉ entries.*1 -> foldl insertEntry m entries !! k = m !! k.
Proof.
  revert m. induction entries as [|[k' v'] entries IH]; intros m Hk; [reflexivity |].
  cbn in Hk. apply not_elem_of_cons in Hk as [Hne Hk].
  cbn [foldl]. rewrite IH by done. unfold insertEntry. cbn.
  by rewrite lookup_insert_ne.
Qed.


Lemma importsOf_entries file :
  importsOf file = foldl insertEntry ∅ (importEntries file).
Proof. apply addImportDecl_entries. Qed.

Lemma importsOf_last file pre k v post :
  importEntries file = pre ++ (k, v) :: post -> k ∉ post.*1 ->
  importsOf file !! k = Some v.
Proof.
  intros Hentries Hpost. rewrite importsOf_entries, Hentries, foldl_app.
  cbn [foldl]. rewrite insertEntry_lookup_notin by done.
  unfold insertEntry. cbn. apply lookup_insert_eq.
Qed.

Lemma importsOf_notin file k :
  k ∉ (importEntries file).*1 -> importsOf file !! k = None.
Proof.
  intros Hk. rewrite importsOf_entries, insertEntry_lookup_notin by done.
  apply lookup_empty.
Qed.



Lemma strings_Split_dot_0_no_dot s :
  strings_Contains (strings_Split_dot_0 s) "." = false.
Proof.
  induction s as [|c s IH]; [reflexivity |].
  cbn [strings_Split_dot_0]. destruct (Ascii.eqb_spec c ".") as [->|Hne]; [reflexivity |].
  cbn [strings_Contains String.prefix]. rewrite IH.
  destruct (ascii_dec "." c) as [Heq|_]; [by subst |].
  reflexivity.
Qed.

Lemma strings_Split_dot_0_prefix s : String.prefix (strings_Split_dot_0 s) s = true.
Proof.
  induction s as [|c s IH]; [reflexivity |].
  cbn [strings_Split_dot_0]. destruct (Ascii.eqb c "."); [reflexivity |].
  cbn. by destruct (ascii_dec c c).
Qed.

Lemma path_Base_not_empty path : path_Base path <> "".
Proof.
  unfold path_Base. destruct (String.eqb path ""); [discriminate |].
  destruct (String.eqb_spec (afterLastSlash (stripTrailingSlashes path)) "");
    [discriminate | done].
Qed.

(** X4: the name [getImportNameFromPackagePath] draws from a path is what
    precedes the first dot of the last element of the path: it holds no dot and
    is a prefix of that element, and it is the whole element when the
    element has no dot.  The last element is never empty, so the test of
    line 148 never returns. *)
Theorem X4_default_import_name (packagePath : string) :
  getImportNameFromPackagePath packagePath = strings_Split_dot_0 (path_Base packagePath)
  /\ path_Base packagePath <> ""
  /\ strings_Contains (getImportNameFromPackagePath packagePath) "." = false
  /\ String.prefix (getImportNameFromPackagePath packagePath) (path_Base packagePath) = true
  /\ (strings_Contains (path_Base packagePath) "." = false ->
      getImportNameFromPackagePath packagePath = path_Base packagePath).
Proof.
  assert (Heq : getImportNameFromPackagePath packagePath =
                strings_Split_dot_0 (path_Base packagePath)).
  { unfold getImportNameFromPackagePath.
    destruct (String.eqb_spec (path_Base packagePath) "") as [He|_]; [| reflexivity].
    by apply path_Base_not_empty in He. }
  split; [exact Heq |]. split; [apply path_Base_not_empty |].
  rewrite Heq. split; [apply strings_Split_dot_0_no_dot |].
  split; [apply strings_Split_dot_0_prefix |].
  generalize (path_Base packagePath). intros s.
  induction s as [|c s IH]; [reflexivity |].
  cbn [strings_Contains String.prefix strings_Split_dot_0].
  destruct (ascii_dec "." c) as [<-|Hne].
  - intros Hs. destruct s; discriminate Hs.
  - intros Hs. destruct (Ascii.eqb_spec c ".") as [->|_]; [done |].
    by rewrite IH.
Qed.

(** X4 on a path whose last element has no dot. *)
Lemma X4_default_import_name_witness :
  getImportNameFromPackagePath "github.com/x/gotype/" = "gotype".
Proof.
  destruct (X4_default_import_name "github.com/x/gotype/") as (_ & _ & _ & _ & H).
  rewrite H; reflexivity.
Defined.

(* ===================================================================== *)
(** * Further properties: names through the import table *)
(* ===================================================================== *)

Lemma generateTypeFromIdent_other Name packagePath importMap :
  Name ∉ primitiveKindNames ->
  generateTypeFromIdent Name packagePath importMap =
    Type_of_Qual (mkQualType packagePath
                    (default "" (importMap !! (packagePath +:+ "__short"))) Name).
Proof.
  intros Hnot. unfold generateTypeFromIdent.
  repeat match goal with
  | |- context [String.eqb Name ?k] =>
      destruct (String.eqb_spec Name k) as [->|?];
        [exfalso; apply Hnot; unfold primitiveKindNames; set_solver |]
  end.
  reflexivity.
Qed.

Lemma generateImportMap_lookup_ne packagePath file k :
  k <> packagePath +:+ "__short" ->
  generateImportMap packagePath file !! k = importsOf file !! k.
Proof.
  intros Hne. unfold generateImportMap.
  destruct (negb _); [| reflexivity]. by rewrite lookup_insert_ne.
Qed.

(** X5: under the import table of a file, an identifier that is not the name
    of a primitive kind lowers to the qualified type of the target package
    whose short name is the package name the file declares; in a file whose
    package name contains "_test" the short name is what the imports of the
    file put under the package path followed by "__short", the empty string
    when no import has that name. *)
Theorem X5_local_name_qualified (packagePath : string) (file : ast.File) (Name : string) :
  Name ∉ primitiveKindNames ->
  let lowered := generateTypeFromIdent Name packagePath
                   (generateImportMap packagePath file) in
  (strings_Contains (ast.File_Name file) "_test" = false ->
     lowered = Type_of_Qual (mkQualType packagePath (ast.File_Name file) Name))
  /\ (strings_Contains (ast.File_Name file) "_test" = true ->
      lowered = Type_of_Qual
                  (mkQualType packagePath
                     (default "" (importsOf file !! (packagePath +:+ "__short"))) Name))
  /\ (strings_Contains (ast.File_Name file) "_test" = true ->
      (packagePath +:+ "__short") ∉ (importEntries file).*1 ->
      lowered = Type_of_Qual (mkQualType packagePath "" Name)).
Proof.
  intros Hnot lowered. unfold lowered.
  rewrite generateTypeFromIdent_other by done. unfold generateImportMap.
  split; [| split].
  - intros ->. cbn. by rewrite lookup_insert_eq.
  - intros ->. reflexivity.
  - intros -> Hkey. cbn. by rewrite importsOf_notin.
Qed.

(** X5 on the type name [Reader] in a file of package [gotype] and in a file
    of package [gotype_test]. *)
Lemma X5_local_name_qualified_witness :
  generateTypeFromIdent "Reader" "github.com/x/gotype"
    (generateImportMap "github.com/x/gotype" (ast.mkFile "gotype" []))
    = Type_of_Qual (mkQualType "github.com/x/gotype" "gotype" "Reader")
  /\ generateTypeFromIdent "Reader" "github.com/x/gotype"
       (generateImportMap "github.com/x/gotype" (ast.mkFile "gotype_test" []))
       = Type_of_Qual (mkQualType "github.com/x/gotype" "" "Reader").
Proof.
  assert (Hnot : "Reader" ∉ primitiveKindNames).
  { unfold primitiveKindNames. intros Hin.
    repeat (apply elem_of_cons in Hin as [Hin|Hin]; [discriminate Hin |]).
    by apply elem_of_nil in Hin. }
  split.
  - apply (X5_local_name_qualified "github.com/x/gotype" (ast.mkFile "gotype" [])
             "Reader" Hnot). reflexivity.
  - apply (X5_local_name_qualified "github.com/x/gotype" (ast.mkFile "gotype_test" [])
             "Reader" Hnot); [reflexivity |]. cbn. apply not_elem_of_nil.
Defined.

(** X6: under the import table of a file, a package-qualified type [x.Sel]
    lowers to the qualified type of the path of the last import of the file
    named [x], with [x] as short name, and fails with "unrecognized
    identifier" when no import has that name; the entry the table holds for
    the package itself is found the same way, so that in a file that is not a
    test file the qualifier made of the package path and "__short" lowers to
    the qualified type whose package is the declared package name. *)
Theorem X6_selector_through_imports (parseInt : string -> option Z)
  (resolve : list TypeSpec -> outcome (list Type_))
  (packagePath : string) (file : ast.File) (x Sel : string) :
  let lower e :=
    generateTypeFromExpr parseInt resolve e packagePath
      (generateImportMap packagePath file) in
  (x <> packagePath +:+ "__short" ->
   forall pre path post,
     importEntries file = pre ++ (x, path) :: post -> x ∉ post.*1 ->
     lower (ast.SelectorExpr (ast.Ident x) Sel) =
       Ok (Type_of_Qual (mkQualType path x Sel)))
  /\ (x <> packagePath +:+ "__short" -> x ∉ (importEntries file).*1 ->
      lower (ast.SelectorExpr (ast.Ident x) Sel) = Err (UnrecognizedIdentifier x))
  /\ (strings_Contains (ast.File_Name file) "_test" = false ->
      lower (ast.SelectorExpr (ast.Ident (packagePath +:+ "__short")) Sel) =
        Ok (Type_of_Qual (mkQualType (ast.File_Name file)
                            (packagePath +:+ "__short") Sel))).
Proof.
  intros lower. unfold lower. cbn [generateTypeFromExpr].
  unfold generateTypeFromSelectorExpr. split; [| split].
  - intros Hne pre path post Hentries Hpost.
    rewrite generateImportMap_lookup_ne by done.
    by rewrite (importsOf_last _ _ _ _ _ Hentries Hpost).
  - intros Hne Hnot. rewrite generateImportMap_lookup_ne by done.
    by rewrite importsOf_notin.
  - intros Htest. unfold generateImportMap. rewrite Htest. cbn.
    by rewrite lookup_insert_eq.
Qed.

(** X6 on the file b.go of [Demo], which imports "io": [io.Writer] is
    lowered, [os.File] is not. *)
Lemma X6_selector_through_imports_witness :
  let lower e :=
    generateTypeFromExpr parseInt_decimal (fun _ => OutOfFuel) e "p"
      (generateImportMap "p" Demo.b_go) in
  lower (ast.SelectorExpr (ast.Ident "io") "Writer") =
    Ok (Type_of_Qual (mkQualType "io" "io" "Writer"))
  /\ lower (ast.SelectorExpr (ast.Ident "os") "File") =
       Err (UnrecognizedIdentifier "os").
Proof.
  intros lower. split.
  - apply (proj1 (X6_selector_through_imports parseInt_decimal (fun _ => OutOfFuel)
                    "p" Demo.b_go "io" "Writer")) with (pre := []) (post := []).
    + discriminate.
    + reflexivity.
    + cbn. apply not_elem_of_nil.
  - apply (proj1 (proj2 (X6_selector_through_imports parseInt_decimal
                           (fun _ => OutOfFuel) "p" Demo.b_go "os" "File"))).
    + discriminate.
    + cbn. intros Hin. apply elem_of_cons in Hin as [Hin|Hin]; [discriminate Hin |].
      by apply elem_of_nil in Hin.
Defined.

(* ===================================================================== *)
(** * Further properties: function signatures *)
(* ===================================================================== *)

Section Signature.

Variable lower : ast.Expr -> outcome Type_.

Lemma isVariadicAfter_orb f v : isVariadicAfter f v = v || isEllipsisField f.
Proof.
  unfold isVariadicAfter, isEllipsisField.
  destruct (ast.Field_Type f); by rewrite ?orb_false_r, ?orb_true_r.
Qed.

Lemma slotsOf_named f : ast.Field_Names f <> [] -> slotsOf f = length (ast.Field_Names f).
Proof. unfold slotsOf. destruct (ast.Field_Names f); [done | simpl; lia]. Qed.

Lemma NumSlots_cons f fields : NumSlots (f :: fields) = (slotsOf f + NumSlots fields)%nat.
Proof. reflexivity. Qed.

(** The types and the flag a successful run of the loop produces. *)
Lemma generateTypeFromFieldList_loop_types fields names types i v types' v' :
  generateTypeFromFieldList_loop lower fields names types i v = Ok (types', v') ->
  v' = v || existsb isEllipsisField fields /\
  exists ts,
    Forall2 (fun f t => lower (typExprOf f) = Ok t) fields ts /\
    TypeField_Type <$> types' =
      (TypeField_Type <$> types) ++
      concat (zip_with (fun f t => replicate (slotsOf f) t) fields ts).
Proof.
  revert types i v. induction fields as [|f fields IH]; intros types i v H.
  - injection H as <- <-. split; [by rewrite orb_false_r |].
    exists []. split; [constructor | by rewrite app_nil_r].
  - rewrite generateTypeFromFieldList_loop_cons in H.
    apply bind_Ok in H as (typ & Htyp & H).
    assert (Hrest : exists types1 i1,
              generateTypeFromFieldList_loop lower fields names types1 i1
                (isVariadicAfter f v) = Ok (types', v') /\
              TypeField_Type <$> types1 =
                (TypeField_Type <$> types) ++ replicate (slotsOf f) typ).
    { case_bool_decide as Hns.
      - apply bind_Ok in H as (name & _ & H). eexists _, _. split; [exact H |].
        unfold slotsOf. rewrite Hns, fmap_app. reflexivity.
      - apply bind_Ok in H as ([types1 i1] & Hnamed & H).
        apply appendNamed_Ok in Hnamed as (_ & _ & Htypes).
        eexists _, _. split; [exact H |]. by rewrite slotsOf_named. }
    destruct Hrest as (types1 & i1 & H1 & Htypes1).
    apply IH in H1 as (-> & ts & Hts & Htypes').
    split.
    + rewrite isVariadicAfter_orb. cbn [existsb]. by rewrite orb_assoc.
    + exists (typ :: ts). split; [by constructor |].
      rewrite Htypes', Htypes1, <- app_assoc. reflexivity.
Qed.

(** X7: in a successful lowering of a function signature, every named field
    of a parameter entry carries the lowering of the entry's type, where the
    type of an entry written with an ellipsis is the element after the
    ellipsis, not a slice of it; the signature is variadic exactly when some
    parameter entry, at any position, is written with an ellipsis.  An
    ellipsis among the results is accepted the same way and leaves the flag
    as it is. *)
Theorem X7_signature_types_and_variadic (Params : list ast.Field)
  (Results : option (list ast.Field)) (ft : FuncType) :
  generateTypeFromFuncType lower Params Results = Ok ft ->
  FuncType_IsVariadic ft = existsb isEllipsisField Params
  /\ (exists ts,
        Forall2 (fun f t => lower (typExprOf f) = Ok t) Params ts /\
        TypeField_Type <$> FuncType_Inputs ft =
          concat (zip_with (fun f t => replicate (slotsOf f) t) Params ts))
  /\ (exists ts,
        Forall2 (fun f t => lower (typExprOf f) = Ok t) (default [] Results) ts /\
        TypeField_Type <$> FuncType_Outputs ft =
          concat (zip_with (fun f t => replicate (slotsOf f) t) (default [] Results) ts)).
Proof.
  unfold generateTypeFromFuncType. intros H.
  apply bind_Ok in H as ([params v] & Hparams & H).
  apply bind_Ok in H as (results & Hresults & H). injection H as <-.
  cbn [FuncType_IsVariadic FuncType_Inputs FuncType_Outputs].
  unfold generateTypeFromFieldList in Hparams.
  apply generateTypeFromFieldList_loop_types in Hparams as (-> & ts & Hts & Htypes).
  split; [reflexivity |]. split; [by exists ts |].
  destruct Results as [List|].
  - apply bind_Ok in Hresults as ([results' v'] & Hres & H). injection H as <-.
    unfold generateTypeFromFieldList in Hres.
    apply generateTypeFromFieldList_loop_types in Hres as (_ & ts' & Hts' & Htypes').
    by exists ts'.
  - injection Hresults as <-. exists []. split; [constructor | reflexivity].
Qed.

Lemma sameFailure_bind {A B C} (m : outcome A) (k : A -> outcome B) (o : outcome C) :
  is_Ok m = false -> sameFailure o m -> sameFailure o (m ≫= k).
Proof. destruct m; try done. Qed.

(** A run of the loop that fails, with names enough for its entries, fails
    as the lowering of the type of one of its entries does. *)
Lemma generateTypeFromFieldList_loop_failure fields names types i v :
  (i + NumSlots fields <= length names)%nat ->
  is_Ok (generateTypeFromFieldList_loop lower fields names types i v) = false ->
  exists f, f ∈ fields /\
            sameFailure (lower (typExprOf f))
              (generateTypeFromFieldList_loop lower fields names types i v).
Proof.
  revert types i v. induction fields as [|f fields IH]; intros types i v Hle Hfail.
  - discriminate Hfail.
  - rewrite NumSlots_cons in Hle.
    rewrite generateTypeFromFieldList_loop_cons in Hfail |- *.
    destruct (lower (typExprOf f)) as [typ| | |] eqn:Htyp;
      try (exists f; split; [by left | by rewrite Htyp]).
    cbn [mbind outcome_bind] in Hfail |- *.
    case_bool_decide as Hns.
    + unfold slotsOf in Hle. rewrite Hns in Hle. cbn in Hle.
      destruct (lookup_lt_is_Some_2 names i ltac:(lia)) as [name Hname].
      unfold index in Hfail |- *. rewrite Hname in Hfail |- *.
      cbn [mbind outcome_bind] in Hfail |- *.
      edestruct IH as (f' & Hin & Hsame); [| exact Hfail |]; [lia |].
      exists f'. split; [by right | exact Hsame].
    + rewrite slotsOf_named in Hle by done.
      pose proof (appendNamed_progress (ast.Field_Names f) names typ types i
                    ltac:(lia)) as Hp.
      apply is_Ok_true in Hp as [[types1 i1] Hnamed].
      rewrite Hnamed in Hfail |- *. cbn [mbind outcome_bind] in Hfail |- *.
      apply appendNamed_Ok in Hnamed as (-> & _ & _).
      edestruct IH as (f' & Hin & Hsame); [| exact Hfail |]; [lia |].
      exists f'. split; [by right | exact Hsame].
Qed.

(** X8: the lowering of a function signature has no failure of its own: when
    it does not return a signature, it fails exactly as the lowering of the
    type of one of its parameter or result entries does.  The names computed
    by [getNamesFromExpr] are as many as the loop reads, so the reads
    [names[i]] never leave the slice. *)
Theorem X8_signature_failure_is_an_entry_failure (Params : list ast.Field)
  (Results : option (list ast.Field)) :
  is_Ok (generateTypeFromFuncType lower Params Results) = false ->
  exists f, f ∈ Params ++ default [] Results /\
            is_Ok (lower (typExprOf f)) = false /\
            sameFailure (lower (typExprOf f))
              (generateTypeFromFuncType lower Params Results).
Proof.
  assert (Hnot : forall {A B} (m : outcome A) (m' : outcome B),
             sameFailure m m' -> is_Ok m = false).
  { intros A B m m'. by destruct m, m'. }
  unfold generateTypeFromFuncType, generateTypeFromFieldList,
    getInputNamesFromAst, getOutputNamesFromAst.
  intros Hfail.
  destruct (generateTypeFromFieldList_loop lower Params
              (getNamesFromExpr Params "arg") [] 0 false) as [[params v]| | |] eqn:Hp.
  - cbn [mbind outcome_bind] in Hfail |- *.
    destruct Results as [List|]; [| discriminate Hfail].
    destruct (generateTypeFromFieldList_loop lower List
                (getNamesFromExpr List "out") [] 0 false) as [[results v']| | |] eqn:Hr;
      [discriminate Hfail | | |].
    all: edestruct (generateTypeFromFieldList_loop_failure List
                      (getNamesFromExpr List "out") [] 0 false) as (f & Hin & Hsame);
      [rewrite getNamesFromExpr_spec, spec_fieldNames_length; cbn; lia
      | by rewrite Hr |].
    all: exists f; split; [apply elem_of_app; by right |].
    all: split; [by eapply Hnot |].
    all: by rewrite Hr in Hsame.
  - edestruct (generateTypeFromFieldList_loop_failure Params
                 (getNamesFromExpr Params "arg") [] 0 false) as (f & Hin & Hsame);
      [rewrite getNamesFromExpr_spec, spec_fieldNames_length; cbn; lia
      | by rewrite Hp |].
    exists f. split; [apply elem_of_app; by left |]. split; [by eapply Hnot |].
    by rewrite Hp in Hsame.
  - edestruct (generateTypeFromFieldList_loop_failure Params
                 (getNamesFromExpr Params "arg") [] 0 false) as (f & Hin & Hsame);
      [rewrite getNamesFromExpr_spec, spec_fieldNames_length; cbn; lia
      | by rewrite Hp |].
    exists f. split; [apply elem_of_app; by left |]. split; [by eapply Hnot |].
    by rewrite Hp in Hsame.
  - edestruct (generateTypeFromFieldList_loop_failure Params
                 (getNamesFromExpr Params "arg") [] 0 false) as (f & Hin & Hsame);
      [rewrite getNamesFromExpr_spec, spec_fieldNames_length; cbn; lia
      | by rewrite Hp |].
    exists f. split; [apply elem_of_app; by left |]. split; [by eapply Hnot |].
    by rewrite Hp in Hsame.
Qed.

End Signature.

(** X7 on [func(prefix string, xs ...string)]: two parameters of type
    [string], and a variadic signature. *)
Lemma X7_signature_types_and_variadic_witness :
  let lower e := generateTypeFromExpr parseInt_decimal (fun _ => OutOfFuel) e "p" ∅ in
  let Params := [ast.mkField ["prefix"] (ast.Ident "string");
                 ast.mkField ["xs"] (ast.Ellipsis (ast.Ident "string"))] in
  exists ft,
    generateTypeFromFuncType lower Params None = Ok ft /\
    FuncType_IsVariadic ft = true /\
    TypeField_Type <$> FuncType_Inputs ft =
      [Type_of_Primitive (mkPrimitiveType PrimitiveKindString);
       Type_of_Primitive (mkPrimitiveType PrimitiveKindString)].
Proof.
  intros lower Params.
  destruct (generateTypeFromFuncType lower Params None) as [ft| | |] eqn:H;
    try (vm_compute in H; discriminate H).
  exists ft. split; [reflexivity |].
  destruct (X7_signature_types_and_variadic lower Params None ft H)
    as (Hv & (ts & Hts & Htypes) & _).
  split; [exact Hv |]. rewrite Htypes.
  apply Forall2_cons_inv_l in Hts as (t1 & ts1 & Ht1 & Hts & ->).
  apply Forall2_cons_inv_l in Hts as (t2 & ts2 & Ht2 & Hts & ->).
  apply Forall2_nil_inv_l in Hts as ->.
  vm_compute in Ht1. injection Ht1 as <-.
  vm_compute in Ht2. injection Ht2 as <-.
  reflexivity.
Defined.

(** X8 on [func(ch (int))], whose parameter type has no case in the
    lowering: the signature fails with the error of that type. *)
Lemma X8_signature_failure_is_an_entry_failure_witness :
  let lower e := generateTypeFromExpr parseInt_decimal (fun _ => OutOfFuel) e "p" ∅ in
  let Params := [ast.mkField ["ch"] (ast.OtherExpr "(int)")] in
  generateTypeFromFuncType lower Params None
    = Err (UnrecognizedType (ast.OtherExpr "(int)")).
Proof.
  intros lower Params.
  destruct (X8_signature_failure_is_an_entry_failure lower Params None)
    as (f & Hin & _ & Hsame).
  - reflexivity.
  - apply elem_of_app in Hin as [Hin|Hin]; [| by apply elem_of_nil in Hin].
    apply list_elem_of_singleton in Hin as ->.
    destruct (generateTypeFromFuncType lower Params None) as [ft|e| |];
      cbn in Hsame; try done.
    by rewrite Hsame.
Defined.

(* ===================================================================== *)
(** * Further properties: expressions that embed no interface *)
(* ===================================================================== *)

Lemma agree_bind {A B} (m m' : outcome A) (k k' : A -> outcome B) :
  agree m m' -> (forall a, m = Ok a -> agree (k a) (k' a)) ->
  agree (m ≫= k) (m' ≫= k').
Proof.
  intros [<- Hok] Hk. destruct m as [a| | |]; try done.
  by apply Hk.
Qed.

Lemma agree_Ok {A} (a : A) : agree (Ok a) (Ok a).
Proof. done. Qed.

Lemma agree_unwrap {A B} (m m' : outcome A) (wrap : A -> B) :
  (forall a a', wrap a = wrap a' -> a = a') ->
  agree (m ≫= fun a => Ok (wrap a)) (m' ≫= fun a => Ok (wrap a)) ->
  agree m m'.
Proof.
  intros Hinj [Heq Hok].
  destruct m as [a|e|p|], m' as [a'|e'|p'|]; cbn in Heq, Hok; try done.
  - injection Heq as Heq. apply Hinj in Heq as ->. done.
  - injection Heq as ->. done.
Qed.

Section Agree.

Variables resolve resolve' : list TypeSpec -> outcome (list Type_).
Variable packagePath : string.
Variable importMap : gmap string string.
Variables lower lower' : ast.Expr -> outcome Type_.

Lemma generateTypeFromFieldList_loop_agree fields names types i v :
  Forall (fun f => agree (lower (typExprOf f)) (lower' (typExprOf f))) fields ->
  (i + NumSlots fields <= length names)%nat ->
  agree (generateTypeFromFieldList_loop lower fields names types i v)
        (generateTypeFromFieldList_loop lower' fields names types i v).
Proof.
  revert types i v. induction fields as [|f fields IH]; intros types i v Hall Hle.
  - apply agree_Ok.
  - apply Forall_cons in Hall as [Hf Hall]. rewrite NumSlots_cons in Hle.
    rewrite !generateTypeFromFieldList_loop_cons.
    apply agree_bind; [exact Hf |]. intros typ _.
    case_bool_decide as Hns.
    + unfold slotsOf in Hle. rewrite Hns in Hle. cbn in Hle.
      destruct (lookup_lt_is_Some_2 names i ltac:(lia)) as [name Hname].
      unfold index. rewrite Hname. cbn [mbind outcome_bind].
      apply IH; [done | lia].
    + rewrite slotsOf_named in Hle by done.
      pose proof (appendNamed_progress (ast.Field_Names f) names typ types i
                    ltac:(lia)) as Hp.
      apply is_Ok_true in Hp as [[types1 i1] Hnamed]. rewrite Hnamed.
      cbn [mbind outcome_bind].
      apply appendNamed_Ok in Hnamed as (-> & _ & _).
      apply IH; [done | lia].
Qed.

Lemma generateTypeFromFuncType_agree Params Results :
  Forall (fun f => agree (lower (typExprOf f)) (lower' (typExprOf f))) Params ->
  Forall (fun f => agree (lower (typExprOf f)) (lower' (typExprOf f)))
         (default [] Results) ->
  agree (generateTypeFromFuncType lower Params Results)
        (generateTypeFromFuncType lower' Params Results).
Proof.
  intros HP HR.
  unfold generateTypeFromFuncType, generateTypeFromFieldList,
    getInputNamesFromAst, getOutputNamesFromAst.
  apply agree_bind.
  - apply generateTypeFromFieldList_loop_agree; [done |].
    rewrite getNamesFromExpr_spec, spec_fieldNames_length. cbn. lia.
  - intros [params v] _. apply agree_bind; [| intros results _; apply agree_Ok].
    destruct Results as [List|]; [| apply agree_Ok].
    apply agree_bind; [| intros [results v'] _; apply agree_Ok].
    apply generateTypeFromFieldList_loop_agree; [done |].
    rewrite getNamesFromExpr_spec, spec_fieldNames_length. cbn. lia.
Qed.

Lemma generateTypeFromStructType_agree Fields :
  Forall (fun f => agree (lower (ast.Field_Type f)) (lower' (ast.Field_Type f)))
         (default [] Fields) ->
  agree (generateTypeFromStructType lower Fields)
        (generateTypeFromStructType lower' Fields).
Proof.
  intros Hall. destruct Fields as [List|]; [| apply agree_Ok].
  cbn in Hall. unfold generateTypeFromStructType.
  apply agree_bind; [| intros fields _; apply agree_Ok].
  generalize (@nil TypeField).
  induction List as [|f List IH]; intros fields; [apply agree_Ok |].
  apply Forall_cons in Hall as [Hf Hall].
  cbn [generateTypeFromStructType_loop].
  apply agree_bind; [| intros fields1 _; by apply IH].
  clear IH Hall. revert fields.
  induction (ast.Field_Names f) as [|n ns IHn]; intros fields; [apply agree_Ok |].
  cbn [generateTypeFromStructType_names].
  apply agree_bind; [exact Hf |]. intros t _. apply IHn.
Qed.

Lemma generateTypeFromInterfaceType_agree Methods :
  Forall (memberAgrees lower lower') (default [] Methods) ->
  agree (generateTypeFromInterfaceType resolve packagePath importMap lower Methods)
        (generateTypeFromInterfaceType resolve' packagePath importMap lower' Methods).
Proof.
  intros Hall. destruct Methods as [List|]; [| apply agree_Ok].
  cbn in Hall. unfold generateTypeFromInterfaceType.
  apply agree_bind; [| intros methods _; apply agree_Ok].
  generalize (@nil InterfaceTypeMethod).
  induction List as [|f List IH]; intros methods; [apply agree_Ok |].
  apply Forall_cons in Hall as [Hf Hall].
  cbn [generateTypeFromInterfaceType_loop].
  apply agree_bind; [| intros methods1 _; by apply IH].
  unfold memberAgrees in Hf. unfold generateTypeFromInterfaceType_member.
  destruct (ast.Field_Type f); try done; try apply agree_Ok.
  destruct Hf as [Hnames Hfunc].
  destruct (ast.Field_Names f) as [|n ns]; [done |].
  cbn [index lookup list_lookup mbind outcome_bind].
  apply agree_bind; [exact Hfunc |]. intros funcType _. apply agree_Ok.
Qed.

End Agree.

Section NoEmbedding.

Variable parseInt : string -> option Z.
Variables resolve resolve' : list TypeSpec -> outcome (list Type_).
Variable pkg : string.
Variable im : gmap string string.

Local Abbreviation lower := (fun e => generateTypeFromExpr parseInt resolve e pkg im).
Local Abbreviation lower' := (fun e => generateTypeFromExpr parseInt resolve' e pkg im).
Local Abbreviation alike := (lowersAlike lower lower').

Lemma lowersAlike_typExprOf fields :
  onFields alike fields ->
  forallb (fun f => noEmbedding (ast.Field_Type f)) fields = true ->
  Forall (fun f => agree (lower (typExprOf f)) (lower' (typExprOf f))) fields.
Proof.
  unfold onFields. intros Hall Hno. rewrite forallb_forall in Hno.
  rewrite Forall_forall in Hall |- *. intros f Hin.
  specialize (Hall f Hin). specialize (Hno f (proj1 (list_elem_of_In _ _) Hin)).
  destruct Hall as [Hf Helt]. unfold typExprOf.
  destruct (ast.Field_Type f); try (by apply Hf). by apply Helt.
Qed.

Lemma lowersAlike_Field_Type fields :
  onFields alike fields ->
  forallb (fun f => noEmbedding (ast.Field_Type f)) fields = true ->
  Forall (fun f => agree (lower (ast.Field_Type f)) (lower' (ast.Field_Type f))) fields.
Proof.
  unfold onFields. intros Hall Hno. rewrite forallb_forall in Hno.
  rewrite Forall_forall in Hall |- *. intros f Hin.
  apply (Hall f Hin). apply Hno. by apply list_elem_of_In.
Qed.

Lemma Type_of_Func_inj a a' : Type_of_Func a = Type_of_Func a' -> a = a'.
Proof. by intros [= ->]. Qed.

Lemma lowersAlike_members fields :
  onFields alike fields ->
  forallb (noEmbedding_member noEmbedding) fields = true ->
  Forall (memberAgrees lower lower') fields.
Proof.
  unfold onFields. intros Hall Hno. rewrite forallb_forall in Hno.
  rewrite Forall_forall in Hall |- *. intros f Hin.
  specialize (Hall f Hin). specialize (Hno f (proj1 (list_elem_of_In _ _) Hin)).
  destruct Hall as [Hf _]. unfold memberAgrees. unfold noEmbedding_member in Hno.
  destruct (ast.Field_Type f) eqn:Heq; try done.
  apply andb_true_iff in Hno as [Hnames Hno]. split.
  - apply negb_true_iff, bool_decide_eq_false in Hnames. exact Hnames.
  - specialize (Hf Hno). cbn [generateTypeFromExpr] in Hf.
    eapply agree_unwrap; [apply Type_of_Func_inj | exact Hf].
Qed.

Lemma generateTypeFromExpr_lowersAlike e : alike e.
Proof.
  induction e as [Name|X Sel IHX|X IHX|Len Elt IHLen IHElt|Params Results IHP IHR
                 |Key Value IHK IHV|Dir Value IHV|Fields IHF|Methods IHM
                 |Elt IHElt|Kind Value|shape] using Expr_induction;
    (split; [intros Hno | try exact I]).
  - apply agree_Ok.
  - cbn [generateTypeFromExpr]. unfold generateTypeFromSelectorExpr.
    destruct X; try done. by destruct (im !! Name).
  - cbn [generateTypeFromExpr]. unfold generateTypeFromStarExpr.
    apply agree_bind; [| intros typ _; apply agree_Ok].
    apply agree_bind; [by apply IHX | intros elem _; apply agree_Ok].
  - cbn [generateTypeFromExpr]. unfold generateTypeFromArrayType.
    destruct Len as [len|].
    + destruct len; try done. destruct (parseInt Value); [| done].
      apply agree_bind; [by apply IHElt | intros elem _; apply agree_Ok].
    + apply agree_bind; [by apply IHElt | intros elem _; apply agree_Ok].
  - cbn [generateTypeFromExpr]. cbn [noEmbedding] in Hno.
    apply andb_true_iff in Hno as [HnoP HnoR].
    apply agree_bind; [| intros typ _; apply agree_Ok].
    apply generateTypeFromFuncType_agree; [by apply lowersAlike_typExprOf |].
    destruct Results as [List|]; [by apply lowersAlike_typExprOf | constructor].
  - cbn [generateTypeFromExpr]. unfold generateTypeFromMapType.
    cbn [noEmbedding] in Hno. apply andb_true_iff in Hno as [HnoK HnoV].
    apply agree_bind; [| intros typ _; apply agree_Ok].
    apply agree_bind; [by apply IHK |]. intros keyDef _.
    apply agree_bind; [by apply IHV | intros valDef _; apply agree_Ok].
  - cbn [generateTypeFromExpr]. unfold generateTypeFromChanType.
    apply agree_bind; [| intros typ _; apply agree_Ok].
    apply agree_bind; [by apply IHV |]. intros c _.
    repeat case_match; apply agree_Ok.
  - cbn [generateTypeFromExpr].
    apply agree_bind; [| intros typ _; apply agree_Ok].
    apply generateTypeFromStructType_agree.
    destruct Fields as [List|]; [by apply lowersAlike_Field_Type | constructor].
  - cbn [generateTypeFromExpr].
    apply agree_bind; [| intros typ _; apply agree_Ok].
    apply generateTypeFromInterfaceType_agree.
    destruct Methods as [List|]; [by apply lowersAlike_members | constructor].
  - done.
  - apply IHElt.
  - done.
  - done.
Qed.

End NoEmbedding.

(** X9: the lowering of an expression in which no interface embeds another
    one, and the methods of interfaces have names, never calls the entry
    point: its outcome is the same whatever the nested resolution would
    answer, in particular for every budget, and it is a type or one of the
    errors the lowering makes itself (unrecognized type, expr, identifier or
    array length), never a panic and never an error about a package, a
    file or a declaration.  A named type inside such an expression is left
    as a reference: its declaration is not looked up. *)
Theorem X9_lowering_without_embedding (parseInt : string -> option Z)
  (e : ast.Expr) (pkg : string) (im : gmap string string) :
  noEmbedding e = true ->
  (forall resolve resolve',
      generateTypeFromExpr parseInt resolve e pkg im =
      generateTypeFromExpr parseInt resolve' e pkg im)
  /\ (forall resolve, okOrErr (generateTypeFromExpr parseInt resolve e pkg im))
  /\ (forall GetPackageSourceFiles os_Open parser_ParseFile choose fuel,
        lowerExpr parseInt GetPackageSourceFiles os_Open parser_ParseFile choose
          fuel e pkg im =
        generateTypeFromExpr parseInt (fun _ => OutOfFuel) e pkg im).
Proof.
  intros Hno.
  assert (H : forall resolve resolve',
             agree (generateTypeFromExpr parseInt resolve e pkg im)
                   (generateTypeFromExpr parseInt resolve' e pkg im)).
  { intros resolve resolve'.
    by apply (generateTypeFromExpr_lowersAlike parseInt resolve resolve' pkg im e). }
  split; [intros resolve resolve'; apply H |].
  split; [intros resolve; apply (H resolve resolve) |].
  intros. unfold lowerExpr. apply H.
Qed.

(** X9 on [map[string][]*T]: a map to slices of pointers to the type [T] of
    the package, which the lowering does not look up. *)
Lemma X9_lowering_without_embedding_witness :
  generateTypeFromExpr parseInt_decimal (fun _ => Panic NilDereference)
    (ast.MapType (ast.Ident "string")
       (ast.ArrayType None (ast.StarExpr (ast.Ident "T")))) "p" ∅ =
  Ok (Type_of_Map (mkMapType
        (Type_of_Primitive (mkPrimitiveType PrimitiveKindString))
        (Type_of_Slice (mkSliceType (Type_of_Ptr (mkPtrType
           (Type_of_Qual (mkQualType "p" "" "T")))))))).
Proof.
  destruct (X9_lowering_without_embedding parseInt_decimal
              (ast.MapType (ast.Ident "string")
                 (ast.ArrayType None (ast.StarExpr (ast.Ident "T")))) "p" ∅)
    as (Hsame & _ & _); [reflexivity |].
  rewrite (Hsame (fun _ => Panic NilDereference) (fun _ => OutOfFuel)). reflexivity.
Defined.

(* ===================================================================== *)
(** * Further properties: the fields of a struct *)
(* ===================================================================== *)

Section StructFields.

Variable lower : ast.Expr -> outcome Type_.

Lemma generateTypeFromStructType_names_Ok e t fieldNames fields :
  lower e = Ok t ->
  generateTypeFromStructType_names lower e fieldNames fields =
    Ok (fields ++ ((fun name => mkTypeField name t) <$> fieldNames)).
Proof.
  intros He. revert fields.
  induction fieldNames as [|n ns IH]; intros fields.
  - cbn. by rewrite app_nil_r.
  - cbn [generateTypeFromStructType_names]. rewrite He. cbn [mbind outcome_bind].
    rewrite IH, <- app_assoc. reflexivity.
Qed.

Lemma generateTypeFromStructType_names_inv e fieldNames fields fields' :
  fieldNames <> [] ->
  generateTypeFromStructType_names lower e fieldNames fields = Ok fields' ->
  exists t, lower e = Ok t.
Proof.
  destruct fieldNames as [|n ns]; [done |]. intros _ H.
  cbn [generateTypeFromStructType_names] in H.
  apply bind_Ok in H as (t & Ht & _). eauto.
Qed.

Lemma generateTypeFromStructType_loop_fields List fields fields' :
  generateTypeFromStructType_loop lower List fields = Ok fields' <->
  exists ts,
    Forall2 (fun f t => ast.Field_Names f <> [] -> lower (ast.Field_Type f) = Ok t)
            List ts /\
    fields' = fields ++ structFields List ts.
Proof.
  revert fields. induction List as [|f List IH]; intros fields.
  - cbn. split.
    + intros [= <-]. exists []. split; [constructor |].
      unfold structFields. cbn. by rewrite app_nil_r.
    + intros (ts & Hall & ->). apply Forall2_nil_inv_l in Hall as ->.
      unfold structFields. cbn. by rewrite app_nil_r.
  - cbn [generateTypeFromStructType_loop]. split.
    + intros H. apply bind_Ok in H as (fields1 & Hnames & H).
      apply IH in H as (ts & Hall & ->).
      destruct (decide (ast.Field_Names f = [])) as [Hno|Hsome].
      * rewrite Hno in Hnames. cbn in Hnames. injection Hnames as <-.
        exists (Type_zero :: ts). split; [by constructor |].
        unfold structFields. cbn. by rewrite Hno.
      * destruct (generateTypeFromStructType_names_inv _ _ _ _ Hsome Hnames)
          as [t Ht].
        rewrite (generateTypeFromStructType_names_Ok _ _ _ _ Ht) in Hnames.
        injection Hnames as <-.
        exists (t :: ts). split; [by constructor |].
        unfold structFields. cbn. by rewrite <- app_assoc.
    + intros (ts & Hall & ->).
      apply Forall2_cons_inv_l in Hall as (t & ts' & Ht & Hall & ->).
      destruct (decide (ast.Field_Names f = [])) as [Hno|Hsome].
      * rewrite Hno. cbn [generateTypeFromStructType_names mbind outcome_bind].
        apply IH. exists ts'. split; [done |].
        unfold structFields. cbn. by rewrite Hno.
      * rewrite (generateTypeFromStructType_names_Ok _ _ _ _ (Ht Hsome)).
        cbn [mbind outcome_bind]. apply IH. exists ts'. split; [done |].
        unfold structFields. cbn. by rewrite <- app_assoc.
Qed.

Lemma structFields_names List ts :
  length List = length ts ->
  TypeField_Name <$> structFields List ts = concat (ast.Field_Names <$> List).
Proof.
  revert ts. induction List as [|f List IH]; intros [|t ts] Hlen; try done.
  unfold structFields in *. cbn. rewrite fmap_app, IH by (cbn in Hlen; lia).
  f_equal. rewrite <- list_fmap_compose. by apply list_fmap_id.
Qed.

End StructFields.

(** X10: the lowering of a struct returns a struct exactly when the type of
    every entry that has names lowers to a type; its fields are then one per
    name, in the order of the source, each with the lowered type of its
    entry, so that the names of the fields are the names of the entries.
    The type of an ellipsis entry is lowered as it stands, not as its
    element. *)
Theorem X10_struct_fields (lower : ast.Expr -> outcome Type_)
  (List : list ast.Field) (st : StructType) :
  (generateTypeFromStructType lower (Some List) = Ok st <->
   exists ts,
     Forall2 (fun f t => ast.Field_Names f <> [] -> lower (ast.Field_Type f) = Ok t)
             List ts /\
     StructType_Fields st = structFields List ts)
  /\ (generateTypeFromStructType lower (Some List) = Ok st ->
      TypeField_Name <$> StructType_Fields st = concat (ast.Field_Names <$> List)).
Proof.
  assert (H : generateTypeFromStructType lower (Some List) = Ok st <->
              exists ts,
                Forall2 (fun f t => ast.Field_Names f <> [] ->
                                    lower (ast.Field_Type f) = Ok t) List ts /\
                StructType_Fields st = structFields List ts).
  { unfold generateTypeFromStructType. destruct st as [fields]. cbn. split.
    - intros H. apply bind_Ok in H as (fields' & Hloop & [= <-]).
      by apply generateTypeFromStructType_loop_fields in Hloop.
    - intros Hts.
      apply (generateTypeFromStructType_loop_fields lower List [] fields) in Hts.
      by rewrite Hts. }
  split; [exact H |].
  intros Hok. apply H in Hok as (ts & Hall & ->).
  apply structFields_names. by eapply Forall2_length.
Qed.

(** X10 on [struct { a, b int; T; c string }]: three fields; the embedded
    [T] gives none. *)
Lemma X10_struct_fields_witness :
  TypeField_Name <$>
    StructType_Fields
      (mkStructType
         [mkTypeField "a" (Type_of_Primitive (mkPrimitiveType PrimitiveKindInt));
          mkTypeField "b" (Type_of_Primitive (mkPrimitiveType PrimitiveKindInt));
          mkTypeField "c" (Type_of_Primitive (mkPrimitiveType PrimitiveKindString))]) =
  ["a"; "b"; "c"].
Proof.
  apply (proj2 (X10_struct_fields
                  (fun e => generateTypeFromExpr parseInt_decimal (fun _ => OutOfFuel)
                              e "p" ∅)
                  [ast.mkField ["a"; "b"] (ast.Ident "int");
                   ast.mkField [] (ast.Ident "T");
                   ast.mkField ["c"] (ast.Ident "string")] _)).
  reflexivity.
Defined.

(* ===================================================================== *)
(** * Further properties: the members of an interface *)
(* ===================================================================== *)

Section InterfaceMembers.

Variable resolve : list TypeSpec -> outcome (list Type_).
Variable packagePath : string.
Variable importMap : gmap string string.
Variable lower : ast.Expr -> outcome Type_.

Local Abbreviation member :=
  (generateTypeFromInterfaceType_member resolve packagePath importMap lower).
Local Abbreviation loop :=
  (generateTypeFromInterfaceType_loop resolve packagePath importMap lower).

Lemma generateTypeFromInterfaceType_member_method f methods methods' :
  isFuncMember f = true ->
  member f methods = Ok methods' <->
  exists m, methodOf lower f m /\ methods' = methods ++ [m].
Proof.
  unfold isFuncMember, generateTypeFromInterfaceType_member, methodOf.
  destruct (ast.Field_Type f) as [| | | |Params Results| | | | | | |]; try done.
  intros _. split.
  - intros H. apply bind_Ok in H as (name & Hname & H).
    apply bind_Ok in H as (funcType & Hfunc & [= <-]).
    apply index_Ok in Hname.
    exists (mkInterfaceTypeMethod name funcType). cbn.
    split; [| done]. split; [| done].
    destruct (ast.Field_Names f); [done |]. cbn in Hname |- *. congruence.
  - intros ([name funcType] & [Hname Hfunc] & ->).
    cbn [InterfaceTypeMethod_Name InterfaceTypeMethod_Func] in Hname, Hfunc.
    destruct (ast.Field_Names f) as [|n ns]; [done |].
    injection Hname as ->. unfold index. cbn [lookup list_lookup mbind outcome_bind].
    by rewrite Hfunc.
Qed.

Lemma generateTypeFromInterfaceType_member_skipped f methods :
  isFuncMember f = false -> isEmbeddedMember f = false ->
  member f methods = Ok methods.
Proof.
  unfold isFuncMember, isEmbeddedMember, generateTypeFromInterfaceType_member.
  by destruct (ast.Field_Type f).
Qed.

Lemma generateTypeFromInterfaceType_loop_methods List methods methods' :
  forallb (fun f => negb (isEmbeddedMember f)) List = true ->
  loop List methods = Ok methods' <->
  exists ms,
    Forall2 (methodOf lower) (List.filter isFuncMember List) ms /\
    methods' = methods ++ ms.
Proof.
  revert methods. induction List as [|f List IH]; intros methods Hno.
  - cbn. split.
    + intros [= <-]. exists []. split; [constructor | by rewrite app_nil_r].
    + intros (ms & Hall & ->). apply Forall2_nil_inv_l in Hall as ->.
      by rewrite app_nil_r.
  - cbn [forallb] in Hno. apply andb_true_iff in Hno as [Hf Hno].
    apply negb_true_iff in Hf.
    cbn [generateTypeFromInterfaceType_loop List.filter].
    destruct (isFuncMember f) eqn:Hfunc.
    + split.
      * intros H. apply bind_Ok in H as (methods1 & Hmember & H).
        apply generateTypeFromInterfaceType_member_method in Hmember
          as (m & Hm & ->); [| done].
        apply IH in H as (ms & Hall & ->); [| done].
        exists (m :: ms). split; [by constructor |]. by rewrite <- app_assoc.
      * intros (ms & Hall & ->).
        apply Forall2_cons_inv_l in Hall as (m & ms' & Hm & Hall & ->).
        assert (Hmember : member f methods = Ok (methods ++ [m])).
        { apply generateTypeFromInterfaceType_member_method; eauto. }
        rewrite Hmember. cbn [mbind outcome_bind].
        apply IH; [done |]. exists ms'. split; [done |]. by rewrite <- app_assoc.
    + rewrite generateTypeFromInterfaceType_member_skipped by done.
      cbn [mbind outcome_bind]. by apply IH.
Qed.

End InterfaceMembers.

(** X11: an interface none of whose members names a type to embed lowers to
    an interface exactly when every member that is a method has a name and
    a signature that lowers; its methods are then those members, in the
    order of the source, each under its first name.  A member of any other
    shape leaves no trace, and the entry point is not called. *)
Theorem X11_interface_methods (resolve : list TypeSpec -> outcome (list Type_))
  (packagePath : string) (importMap : gmap string string)
  (lower : ast.Expr -> outcome Type_) (List : list ast.Field) (it : InterfaceType) :
  forallb (fun f => negb (isEmbeddedMember f)) List = true ->
  generateTypeFromInterfaceType resolve packagePath importMap lower (Some List) = Ok it
  <-> Forall2 (methodOf lower) (List.filter isFuncMember List) (InterfaceType_Methods it).
Proof.
  intros Hno. unfold generateTypeFromInterfaceType. destruct it as [methods]. cbn.
  split.
  - intros H. apply bind_Ok in H as (methods' & Hloop & [= <-]).
    apply generateTypeFromInterfaceType_loop_methods in Hloop as (ms & Hall & ->);
      done.
  - intros Hall.
    assert (Hloop : generateTypeFromInterfaceType_loop resolve packagePath importMap
                      lower List [] = Ok methods).
    { apply generateTypeFromInterfaceType_loop_methods; [done |]. by exists methods. }
    by rewrite Hloop.
Qed.

(** X11 on [interface { Read(p []byte) (n int); *T; Close() }]: the methods
    are Read and Close. *)
Lemma X11_interface_methods_witness :
  exists it,
    InterfaceTypeMethod_Name <$> InterfaceType_Methods it = ["Read"; "Close"] /\
    Forall2 (methodOf (fun e => generateTypeFromExpr parseInt_decimal
                                  (fun _ => OutOfFuel) e "p" ∅))
      (List.filter isFuncMember
         [ast.mkField ["Read"]
            (ast.FuncType [ast.mkField ["p"] (ast.ArrayType None (ast.Ident "byte"))]
                          (Some [ast.mkField ["n"] (ast.Ident "int")]));
          ast.mkField [] (ast.StarExpr (ast.Ident "T"));
          ast.mkField ["Close"] (ast.FuncType [] None)])
      (InterfaceType_Methods it).
Proof.
  eexists. split; [| apply (X11_interface_methods (fun _ => OutOfFuel) "p" ∅)].
  2: reflexivity. 2: reflexivity. reflexivity.
Defined.

(** X12: two members make the lowering of an interface panic once the
    members before them are lowered: a method without a name (the read of
    its first name is out of range), and a member [X.Sel] whose [X] is not
    an identifier (the type assertion on [X] fails), although the same
    expression outside an interface is an error that is returned. *)
Theorem X12_interface_member_panics (parseInt : string -> option Z)
  (resolve : list TypeSpec -> outcome (list Type_))
  (pre post : list ast.Field) (pkg : string) (im : gmap string string) :
  is_Ok (generateTypeFromExpr parseInt resolve (ast.InterfaceType (Some pre)) pkg im)
    = true ->
  (forall Params Results,
      generateTypeFromExpr parseInt resolve
        (ast.InterfaceType (Some (pre ++ ast.mkField [] (ast.FuncType Params Results)
                                      :: post))) pkg im
      = Panic IndexOutOfRange)
  /\ (forall names X Sel,
        (forall Name, X <> ast.Ident Name) ->
        generateTypeFromExpr parseInt resolve
          (ast.InterfaceType (Some (pre ++ ast.mkField names (ast.SelectorExpr X Sel)
                                        :: post))) pkg im
        = Panic TypeAssertionFailed
        /\ generateTypeFromExpr parseInt resolve (ast.SelectorExpr X Sel) pkg im
           = Err (UnrecognizedExpr (ast.SelectorExpr X Sel))).
Proof.
  intros Hpre. cbn [generateTypeFromExpr] in Hpre |- *.
  unfold generateTypeFromInterfaceType in Hpre |- *.
  set (lower := fun e' => generateTypeFromExpr parseInt resolve e' pkg im) in *.
  destruct (generateTypeFromInterfaceType_loop resolve pkg im lower pre [])
    as [methods| | |] eqn:Hloop; try done.
  split.
  - intros Params Results.
    rewrite generateTypeFromInterfaceType_loop_app, Hloop. reflexivity.
  - intros names X Sel HX. split.
    + rewrite generateTypeFromInterfaceType_loop_app, Hloop.
      cbn. destruct X; try reflexivity. by destruct (HX Name).
    + unfold generateTypeFromSelectorExpr.
      destruct X; try reflexivity. by destruct (HX Name).
Qed.

(** X12 on [interface { M(); a.b.C }] and on [interface { M(); func() }]. *)
Lemma X12_interface_member_panics_witness :
  generateTypeFromExpr parseInt_decimal (fun _ => OutOfFuel)
    (ast.InterfaceType
       (Some ([ast.mkField ["M"] (ast.FuncType [] None)] ++
              ast.mkField [] (ast.FuncType [] None) :: []))) "p" ∅
  = Panic IndexOutOfRange
  /\ generateTypeFromExpr parseInt_decimal (fun _ => OutOfFuel)
       (ast.InterfaceType
          (Some ([ast.mkField ["M"] (ast.FuncType [] None)] ++
                 ast.mkField []
                   (ast.SelectorExpr (ast.SelectorExpr (ast.Ident "a") "b") "C")
                 :: []))) "p" ∅
     = Panic TypeAssertionFailed.
Proof.
  destruct (X12_interface_member_panics parseInt_decimal (fun _ => OutOfFuel)
              [ast.mkField ["M"] (ast.FuncType [] None)] [] "p" ∅)
    as [Hmethod Hselector]; [reflexivity |].
  split; [apply Hmethod |].
  apply (Hselector [] (ast.SelectorExpr (ast.Ident "a") "b") "C"). discriminate.
Defined.

(* ===================================================================== *)
(** * Further properties: the files of a package *)
(* ===================================================================== *)

Section ScanFiles.

Variable parseInt : string -> option Z.
Variable os_Open : string -> string + string.
Variable parser_ParseFile : string -> string -> string + ast.File.
Variable choose : ticket -> list string -> nat.
Variable resolve : list TypeSpec -> outcome (list Type_).

Local Abbreviation lower := (generateTypeFromExpr parseInt resolve).
Local Abbreviation parseAst := (parseAstFile os_Open parser_ParseFile).
Local Abbreviation scanS :=
  (scanSources parseInt os_Open parser_ParseFile choose resolve).

(** The scan of a list of files is the scan of its first part followed by
    the scan of the rest. *)
Lemma scanSources_app p l1 l2 k R M :
  scanS p (l1 ++ l2) k R M =
    ('(R1, M1) ← scanS p l1 k R M; scanS p l2 (k + length l1) R1 M1).
Proof.
  revert k R M. induction l1 as [|source l1 IH]; intros k R M.
  - cbn. by rewrite Nat.add_0_r.
  - cbn [app]. rewrite !scanSources_cons. case_bool_decide as Hsize.
    + apply size_empty_inv, leibniz_equiv in Hsize as ->.
      cbn. by rewrite scanSources_empty.
    + destruct (parseAst source) as [fa| | |]; try reflexivity.
      cbn [mbind outcome_bind].
      destruct (scanNames parseInt resolve fa p (generateImportMap p fa) _ R M)
        as [[R1 M1]| | |]; try reflexivity.
      cbn [mbind outcome_bind]. rewrite IH. cbn [length].
      by rewrite Nat.add_succ_r.
Qed.

(** Files that declare no [n] leave the scan for [n] where it was. *)
Lemma scanSources_skip p srcs k n M :
  Forall (fun source => exists fa, parseAst source = Ok fa /\
                                   getDeclarationByName fa n = None) srcs ->
  scanS p srcs k {[n]} M = Ok ({[n]}, M).
Proof.
  revert k. induction srcs as [|source rest IH]; intros k Hall; [reflexivity |].
  apply Forall_cons in Hall as [(fa & Hparse & Hdecl) Hall].
  rewrite scanSources_cons, bool_decide_eq_false_2
    by (rewrite size_singleton; lia).
  rewrite Hparse, elements_singleton, range_keys_singleton.
  cbn [mbind outcome_bind scanNames]. rewrite Hdecl. by apply IH.
Qed.

(** The scan for [n] stops in the first file that declares [n]. *)
Lemma scanSources_first p pre source post fa e n k M :
  Forall (fun source => exists fa, parseAst source = Ok fa /\
                                   getDeclarationByName fa n = None) pre ->
  parseAst source = Ok fa ->
  getDeclarationByName fa n = Some e ->
  scanS p (pre ++ source :: post) k {[n]} M =
    (t ← lower e p (generateImportMap p fa); Ok (∅, <[n := t]> M)).
Proof.
  intros Hpre Hparse Hdecl.
  rewrite scanSources_app, scanSources_skip by done. cbn [mbind outcome_bind].
  rewrite scanSources_cons, bool_decide_eq_false_2
    by (rewrite size_singleton; lia).
  rewrite Hparse, elements_singleton, range_keys_singleton.
  cbn [mbind outcome_bind scanNames]. rewrite Hdecl.
  destruct (lower e p (generateImportMap p fa)) as [t| | |]; try reflexivity.
  cbn [mbind outcome_bind]. rewrite difference_diag_L. apply scanSources_empty.
Qed.

(** A file that cannot be read, met while a name is still to find. *)
Lemma scanSources_unreadable p pre source post k R M n e :
  n ∈ R ->
  Forall (fun source => exists fa, parseAst source = Ok fa /\
                                   getDeclarationByName fa n = None) pre ->
  parseAst source = Err e ->
  scanS p (pre ++ source :: post) k R M =
    (scanS p pre k R M ≫= fun _ => Err e).
Proof.
  intros Hn Hpre Hparse. rewrite scanSources_app.
  destruct (scanS p pre k R M) as [[R1 M1]| | |] eqn:Hscan; try reflexivity.
  cbn [mbind outcome_bind].
  assert (Hn1 : n ∈ R1).
  { eapply scanSources_keeps; [| exact Hscan | exact Hn].
    intros s fa Hs Hfa. rewrite Forall_forall in Hpre.
    destruct (Hpre s Hs) as (fa' & Hfa' & Hdecl). congruence. }
  rewrite scanSources_cons, bool_decide_eq_false_2, Hparse; [reflexivity |].
  intros Hsize. apply size_empty_inv in Hsize. by apply Hsize in Hn1.
Qed.

End ScanFiles.

(** The scan reads its files through [parseAstFile] only. *)
Lemma scanSources_ext parseInt os_Open parser_ParseFile os_Open' parser_ParseFile'
  choose resolve p srcs k R M :
  (forall source, source ∈ srcs ->
     parseAstFile os_Open' parser_ParseFile' source =
     parseAstFile os_Open parser_ParseFile source) ->
  scanSources parseInt os_Open' parser_ParseFile' choose resolve p srcs k R M =
  scanSources parseInt os_Open parser_ParseFile choose resolve p srcs k R M.
Proof.
  revert k R M. induction srcs as [|source rest IH]; intros k R M Hsame;
    [reflexivity |].
  rewrite !scanSources_cons. case_bool_decide; [reflexivity |].
  rewrite (Hsame source) by by left.
  destruct (parseAstFile os_Open parser_ParseFile source) as [fa| | |];
    try reflexivity.
  cbn [mbind outcome_bind].
  destruct (scanNames parseInt resolve fa p (generateImportMap p fa) _ R M)
    as [[R1 M1]| | |]; try reflexivity.
  cbn [mbind outcome_bind]. apply IH. intros s Hs. apply Hsame. by right.
Qed.

(** X13: once every requested name of a package is found, the files that
    follow are not read: the package resolves to the same types whatever
    files follow and whatever opening or parsing them would do, also when
    they cannot be opened or declare the same names again. *)
Theorem X13_later_files_not_read (parseInt : string -> option Z)
  (GetPackageSourceFiles GetPackageSourceFiles' : string -> string + list string)
  (os_Open os_Open' : string -> string + string)
  (parser_ParseFile parser_ParseFile' : string -> string -> string + ast.File)
  (choose : ticket -> list string -> nat)
  (resolve : list TypeSpec -> outcome (list Type_))
  (p : string) (names srcs1 srcs2 : list string) (types : list Type_) :
  GetPackageSourceFiles p = inr srcs1 ->
  GetPackageSourceFiles' p = inr (srcs1 ++ srcs2) ->
  (forall source, source ∈ srcs1 ->
     parseAstFile os_Open' parser_ParseFile' source =
     parseAstFile os_Open parser_ParseFile source) ->
  generateTypesInSinglePackage parseInt GetPackageSourceFiles os_Open
    parser_ParseFile choose resolve p names = Ok types ->
  generateTypesInSinglePackage parseInt GetPackageSourceFiles' os_Open'
    parser_ParseFile' choose resolve p names = Ok types.
Proof.
  intros Hsrcs Hsrcs' Hsame H.
  apply generateTypesInSinglePackage_Ok in H as (srcs & M & Heq & Hscan & ->).
  rewrite Hsrcs in Heq. injection Heq as <-.
  unfold generateTypesInSinglePackage. rewrite Hsrcs'.
  rewrite scanSources_app, (scanSources_ext _ os_Open parser_ParseFile) by done.
  rewrite Hscan. cbn [mbind outcome_bind]. rewrite scanSources_empty.
  cbn [mbind outcome_bind].
  rewrite bool_decide_eq_false_2; [reflexivity |].
  rewrite size_empty. lia.
Qed.

Section PackageFiles.

Variable parseInt : string -> option Z.
Variable GetPackageSourceFiles : string -> string + list string.
Variable os_Open : string -> string + string.
Variable parser_ParseFile : string -> string -> string + ast.File.
Variable choose : ticket -> list string -> nat.

Local Abbreviation parseAst := (parseAstFile os_Open parser_ParseFile).
Local Abbreviation GenerateTypes :=
  (GenerateTypesFromSpecs parseInt GetPackageSourceFiles os_Open parser_ParseFile
     choose).
Local Abbreviation lowerE :=
  (lowerExpr parseInt GetPackageSourceFiles os_Open parser_ParseFile choose).

(** X14: a file that cannot be opened or parsed fails the package when it
    is met while a requested name is still to find, although it is not
    known to declare anything and a later file may declare the name: the
    package fails as the scan of the files before it does, and with the
    error of the file when that scan succeeds. *)
Theorem X14_unreadable_file_fails_package
  (resolve : list TypeSpec -> outcome (list Type_))
  (p : string) (names pre : list string) (source : string) (post : list string)
  (n : string) (e : error) :
  GetPackageSourceFiles p = inr (pre ++ source :: post) ->
  n ∈ names ->
  Forall (fun source => exists fa, parseAst source = Ok fa /\
                                   getDeclarationByName fa n = None) pre ->
  parseAst source = Err e ->
  generateTypesInSinglePackage parseInt GetPackageSourceFiles os_Open
    parser_ParseFile choose resolve p names =
  (scanSources parseInt os_Open parser_ParseFile choose resolve p pre 0
     (list_to_set names) ∅ ≫= fun _ => Err e)
  /\ (exists cause, e = CannotOpenFile cause \/ e = CannotParseGoCode cause).
Proof.
  intros Hsrcs Hn Hpre Hparse. split.
  - unfold generateTypesInSinglePackage. rewrite Hsrcs.
    rewrite (scanSources_unreadable _ _ _ _ _ _ _ _ _ _ _ _ n e); try done.
    + by destruct (scanSources _ _ _ _ _ p pre 0 (list_to_set names) ∅).
    + by apply elem_of_list_to_set.
  - unfold parseAstFile in Hparse.
    destruct (os_Open source) as [cause|file]; [injection Hparse as <-; eauto |].
    destruct (parser_ParseFile (path_Base source) file) as [cause|fa];
      [injection Hparse as <-; eauto | done].
Qed.

(** The call for one request, from the first file that declares the
    name. *)
Lemma GenerateTypesFromSpecs_first_declaration fuel p n pre source post fa e :
  GetPackageSourceFiles p = inr (pre ++ source :: post) ->
  Forall (fun source => exists fa, parseAst source = Ok fa /\
                                   getDeclarationByName fa n = None) pre ->
  parseAst source = Ok fa ->
  getDeclarationByName fa n = Some e ->
  GenerateTypes (S fuel) [mkTypeSpec p n] =
    (t ← lowerE fuel e p (generateImportMap p fa); Ok [t]).
Proof.
  intros Hsrcs Hpre Hparse Hdecl.
  cbn [GenerateTypesFromSpecs]. rewrite GenerateTypesFromSpecs_body_single.
  unfold generateTypesInSinglePackage. rewrite Hsrcs, list_to_set_singleton_L.
  erewrite scanSources_first by done. unfold lowerExpr.
  destruct (generateTypeFromExpr parseInt (GenerateTypes fuel) e p
              (generateImportMap p fa)) as [t| | |]; try reflexivity.
  cbn [mbind outcome_bind].
  rewrite bool_decide_eq_false_2 by (rewrite size_empty; lia).
  cbn. by rewrite !lookup_insert_eq.
Qed.

(** X15: the call for one request is the lowering of the first declaration
    of the name in the first file of the package that declares it, under
    the import table of that file; the files before it are read, the files
    after it and the other declarations of the name play no part. *)
Theorem X15_first_declaring_file (fuel : nat) (p n : string)
  (pre : list string) (source : string) (post : list string)
  (fa : ast.File) (e : ast.Expr) :
  GetPackageSourceFiles p = inr (pre ++ source :: post) ->
  Forall (fun source => exists fa, parseAst source = Ok fa /\
                                   getDeclarationByName fa n = None) pre ->
  parseAst source = Ok fa ->
  getDeclarationByName fa n = Some e ->
  GenerateTypes (S fuel) [mkTypeSpec p n] =
    (t ← lowerE fuel e p (generateImportMap p fa); Ok [t])
  /\ (forall t, lowerE fuel e p (generateImportMap p fa) = Ok t ->
                GenerateTypes (S fuel) [mkTypeSpec p n] = Ok [t]).
Proof.
  intros Hsrcs Hpre Hparse Hdecl.
  pose proof (GenerateTypesFromSpecs_first_declaration fuel p n pre source post
                fa e Hsrcs Hpre Hparse Hdecl) as H.
  split; [exact H |]. intros t Ht. by rewrite H, Ht.
Qed.

(** X16: when the source locator fails for a package, no call that
    requests a name of the package returns a result, and the call that
    requests names of this package only returns the locator's error as it
    is. *)
Theorem X16_locator_error (fuel : nat) (typeSpecs : list TypeSpec)
  (p n cause : string) :
  mkTypeSpec p n ∈ typeSpecs ->
  GetPackageSourceFiles p = inl cause ->
  is_Ok (GenerateTypes fuel typeSpecs) = false
  /\ ((forall spec, spec ∈ typeSpecs -> TypeSpec_PackagePath spec = p) ->
      GenerateTypes (S fuel) typeSpecs = Err (SourceLookupFailed cause)).
Proof.
  intros Hin Hcause.
  assert (Herr : forall resolve names,
             generateTypesInSinglePackage parseInt GetPackageSourceFiles os_Open
               parser_ParseFile choose resolve p names
             = Err (SourceLookupFailed cause)).
  { intros resolve names. unfold generateTypesInSinglePackage. by rewrite Hcause. }
  split.
  - destruct fuel as [|fuel]; [reflexivity |]. cbn [GenerateTypesFromSpecs].
    eapply GenerateTypesFromSpecs_body_not_Ok; [exact Hin |]. by rewrite Herr.
  - intros Hone. cbn [GenerateTypesFromSpecs]. unfold GenerateTypesFromSpecs_body.
    rewrite (groupTypeSpecByPackage_dom_one _ _ _ Hin Hone).
    rewrite elements_singleton, range_keys_singleton.
    cbn [resolvePackages]. by rewrite Herr.
Qed.

End PackageFiles.

(** X13 on a package whose second file cannot be opened: the name is found
    in the first file, and the second one is not read. *)
Lemma X13_later_files_not_read_witness :
  generateTypesInSinglePackage parseInt_decimal
    (fun _ => inr (["/src/p/a.go"] ++ ["/src/p/locked.go"]))
    (fun filename => if String.eqb filename "/src/p/a.go" then inr filename
                     else inl "permission denied")
    Demo.parser_ParseFile Demo.choose (fun _ => OutOfFuel) "p" ["N"]
  = Ok [Type_of_Primitive (mkPrimitiveType PrimitiveKindInt)].
Proof.
  apply (X13_later_files_not_read parseInt_decimal
           (fun _ => inr ["/src/p/a.go"]) _ Demo.os_Open _ Demo.parser_ParseFile
           Demo.parser_ParseFile Demo.choose (fun _ => OutOfFuel) "p" ["N"]
           ["/src/p/a.go"] ["/src/p/locked.go"]).
  - reflexivity.
  - reflexivity.
  - intros source Hsource. apply list_elem_of_singleton in Hsource as ->.
    reflexivity.
  - reflexivity.
Defined.

(** X14 on a package whose second file does not parse: the request for
    [B], which the third file declares, fails with the error of the second
    file. *)
Lemma X14_unreadable_file_fails_package_witness :
  generateTypesInSinglePackage parseInt_decimal
    (fun _ => inr (["/src/p/a.go"] ++ "/src/p/broken.go" :: ["/src/p/b.go"]))
    Demo.os_Open Demo.parser_ParseFile Demo.choose (fun _ => OutOfFuel) "p" ["B"]
  = Err (CannotParseGoCode "syntax error").
Proof.
  destruct (X14_unreadable_file_fails_package parseInt_decimal
              (fun _ => inr (["/src/p/a.go"] ++ "/src/p/broken.go" :: ["/src/p/b.go"]))
              Demo.os_Open Demo.parser_ParseFile Demo.choose (fun _ => OutOfFuel)
              "p" ["B"] ["/src/p/a.go"] "/src/p/broken.go" ["/src/p/b.go"] "B"
              (CannotParseGoCode "syntax error")) as [H _].
  - reflexivity.
  - apply list_elem_of_here.
  - constructor; [| constructor]. exists Demo.a_go. split; reflexivity.
  - reflexivity.
  - rewrite H. reflexivity.
Defined.

(** X15 on the request for [S] of [Demo], declared in the second file. *)
Lemma X15_first_declaring_file_witness :
  Demo.resolve 1 [mkTypeSpec "p" "S"] =
    (t ← lowerExpr parseInt_decimal Demo.GetPackageSourceFiles Demo.os_Open
           Demo.parser_ParseFile Demo.choose 0
           (ast.StructType (Some
              [ast.mkField ["x"; "y"] (ast.Ident "int");
               ast.mkField [] (ast.Ident "N")]))
           "p" (generateImportMap "p" Demo.b_go);
     Ok [t]).
Proof.
  destruct (X15_first_declaring_file parseInt_decimal Demo.GetPackageSourceFiles
              Demo.os_Open Demo.parser_ParseFile Demo.choose 0 "p" "S"
              ["/src/p/a.go"] "/src/p/b.go" [] Demo.b_go
              (ast.StructType (Some
                 [ast.mkField ["x"; "y"] (ast.Ident "int");
                  ast.mkField [] (ast.Ident "N")]))) as [H _].
  - reflexivity.
  - constructor; [| constructor]. exists Demo.a_go. split; reflexivity.
  - reflexivity.
  - reflexivity.
  - exact H.
Defined.

(** X16 on a package the locator of [Demo] does not know. *)
Lemma X16_locator_error_witness :
  Demo.resolve 1 [mkTypeSpec "q" "T"; mkTypeSpec "q" "U"] =
    Err (SourceLookupFailed "no such package: q").
Proof.
  destruct (X16_locator_error parseInt_decimal Demo.GetPackageSourceFiles
              Demo.os_Open Demo.parser_ParseFile Demo.choose 0
              [mkTypeSpec "q" "T"; mkTypeSpec "q" "U"] "q" "T"
              "no such package: q") as [_ H].
  - apply list_elem_of_here.
  - reflexivity.
  - apply H. intros spec Hspec.
    apply elem_of_cons in Hspec as [->|Hspec]; [reflexivity |].
    apply list_elem_of_singleton in Hspec as ->. reflexivity.
Defined.

(* ===================================================================== *)
(** * Further properties: the outcome of a batch *)
(* ===================================================================== *)

Section Batch.

Variable parseInt : string -> option Z.
Variable GetPackageSourceFiles : string -> string + list string.
Variable os_Open : string -> string + string.
Variable parser_ParseFile : string -> string -> string + ast.File.
Variable choose : ticket -> list string -> nat.
Variable resolve : list TypeSpec -> outcome (list Type_).

Local Abbreviation inPackage :=
  (generateTypesInSinglePackage parseInt GetPackageSourceFiles os_Open
     parser_ParseFile choose resolve).
Local Abbreviation packages :=
  (resolvePackages parseInt GetPackageSourceFiles os_Open parser_ParseFile
     choose resolve).
Local Abbreviation body :=
  (GenerateTypesFromSpecs_body parseInt GetPackageSourceFiles os_Open
     parser_ParseFile choose resolve).

(** [specs[i]] is in range for every type the loop stores. *)
Lemma storeTypes_progress p specs types i (M : gmap TypeSpec Type_) :
  (i + length types <= length specs)%nat ->
  is_Ok (storeTypes p specs types i M) = true.
Proof.
  revert i M. induction types as [|typ rest IH]; intros i M Hle; [reflexivity |].
  cbn [storeTypes length] in *.
  destruct (lookup_lt_is_Some_2 specs i ltac:(lia)) as [name Hname].
  unfold index. rewrite Hname. cbn [mbind outcome_bind]. apply IH. lia.
Qed.

Lemma generateTypesInSinglePackage_length p names types :
  inPackage p names = Ok types -> length types = length names.
Proof.
  intros H. apply generateTypesInSinglePackage_Ok in H as (_ & M & _ & _ & ->).
  by rewrite length_fmap.
Qed.

Lemma resolvePackages_all_Ok (G : gmap string (list string)) todo
  (M : gmap TypeSpec Type_) :
  (forall q, q ∈ todo -> is_Ok (inPackage q (default [] (G !! q))) = true) ->
  is_Ok (packages G todo M) = true.
Proof.
  revert M. induction todo as [|q rest IH]; intros M Hall; [reflexivity |].
  cbn [resolvePackages].
  destruct (inPackage q (default [] (G !! q))) as [types| | |] eqn:Htypes;
    try (specialize (Hall q (list_elem_of_here _ _)); by rewrite Htypes in Hall).
  cbn [mbind outcome_bind].
  pose proof (storeTypes_progress q (default [] (G !! q)) types 0 M) as Hstore.
  rewrite (generateTypesInSinglePackage_length _ _ _ Htypes) in Hstore.
  specialize (Hstore ltac:(cbn; lia)).
  apply is_Ok_true in Hstore as [M1 ->]. cbn [mbind outcome_bind].
  apply IH. intros q' Hq'. apply Hall. by right.
Qed.

Lemma resolvePackages_first_failure (G : gmap string (list string)) pre p post
  (M : gmap TypeSpec Type_) :
  (forall q, q ∈ pre -> is_Ok (inPackage q (default [] (G !! q))) = true) ->
  is_Ok (inPackage p (default [] (G !! p))) = false ->
  sameFailure (inPackage p (default [] (G !! p))) (packages G (pre ++ p :: post) M).
Proof.
  revert M. induction pre as [|q pre IH]; intros M Hpre Hfail.
  - cbn [app resolvePackages].
    by destruct (inPackage p (default [] (G !! p))) as [types| | |].
  - cbn [app resolvePackages].
    destruct (inPackage q (default [] (G !! q))) as [types| | |] eqn:Htypes;
      try (specialize (Hpre q (list_elem_of_here _ _)); by rewrite Htypes in Hpre).
    cbn [mbind outcome_bind].
    pose proof (storeTypes_progress q (default [] (G !! q)) types 0 M) as Hstore.
    rewrite (generateTypesInSinglePackage_length _ _ _ Htypes) in Hstore.
    specialize (Hstore ltac:(cbn; lia)).
    apply is_Ok_true in Hstore as [M1 ->]. cbn [mbind outcome_bind].
    apply IH; [| done]. intros q' Hq'. apply Hpre. by right.
Qed.

Lemma GenerateTypesFromSpecs_body_all_Ok typeSpecs :
  is_Ok (body typeSpecs) = true <->
  forall p n, mkTypeSpec p n ∈ typeSpecs ->
              is_Ok (inPackage p (namesIn p typeSpecs)) = true.
Proof.
  split.
  - intros Hok p n Hin.
    destruct (is_Ok (inPackage p (namesIn p typeSpecs))) eqn:Hp; [done |].
    pose proof (GenerateTypesFromSpecs_body_not_Ok parseInt GetPackageSourceFiles
                  os_Open parser_ParseFile choose resolve typeSpecs p n Hin Hp).
    congruence.
  - intros Hall. unfold GenerateTypesFromSpecs_body.
    pose proof (resolvePackages_all_Ok (groupTypeSpecByPackage typeSpecs)
                  (range_keys choose RangePackages
                     (elements (dom (groupTypeSpecByPackage typeSpecs)))) ∅) as H.
    apply is_Ok_true in H as [M ->]; [reflexivity |].
    intros q Hq. apply elem_of_range_keys, elem_of_dom in Hq.
    rewrite groupTypeSpecByPackage_lookup in Hq.
    rewrite groupTypeSpecByPackage_default.
    destruct (namesIn q typeSpecs) as [|n ns] eqn:Hnames; [by destruct Hq |].
    rewrite <- Hnames. apply (Hall q n). apply elem_of_namesIn. rewrite Hnames.
    by left.
Qed.

Lemma GenerateTypesFromSpecs_body_first_failure typeSpecs pre p post :
  range_keys choose RangePackages
    (elements (dom (groupTypeSpecByPackage typeSpecs))) = pre ++ p :: post ->
  (forall q, q ∈ pre -> is_Ok (inPackage q (namesIn q typeSpecs)) = true) ->
  is_Ok (inPackage p (namesIn p typeSpecs)) = false ->
  sameFailure (inPackage p (namesIn p typeSpecs)) (body typeSpecs).
Proof.
  intros Horder Hpre Hfail. unfold GenerateTypesFromSpecs_body. rewrite Horder.
  apply sameFailure_bind.
  - pose proof (resolvePackages_first_failure (groupTypeSpecByPackage typeSpecs)
                  pre p post ∅) as H.
    rewrite groupTypeSpecByPackage_default in H.
    destruct (inPackage p (namesIn p typeSpecs)) as [types| | |]; try done;
      destruct (packages _ (pre ++ p :: post) ∅); try done; exfalso; apply H;
      try done; intros q Hq; rewrite groupTypeSpecByPackage_default; by apply Hpre.
  - rewrite <- (groupTypeSpecByPackage_default typeSpecs p).
    apply resolvePackages_first_failure.
    + intros q Hq. rewrite groupTypeSpecByPackage_default. by apply Hpre.
    + by rewrite groupTypeSpecByPackage_default.
Qed.

End Batch.

(** X17: a call returns a result exactly when every package it names
    resolves for the names requested in it: between two packages nothing
    fails, and the index [specs[i]] that stores a type is never out of
    range.  When a package fails, the call fails as the first package that
    fails in the order of the visit does, and the packages after it are not
    visited. *)
Theorem X17_batch_outcome (parseInt : string -> option Z)
  (GetPackageSourceFiles : string -> string + list string)
  (os_Open : string -> string + string)
  (parser_ParseFile : string -> string -> string + ast.File)
  (choose : ticket -> list string -> nat) (fuel : nat) (typeSpecs : list TypeSpec) :
  let GenerateTypes :=
    GenerateTypesFromSpecs parseInt GetPackageSourceFiles os_Open parser_ParseFile
      choose in
  let inPackage :=
    generateTypesInSinglePackage parseInt GetPackageSourceFiles os_Open
      parser_ParseFile choose (GenerateTypes fuel) in
  (is_Ok (GenerateTypes (S fuel) typeSpecs) = true <->
   forall p n, mkTypeSpec p n ∈ typeSpecs ->
               is_Ok (inPackage p (namesIn p typeSpecs)) = true)
  /\ (forall pre p post,
        range_keys choose RangePackages
          (elements (dom (groupTypeSpecByPackage typeSpecs))) = pre ++ p :: post ->
        (forall q, q ∈ pre -> is_Ok (inPackage q (namesIn q typeSpecs)) = true) ->
        is_Ok (inPackage p (namesIn p typeSpecs)) = false ->
        sameFailure (inPackage p (namesIn p typeSpecs))
                    (GenerateTypes (S fuel) typeSpecs))
  /\ (forall p names types (M : gmap TypeSpec Type_),
        inPackage p names = Ok types ->
        is_Ok (storeTypes p names types 0 M) = true).
Proof.
  intros GenerateTypes inPackage. split; [| split].
  - apply GenerateTypesFromSpecs_body_all_Ok.
  - intros pre p post. apply GenerateTypesFromSpecs_body_first_failure.
  - intros p names types M Htypes. apply storeTypes_progress.
    apply generateTypesInSinglePackage_length in Htypes. cbn. lia.
Qed.

(* ===================================================================== *)
(** * Further properties: what a call owes to its nested calls *)
(* ===================================================================== *)

(** Every function of the generator is built from its nested calls by
    sequencing: a relation between outcomes that sequencing preserves, when
    it holds of the nested calls, which are calls for one request, holds of
    the function. *)
Section Related.

Variable R : forall A, outcome A -> outcome A -> Prop.
Hypothesis R_refl : forall A (m : outcome A), R A m m.
Hypothesis R_bind : forall A B (m m' : outcome A) (k k' : A -> outcome B),
  R A m m' -> (forall a, m = Ok a -> R B (k a) (k' a)) -> R B (m ≫= k) (m' ≫= k').

Variable parseInt : string -> option Z.
Variables resolve resolve' : list TypeSpec -> outcome (list Type_).
Hypothesis R_resolve : forall p n,
  R _ (resolve [mkTypeSpec p n]) (resolve' [mkTypeSpec p n]).

Section Cases.

Variable packagePath : string.
Variable importMap : gmap string string.
Variables lower lower' : ast.Expr -> outcome Type_.

Lemma generateTypeFromFieldList_loop_related fields names types i v :
  Forall (fun f => R _ (lower (typExprOf f)) (lower' (typExprOf f))) fields ->
  R _ (generateTypeFromFieldList_loop lower fields names types i v)
      (generateTypeFromFieldList_loop lower' fields names types i v).
Proof.
  revert types i v. induction fields as [|f fields IH]; intros types i v Hall.
  - apply R_refl.
  - apply Forall_cons in Hall as [Hf Hall].
    rewrite !generateTypeFromFieldList_loop_cons.
    apply R_bind; [exact Hf |]. intros typ _.
    case_bool_decide.
    + apply R_bind; [apply R_refl |]. intros name _. by apply IH.
    + apply R_bind; [apply R_refl |]. intros [types1 i1] _. by apply IH.
Qed.

Lemma generateTypeFromFuncType_related Params Results :
  Forall (fun f => R _ (lower (typExprOf f)) (lower' (typExprOf f))) Params ->
  Forall (fun f => R _ (lower (typExprOf f)) (lower' (typExprOf f)))
         (default [] Results) ->
  R _ (generateTypeFromFuncType lower Params Results)
      (generateTypeFromFuncType lower' Params Results).
Proof.
  intros HP HR. unfold generateTypeFromFuncType, generateTypeFromFieldList.
  apply R_bind; [by apply generateTypeFromFieldList_loop_related |].
  intros [params v] _. apply R_bind; [| intros results _; apply R_refl].
  destruct Results as [List|]; [| apply R_refl].
  apply R_bind; [| intros [results v'] _; apply R_refl].
  by apply generateTypeFromFieldList_loop_related.
Qed.

Lemma generateTypeFromStructType_related Fields :
  Forall (fun f => R _ (lower (ast.Field_Type f)) (lower' (ast.Field_Type f)))
         (default [] Fields) ->
  R _ (generateTypeFromStructType lower Fields)
      (generateTypeFromStructType lower' Fields).
Proof.
  intros Hall. destruct Fields as [List|]; [| apply R_refl].
  cbn in Hall. unfold generateTypeFromStructType.
  apply R_bind; [| intros fields _; apply R_refl].
  generalize (@nil TypeField).
  induction List as [|f List IH]; intros fields; [apply R_refl |].
  apply Forall_cons in Hall as [Hf Hall].
  cbn [generateTypeFromStructType_loop].
  apply R_bind; [| intros fields1 _; by apply IH].
  clear IH Hall. revert fields.
  induction (ast.Field_Names f) as [|n ns IHn]; intros fields; [apply R_refl |].
  cbn [generateTypeFromStructType_names].
  apply R_bind; [exact Hf |]. intros t _. apply IHn.
Qed.

Lemma generateTypeFromInterfaceType_related Methods :
  Forall (memberRelated R lower lower') (default [] Methods) ->
  R _ (generateTypeFromInterfaceType resolve packagePath importMap lower Methods)
      (generateTypeFromInterfaceType resolve' packagePath importMap lower' Methods).
Proof.
  intros Hall. destruct Methods as [List|]; [| apply R_refl].
  cbn in Hall. unfold generateTypeFromInterfaceType.
  apply R_bind; [| intros methods _; apply R_refl].
  generalize (@nil InterfaceTypeMethod).
  induction List as [|f List IH]; intros methods; [apply R_refl |].
  apply Forall_cons in Hall as [Hf Hall].
  cbn [generateTypeFromInterfaceType_loop].
  apply R_bind; [| intros methods1 _; by apply IH].
  unfold memberRelated in Hf. unfold generateTypeFromInterfaceType_member.
  destruct (ast.Field_Type f); try apply R_refl.
  - apply R_bind; [apply R_resolve |]. intros inner _. apply R_refl.
  - apply R_bind; [apply R_refl |]. intros x _.
    apply R_bind; [apply R_resolve |]. intros inner _. apply R_refl.
  - apply R_bind; [apply R_refl |]. intros name _.
    apply R_bind; [exact Hf |]. intros funcType _. apply R_refl.
Qed.

End Cases.

Section Expr.

Variable pkg : string.
Variable im : gmap string string.

Local Abbreviation lower := (fun e => generateTypeFromExpr parseInt resolve e pkg im).
Local Abbreviation lower' := (fun e => generateTypeFromExpr parseInt resolve' e pkg im).
Local Abbreviation related := (lowersRelated R lower lower').

Lemma lowersRelated_typExprOf fields :
  onFields related fields ->
  Forall (fun f => R _ (lower (typExprOf f)) (lower' (typExprOf f))) fields.
Proof.
  unfold onFields. intros Hall. rewrite Forall_forall in Hall |- *.
  intros f Hin. destruct (Hall f Hin) as [Hf Helt]. unfold typExprOf.
  destruct (ast.Field_Type f); try exact Hf. exact Helt.
Qed.

Lemma lowersRelated_Field_Type fields :
  onFields related fields ->
  Forall (fun f => R _ (lower (ast.Field_Type f)) (lower' (ast.Field_Type f))) fields.
Proof.
  unfold onFields. intros Hall. rewrite Forall_forall in Hall |- *.
  intros f Hin. apply (Hall f Hin).
Qed.

Lemma lowersRelated_members fields :
  onFields related fields -> Forall (memberRelated R lower lower') fields.
Proof.
  unfold onFields. intros Hall. rewrite Forall_forall in Hall |- *.
  intros f Hin. destruct (Hall f Hin) as [_ Hf]. unfold memberRelated.
  by destruct (ast.Field_Type f).
Qed.

Lemma generateTypeFromExpr_lowersRelated e : related e.
Proof.
  induction e as [Name|X Sel IHX|X IHX|Len Elt IHLen IHElt|Params Results IHP IHR
                 |Key Value IHK IHV|Dir Value IHV|Fields IHF|Methods IHM
                 |Elt IHElt|Kind Value|shape] using Expr_induction;
    try (split; [apply R_refl | exact I]).
  - split; [| exact I]. cbn [generateTypeFromExpr]. unfold generateTypeFromStarExpr.
    apply R_bind; [| intros typ _; apply R_refl].
    apply R_bind; [apply IHX | intros elem _; apply R_refl].
  - split; [| exact I]. cbn [generateTypeFromExpr]. unfold generateTypeFromArrayType.
    destruct Len as [len|].
    + destruct len; try apply R_refl. destruct (parseInt Value); [| apply R_refl].
      apply R_bind; [apply IHElt | intros elem _; apply R_refl].
    + apply R_bind; [apply IHElt | intros elem _; apply R_refl].
  - assert (H : R _ (generateTypeFromFuncType lower Params Results)
                    (generateTypeFromFuncType lower' Params Results)).
    { apply generateTypeFromFuncType_related; [by apply lowersRelated_typExprOf |].
      destruct Results as [List|]; [by apply lowersRelated_typExprOf | constructor]. }
    split; [| exact H]. cbn [generateTypeFromExpr].
    apply R_bind; [exact H | intros typ _; apply R_refl].
  - split; [| exact I]. cbn [generateTypeFromExpr]. unfold generateTypeFromMapType.
    apply R_bind; [| intros typ _; apply R_refl].
    apply R_bind; [apply IHK |]. intros keyDef _.
    apply R_bind; [apply IHV | intros valDef _; apply R_refl].
  - split; [| exact I]. cbn [generateTypeFromExpr]. unfold generateTypeFromChanType.
    apply R_bind; [| intros typ _; apply R_refl].
    apply R_bind; [apply IHV |]. intros c _. apply R_refl.
  - split; [| exact I]. cbn [generateTypeFromExpr].
    apply R_bind; [| intros typ _; apply R_refl].
    apply generateTypeFromStructType_related.
    destruct Fields as [List|]; [by apply lowersRelated_Field_Type | constructor].
  - split; [| exact I]. cbn [generateTypeFromExpr].
    apply R_bind; [| intros typ _; apply R_refl].
    apply generateTypeFromInterfaceType_related.
    destruct Methods as [List|]; [by apply lowersRelated_members | constructor].
  - split; [apply R_refl | apply IHElt].
Qed.

Lemma generateTypeFromExpr_related e :
  R _ (generateTypeFromExpr parseInt resolve e pkg im)
      (generateTypeFromExpr parseInt resolve' e pkg im).
Proof. apply (generateTypeFromExpr_lowersRelated e). Qed.

End Expr.

Variable GetPackageSourceFiles : string -> string + list string.
Variable os_Open : string -> string + string.
Variable parser_ParseFile : string -> string -> string + ast.File.
Variable choose : ticket -> list string -> nat.

Lemma scanNames_related fa p im todo Rs M :
  R _ (scanNames parseInt resolve fa p im todo Rs M)
      (scanNames parseInt resolve' fa p im todo Rs M).
Proof.
  revert Rs M. induction todo as [|name rest IH]; intros Rs M; [apply R_refl |].
  cbn [scanNames]. destruct (getDeclarationByName fa name) as [e|]; [| apply IH].
  apply R_bind; [apply generateTypeFromExpr_related |]. intros typ _. apply IH.
Qed.

Lemma scanSources_related p srcs k Rs M :
  R _ (scanSources parseInt os_Open parser_ParseFile choose resolve p srcs k Rs M)
      (scanSources parseInt os_Open parser_ParseFile choose resolve' p srcs k Rs M).
Proof.
  revert k Rs M. induction srcs as [|source rest IH]; intros k Rs M;
    [apply R_refl |].
  rewrite !scanSources_cons. case_bool_decide; [apply R_refl |].
  apply R_bind; [apply R_refl |]. intros fa _.
  apply R_bind; [apply scanNames_related |]. intros [R1 M1] _. apply IH.
Qed.

Lemma generateTypesInSinglePackage_related p names :
  R _ (generateTypesInSinglePackage parseInt GetPackageSourceFiles os_Open
         parser_ParseFile choose resolve p names)
      (generateTypesInSinglePackage parseInt GetPackageSourceFiles os_Open
         parser_ParseFile choose resolve' p names).
Proof.
  unfold generateTypesInSinglePackage.
  destruct (GetPackageSourceFiles p) as [cause|srcs]; [apply R_refl |].
  apply R_bind; [apply scanSources_related |]. intros [R1 M1] _. apply R_refl.
Qed.

Lemma resolvePackages_related (G : gmap string (list string)) todo
  (M : gmap TypeSpec Type_) :
  R _ (resolvePackages parseInt GetPackageSourceFiles os_Open parser_ParseFile
         choose resolve G todo M)
      (resolvePackages parseInt GetPackageSourceFiles os_Open parser_ParseFile
         choose resolve' G todo M).
Proof.
  revert M. induction todo as [|p rest IH]; intros M; [apply R_refl |].
  cbn [resolvePackages].
  apply R_bind; [apply generateTypesInSinglePackage_related |]. intros types _.
  apply R_bind; [apply R_refl |]. intros M1 _. apply IH.
Qed.

Lemma GenerateTypesFromSpecs_body_related typeSpecs :
  R _ (GenerateTypesFromSpecs_body parseInt GetPackageSourceFiles os_Open
         parser_ParseFile choose resolve typeSpecs)
      (GenerateTypesFromSpecs_body parseInt GetPackageSourceFiles os_Open
         parser_ParseFile choose resolve' typeSpecs).
Proof.
  unfold GenerateTypesFromSpecs_body.
  apply R_bind; [apply resolvePackages_related |]. intros M _. apply R_refl.
Qed.

End Related.

Lemma refines_refl A (m : outcome A) : refines m m.
Proof. by right. Qed.

Lemma refines_bind A B (m m' : outcome A) (k k' : A -> outcome B) :
  refines m m' -> (forall a, m = Ok a -> refines (k a) (k' a)) ->
  refines (m ≫= k) (m' ≫= k').
Proof.
  intros [->| <-] Hk; [by left |].
  destruct m as [a| | |]; try (by right). by apply Hk.
Qed.

Lemma okImplies_refl A (m : outcome A) : okImplies m m.
Proof. by intros a. Qed.

Lemma okImplies_bind A B (m m' : outcome A) (k k' : A -> outcome B) :
  okImplies m m' -> (forall a, m = Ok a -> okImplies (k a) (k' a)) ->
  okImplies (m ≫= k) (m' ≫= k').
Proof.
  intros Hm Hk b H. apply bind_Ok in H as (a & Ha & Hb).
  rewrite (Hm a Ha). cbn. by apply (Hk a Ha).
Qed.

Section Budget.

Variable parseInt : string -> option Z.
Variable GetPackageSourceFiles : string -> string + list string.
Variable os_Open : string -> string + string.
Variable parser_ParseFile : string -> string -> string + ast.File.
Variable choose : ticket -> list string -> nat.

Local Abbreviation GenerateTypes :=
  (GenerateTypesFromSpecs parseInt GetPackageSourceFiles os_Open parser_ParseFile
     choose).

Lemma GenerateTypesFromSpecs_refines_S fuel typeSpecs :
  refines (GenerateTypes fuel typeSpecs) (GenerateTypes (S fuel) typeSpecs).
Proof.
  revert typeSpecs. induction fuel as [|fuel IH]; intros typeSpecs; [by left |].
  change (refines
            (GenerateTypesFromSpecs_body parseInt GetPackageSourceFiles os_Open
               parser_ParseFile choose (GenerateTypes fuel) typeSpecs)
            (GenerateTypesFromSpecs_body parseInt GetPackageSourceFiles os_Open
               parser_ParseFile choose (GenerateTypes (S fuel)) typeSpecs)).
  apply (GenerateTypesFromSpecs_body_related (@refines) refines_refl refines_bind).
  intros p n. apply IH.
Qed.

Lemma GenerateTypesFromSpecs_refines fuel fuel' typeSpecs :
  (fuel <= fuel')%nat ->
  refines (GenerateTypes fuel typeSpecs) (GenerateTypes fuel' typeSpecs).
Proof.
  induction 1 as [|fuel' Hle IH]; [by right |].
  destruct IH as [IH|IH]; [by left |]. rewrite IH.
  apply GenerateTypesFromSpecs_refines_S.
Qed.

End Budget.

(** X18: the budget of nested calls only decides whether a call is cut
    short: an outcome reached within a budget, a result, an error or a
    panic, is the outcome for every larger budget, so that two budgets that
    are both enough give the same outcome. *)
Theorem X18_outcome_independent_of_budget (parseInt : string -> option Z)
  (GetPackageSourceFiles : string -> string + list string)
  (os_Open : string -> string + string)
  (parser_ParseFile : string -> string -> string + ast.File)
  (choose : ticket -> list string -> nat)
  (fuel fuel' : nat) (typeSpecs : list TypeSpec) :
  let GenerateTypes :=
    GenerateTypesFromSpecs parseInt GetPackageSourceFiles os_Open parser_ParseFile
      choose in
  GenerateTypes fuel typeSpecs <> OutOfFuel ->
  ((fuel <= fuel')%nat -> GenerateTypes fuel' typeSpecs = GenerateTypes fuel typeSpecs)
  /\ (GenerateTypes fuel' typeSpecs <> OutOfFuel ->
      GenerateTypes fuel' typeSpecs = GenerateTypes fuel typeSpecs).
Proof.
  intros GenerateTypes Hfuel.
  assert (Hle : forall a b, (a <= b)%nat -> GenerateTypes a typeSpecs <> OutOfFuel ->
                            GenerateTypes b typeSpecs = GenerateTypes a typeSpecs).
  { intros a b Hab Ha.
    destruct (GenerateTypesFromSpecs_refines parseInt GetPackageSourceFiles os_Open
                parser_ParseFile choose a b typeSpecs Hab) as [H|H]; [done | done]. }
  split; [intros Hff; by apply Hle |].
  intros Hfuel'. destruct (Nat.le_ge_cases fuel fuel') as [H|H].
  - by apply Hle.
  - symmetry. by apply Hle.
Qed.

(** X18 on the interface [B] of [Demo], which embeds [A]: two nested calls
    are enough, and a budget of five gives the same result. *)
Lemma X18_outcome_independent_of_budget_witness :
  Demo.resolve 5 [mkTypeSpec "p" "B"] = Demo.resolve 2 [mkTypeSpec "p" "B"].
Proof.
  destruct (X18_outcome_independent_of_budget parseInt_decimal
              Demo.GetPackageSourceFiles Demo.os_Open Demo.parser_ParseFile
              Demo.choose 2 5 [mkTypeSpec "p" "B"]) as [H _].
  - vm_compute. discriminate.
  - apply H. lia.
Defined.

(** X19: the call for an interface that embeds itself by its own name
    never returns: the member asks for the interface again before anything
    is stored, so that no budget of nested calls is enough.  In Go the
    calls nest until the stack is exhausted. *)
Theorem X19_self_embedding_never_returns (parseInt : string -> option Z)
  (GetPackageSourceFiles : string -> string + list string)
  (os_Open : string -> string + string)
  (parser_ParseFile : string -> string -> string + ast.File)
  (choose : ticket -> list string -> nat)
  (p n : string) (pre : list string) (source : string) (post : list string)
  (fa : ast.File) (before : list ast.Field) (names : list string)
  (after : list ast.Field) :
  GetPackageSourceFiles p = inr (pre ++ source :: post) ->
  Forall (fun source => exists fa, parseAstFile os_Open parser_ParseFile source = Ok fa /\
                                   getDeclarationByName fa n = None) pre ->
  parseAstFile os_Open parser_ParseFile source = Ok fa ->
  getDeclarationByName fa n =
    Some (ast.InterfaceType
            (Some (before ++ ast.mkField names (ast.Ident n) :: after))) ->
  is_Ok (generateTypeFromExpr parseInt (fun _ => OutOfFuel)
           (ast.InterfaceType (Some before)) p (generateImportMap p fa)) = true ->
  forall fuel,
    GenerateTypesFromSpecs parseInt GetPackageSourceFiles os_Open parser_ParseFile
      choose fuel [mkTypeSpec p n] = OutOfFuel.
Proof.
  intros Hsrcs Hpre Hparse Hdecl Hbefore fuel.
  induction fuel as [|fuel IH]; [reflexivity |].
  rewrite (GenerateTypesFromSpecs_first_declaration parseInt GetPackageSourceFiles
             os_Open parser_ParseFile choose fuel p n pre source post fa _
             Hsrcs Hpre Hparse Hdecl).
  unfold lowerExpr.
  set (resolve := GenerateTypesFromSpecs parseInt GetPackageSourceFiles os_Open
                    parser_ParseFile choose fuel) in *.
  set (im := generateImportMap p fa) in *.
  assert (Hrel : refines
            (generateTypeFromExpr parseInt (fun _ => OutOfFuel)
               (ast.InterfaceType (Some before)) p im)
            (generateTypeFromExpr parseInt resolve
               (ast.InterfaceType (Some before)) p im)).
  { apply (generateTypeFromExpr_related (@refines) refines_refl refines_bind).
    intros q m. by left. }
  destruct Hrel as [Hrel|Hrel]; [by rewrite Hrel in Hbefore |].
  rewrite Hrel in Hbefore. cbn [generateTypeFromExpr] in Hbefore |- *.
  unfold generateTypeFromInterfaceType in Hbefore |- *.
  rewrite generateTypeFromInterfaceType_loop_app.
  destruct (generateTypeFromInterfaceType_loop resolve p im _ before [])
    as [methods| | |]; try done.
  cbn [mbind outcome_bind generateTypeFromInterfaceType_loop].
  unfold generateTypeFromInterfaceType_member. cbn [ast.Field_Type].
  rewrite IH. reflexivity.
Qed.

(** X19 on a package whose file declares [type R interface { M(); R }]. *)
Lemma X19_self_embedding_never_returns_witness :
  GenerateTypesFromSpecs parseInt_decimal (fun _ => inr ([] ++ "/src/r/r.go" :: []))
    Demo.os_Open
    (fun _ _ => inr (ast.mkFile "r"
       [ast.GenDecl [ast.TypeSpec "R"
          (ast.InterfaceType (Some
             ([ast.mkField ["M"] (ast.FuncType [] None)] ++
              ast.mkField [] (ast.Ident "R") :: [])))]]))
    Demo.choose 7 [mkTypeSpec "r" "R"] = OutOfFuel.
Proof.
  eapply (X19_self_embedding_never_returns parseInt_decimal
            (fun _ => inr ([] ++ "/src/r/r.go" :: [])) Demo.os_Open _ Demo.choose
            "r" "R" [] "/src/r/r.go" [] _
            [ast.mkField ["M"] (ast.FuncType [] None)] [] []).
  - reflexivity.
  - constructor.
  - reflexivity.
  - reflexivity.
  - reflexivity.
Defined.

(* ===================================================================== *)
(** * Further properties: a batch and its requests *)
(* ===================================================================== *)

Section FromSingles.

Variable parseInt : string -> option Z.
Variable GetPackageSourceFiles : string -> string + list string.
Variable os_Open : string -> string + string.
Variable parser_ParseFile : string -> string -> string + ast.File.
Variable choose : ticket -> list string -> nat.
Variable resolve : list TypeSpec -> outcome (list Type_).

Local Abbreviation lower := (generateTypeFromExpr parseInt resolve).
Local Abbreviation parseAst := (parseAstFile os_Open parser_ParseFile).
Local Abbreviation scanN := (scanNames parseInt resolve).
Local Abbreviation scanS :=
  (scanSources parseInt os_Open parser_ParseFile choose resolve).
Local Abbreviation inPackage :=
  (generateTypesInSinglePackage parseInt GetPackageSourceFiles os_Open
     parser_ParseFile choose resolve).
Local Abbreviation body :=
  (GenerateTypesFromSpecs_body parseInt GetPackageSourceFiles os_Open
     parser_ParseFile choose resolve).

(** The names of one file are all visited when the declarations the file
    has for them lower. *)
Lemma scanNames_progress fa p im todo R M :
  (forall n e, n ∈ todo -> getDeclarationByName fa n = Some e ->
               is_Ok (lower e p im) = true) ->
  is_Ok (scanN fa p im todo R M) = true.
Proof.
  revert R M. induction todo as [|name rest IH]; intros R M Hall; [reflexivity |].
  cbn [scanNames].
  assert (Hrest : forall n e, n ∈ rest -> getDeclarationByName fa n = Some e ->
                              is_Ok (lower e p im) = true).
  { intros n e Hn. apply Hall. by right. }
  destruct (getDeclarationByName fa name) as [e|] eqn:Hdecl; [| by apply IH].
  specialize (Hall name e (list_elem_of_here _ _) Hdecl).
  apply is_Ok_true in Hall as [t ->]. cbn [mbind outcome_bind]. by apply IH.
Qed.

(** The scan for one name, file by file. *)
Lemma scanSources_single_cons p source rest k n M :
  scanS p (source :: rest) k {[n]} M =
    (fa ← parseAst source;
     match getDeclarationByName fa n with
     | Some e => t ← lower e p (generateImportMap p fa); Ok (∅, <[n := t]> M)
     | None => scanS p rest (S k) {[n]} M
     end).
Proof.
  rewrite scanSources_cons, bool_decide_eq_false_2
    by (rewrite size_singleton; lia).
  destruct (parseAst source) as [fa| | |]; try reflexivity.
  cbn [mbind outcome_bind].
  rewrite elements_singleton, range_keys_singleton. cbn [scanNames].
  destruct (getDeclarationByName fa n) as [e|]; [| reflexivity].
  destruct (lower e p (generateImportMap p fa)) as [t| | |]; try reflexivity.
  cbn [mbind outcome_bind]. rewrite difference_diag_L. apply scanSources_empty.
Qed.

(** When the scan for each name of the working set alone finds the name,
    the scan for the working set finds them all. *)
Lemma scanSources_from_singles p srcs k (R : gset string) M :
  (forall n, n ∈ R -> exists k0 M0 M1, scanS p srcs k0 {[n]} M0 = Ok (∅, M1)) ->
  exists M', scanS p srcs k R M = Ok (∅, M').
Proof.
  revert k R M. induction srcs as [|source rest IH]; intros k R M Hall.
  - destruct (set_choose_or_empty R) as [[n Hn]|HR].
    + destruct (Hall n Hn) as (k0 & M0 & M1 & H). cbn in H.
      injection H as H _. by destruct (non_empty_singleton_L (C := gset string) n).
    + apply leibniz_equiv in HR as ->. by exists M.
  - rewrite scanSources_cons. case_bool_decide as Hsize.
    { apply size_empty_inv, leibniz_equiv in Hsize as ->. by exists M. }
    assert (Hfa : exists fa, parseAst source = Ok fa).
    { destruct (set_choose_or_empty R) as [[n Hn]|HR].
      - destruct (Hall n Hn) as (k0 & M0 & M1 & H).
        rewrite scanSources_single_cons in H.
        apply bind_Ok in H as (fa & Hfa & _). eauto.
      - apply leibniz_equiv in HR as ->. by rewrite size_empty in Hsize. }
    destruct Hfa as [fa Hfa]. rewrite Hfa. cbn [mbind outcome_bind].
    assert (Hsingle : forall n, n ∈ R ->
              match getDeclarationByName fa n with
              | Some e => is_Ok (lower e p (generateImportMap p fa)) = true
              | None => exists k0 M0 M1, scanS p rest k0 {[n]} M0 = Ok (∅, M1)
              end).
    { intros n Hn. destruct (Hall n Hn) as (k0 & M0 & M1 & H).
      rewrite scanSources_single_cons, Hfa in H. cbn [mbind outcome_bind] in H.
      destruct (getDeclarationByName fa n) as [e|]; [| eauto].
      by destruct (lower e p (generateImportMap p fa)). }
    pose proof (scanNames_progress fa p (generateImportMap p fa)
                  (range_keys choose (RangeNames p k) (elements R)) R M) as Hnames.
    apply is_Ok_true in Hnames as [[R1 M1] Hscan].
    + rewrite Hscan. cbn [mbind outcome_bind]. apply IH.
      intros n Hn1.
      eapply (scanNames_Ok parseInt os_Open parser_ParseFile resolve)
        with (n := n) in Hscan as [Hout Hin].
      destruct (decide (n ∈ R)) as [Hn|Hn].
      * assert (Hn' : n ∈ range_keys choose (RangeNames p k) (elements R))
          by (by apply elem_of_range_keys).
        specialize (Hin Hn').
        specialize (Hsingle n Hn).
        destruct (getDeclarationByName fa n) as [e|]; [| exact Hsingle].
        by destruct Hin as (t & _ & _ & Hnot).
      * destruct Hout as [_ HR]; [by rewrite elem_of_range_keys |].
        by apply HR in Hn1.
    + intros n e Hn Hdecl. apply elem_of_range_keys in Hn.
      specialize (Hsingle n Hn). by rewrite Hdecl in Hsingle.
Qed.

(** A package resolves for its names when it resolves for each of them
    alone. *)
Lemma generateTypesInSinglePackage_from_singles p names :
  names <> [] ->
  (forall n, n ∈ names -> is_Ok (inPackage p [n]) = true) ->
  is_Ok (inPackage p names) = true.
Proof.
  intros Hnames Hall.
  assert (Hsrcs : exists srcs, GetPackageSourceFiles p = inr srcs).
  { destruct names as [|n ns]; [done |].
    specialize (Hall n (list_elem_of_here _ _)).
    apply is_Ok_true in Hall as [types Htypes].
    apply generateTypesInSinglePackage_Ok in Htypes as (srcs & _ & Hsrcs & _).
    eauto. }
  destruct Hsrcs as [srcs Hsrcs].
  destruct (scanSources_from_singles p srcs 0 (list_to_set names) ∅) as [M' HM'].
  { intros n Hn. apply elem_of_list_to_set in Hn.
    specialize (Hall n Hn). apply is_Ok_true in Hall as [types Htypes].
    apply generateTypesInSinglePackage_Ok in Htypes as (srcs' & M1 & Hsrcs' & H & _).
    rewrite Hsrcs in Hsrcs'. injection Hsrcs' as <-.
    rewrite list_to_set_singleton_L in H. eauto. }
  unfold generateTypesInSinglePackage. rewrite Hsrcs, HM'.
  cbn [mbind outcome_bind].
  rewrite bool_decide_eq_false_2; [reflexivity |]. rewrite size_empty. lia.
Qed.

Lemma GenerateTypesFromSpecs_body_single_inv p n t :
  body [mkTypeSpec p n] = Ok [t] -> inPackage p [n] = Ok [t].
Proof.
  rewrite GenerateTypesFromSpecs_body_single. intros H.
  apply bind_Ok in H as (types & Htypes & H).
  pose proof (generateTypesInSinglePackage_length _ _ _ _ _ _ _ _ _ Htypes) as Hlen.
  destruct types as [|t0 [|t1 types]]; try done.
  cbn in H. rewrite lookup_insert_eq in H. cbn in H. by injection H as <-.
Qed.

(** A batch returns the results of its requests when each request alone
    returns a result. *)
Lemma GenerateTypesFromSpecs_body_from_singles typeSpecs results :
  Forall2 (fun spec t => body [spec] = Ok [t]) typeSpecs results ->
  body typeSpecs = Ok results.
Proof.
  intros Hall.
  assert (Hok : is_Ok (body typeSpecs) = true).
  { apply GenerateTypesFromSpecs_body_all_Ok. intros p n Hin.
    apply generateTypesInSinglePackage_from_singles.
    - apply elem_of_namesIn in Hin. intros Heq. rewrite Heq in Hin.
      by apply elem_of_nil in Hin.
    - intros m Hm. apply elem_of_namesIn in Hm.
      apply list_elem_of_lookup in Hm as [i Hi].
      destruct (Forall2_lookup_l _ _ _ _ _ Hall Hi) as (t & _ & Ht).
      apply GenerateTypesFromSpecs_body_single_inv in Ht. by rewrite Ht. }
  apply is_Ok_true in Hok as [results' Hbody]. rewrite Hbody. f_equal.
  pose proof (GenerateTypesFromSpecs_body_Ok _ _ _ _ _ _ _ _ Hbody) as [Hlen _].
  apply list_eq. intros i.
  destruct (typeSpecs !! i) as [spec|] eqn:Hi.
  - destruct (GenerateTypesFromSpecs_body_each _ _ _ _ _ _ _ _ Hbody i spec Hi)
      as (t & Ht & Hsingle).
    destruct (Forall2_lookup_l _ _ _ _ _ Hall Hi) as (t' & Ht' & Hsingle').
    rewrite Ht, Ht'. congruence.
  - apply lookup_ge_None in Hi.
    rewrite (proj2 (lookup_ge_None results' i)) by lia.
    symmetry. apply lookup_ge_None.
    rewrite <- (Forall2_length _ _ _ Hall). lia.
Qed.

End FromSingles.

(** X20: a call returns a result exactly when each of its requests, asked
    alone, returns one, and its results are then those of the requests
    alone: requests do not disturb one another, neither by sharing the
    files of a package nor by the order in which the names are visited. *)
Theorem X20_batch_iff_each_request (parseInt : string -> option Z)
  (GetPackageSourceFiles : string -> string + list string)
  (os_Open : string -> string + string)
  (parser_ParseFile : string -> string -> string + ast.File)
  (choose : ticket -> list string -> nat)
  (fuel : nat) (typeSpecs : list TypeSpec) (results : list Type_) :
  let GenerateTypes :=
    GenerateTypesFromSpecs parseInt GetPackageSourceFiles os_Open parser_ParseFile
      choose in
  GenerateTypes (S fuel) typeSpecs = Ok results <->
  Forall2 (fun spec t => GenerateTypes (S fuel) [spec] = Ok [t]) typeSpecs results.
Proof.
  intros GenerateTypes. split.
  - intros H. cbn [GenerateTypes GenerateTypesFromSpecs] in H.
    pose proof (GenerateTypesFromSpecs_body_Ok _ _ _ _ _ _ _ _ H) as [Hlen _].
    apply Forall2_same_length_lookup_2; [done |].
    intros i spec t Hi Ht.
    destruct (GenerateTypesFromSpecs_body_each _ _ _ _ _ _ _ _ H i spec Hi)
      as (t' & Ht' & Hsingle).
    rewrite Ht in Ht'. injection Ht' as <-. exact Hsingle.
  - intros H. by apply GenerateTypesFromSpecs_body_from_singles.
Qed.

(* ===================================================================== *)
(** * Further properties: the order of the ranges over maps *)
(* ===================================================================== *)

Section Order.

Variable parseInt : string -> option Z.
Variable GetPackageSourceFiles : string -> string + list string.
Variable os_Open : string -> string + string.
Variable parser_ParseFile : string -> string -> string + ast.File.
Variables choose choose' : ticket -> list string -> nat.

Local Abbreviation GenerateTypes :=
  (GenerateTypesFromSpecs parseInt GetPackageSourceFiles os_Open parser_ParseFile).

(** The scan for one name has one order only. *)
Lemma scanSources_single_order resolve p srcs k k' n M :
  scanSources parseInt os_Open parser_ParseFile choose resolve p srcs k {[n]} M =
  scanSources parseInt os_Open parser_ParseFile choose' resolve p srcs k' {[n]} M.
Proof.
  revert k k'. induction srcs as [|source rest IH]; intros k k'; [reflexivity |].
  rewrite !scanSources_single_cons.
  destruct (parseAstFile os_Open parser_ParseFile source) as [fa| | |];
    try reflexivity.
  cbn [mbind outcome_bind].
  destruct (getDeclarationByName fa n); [reflexivity | apply IH].
Qed.

(** It ends with the name found, or with the name alone still to find. *)
Lemma scanSources_single_end resolve p srcs k n M R1 M1 :
  scanSources parseInt os_Open parser_ParseFile choose resolve p srcs k {[n]} M
    = Ok (R1, M1) ->
  R1 = ∅ \/ R1 = {[n]}.
Proof.
  revert k. induction srcs as [|source rest IH]; intros k H.
  - injection H as <- _. by right.
  - rewrite scanSources_single_cons in H. apply bind_Ok in H as (fa & _ & H).
    destruct (getDeclarationByName fa n) as [e|]; [| by eapply IH].
    apply bind_Ok in H as (t & _ & H). injection H as <- _. by left.
Qed.

Lemma generateTypesInSinglePackage_single_order resolve p n :
  generateTypesInSinglePackage parseInt GetPackageSourceFiles os_Open
    parser_ParseFile choose resolve p [n] =
  generateTypesInSinglePackage parseInt GetPackageSourceFiles os_Open
    parser_ParseFile choose' resolve p [n].
Proof.
  unfold generateTypesInSinglePackage.
  destruct (GetPackageSourceFiles p) as [cause|srcs]; [reflexivity |].
  rewrite list_to_set_singleton_L.
  rewrite (scanSources_single_order resolve p srcs 0 0 n ∅).
  destruct (scanSources parseInt os_Open parser_ParseFile choose' resolve p srcs 0
              {[n]} ∅) as [[R1 M1]| | |] eqn:Hscan; try reflexivity.
  cbn [mbind outcome_bind].
  rewrite <- (scanSources_single_order resolve p srcs 0 0 n ∅) in Hscan.
  apply scanSources_single_end in Hscan as [->| ->].
  - rewrite bool_decide_eq_false_2; [reflexivity |]. rewrite size_empty. lia.
  - by rewrite elements_singleton, !range_keys_singleton.
Qed.

Lemma GenerateTypesFromSpecs_body_single_order resolve spec :
  GenerateTypesFromSpecs_body parseInt GetPackageSourceFiles os_Open
    parser_ParseFile choose resolve [spec] =
  GenerateTypesFromSpecs_body parseInt GetPackageSourceFiles os_Open
    parser_ParseFile choose' resolve [spec].
Proof.
  destruct spec as [p n]. rewrite !GenerateTypesFromSpecs_body_single.
  by rewrite generateTypesInSinglePackage_single_order.
Qed.

Lemma GenerateTypesFromSpecs_okImplies_order fuel typeSpecs :
  okImplies (GenerateTypes choose fuel typeSpecs)
            (GenerateTypes choose' fuel typeSpecs).
Proof.
  revert typeSpecs. induction fuel as [|fuel IH]; intros typeSpecs results H;
    [done |].
  cbn [GenerateTypesFromSpecs] in H |- *.
  apply GenerateTypesFromSpecs_body_from_singles.
  pose proof (GenerateTypesFromSpecs_body_Ok _ _ _ _ _ _ _ _ H) as [Hlen _].
  apply Forall2_same_length_lookup_2; [done |].
  intros i spec t Hi Ht.
  destruct (GenerateTypesFromSpecs_body_each _ _ _ _ _ _ _ _ H i spec Hi)
    as (t' & Ht' & Hsingle).
  rewrite Ht in Ht'. injection Ht' as <-.
  rewrite GenerateTypesFromSpecs_body_single_order in Hsingle.
  revert Hsingle.
  apply (GenerateTypesFromSpecs_body_related (@okImplies) okImplies_refl
           okImplies_bind).
  intros p n. apply IH.
Qed.

End Order.

(** X21: a result does not depend on the order in which Go ranges over
    the map of the packages and over the map of the names still to find:
    a call that returns a result under one order returns the same result
    under every other order.  (The error of a call that fails may differ
    from one order to another.) *)
Theorem X21_result_independent_of_range_order (parseInt : string -> option Z)
  (GetPackageSourceFiles : string -> string + list string)
  (os_Open : string -> string + string)
  (parser_ParseFile : string -> string -> string + ast.File)
  (choose choose' : ticket -> list string -> nat)
  (fuel : nat) (typeSpecs : list TypeSpec) (results : list Type_) :
  GenerateTypesFromSpecs parseInt GetPackageSourceFiles os_Open parser_ParseFile
    choose fuel typeSpecs = Ok results ->
  GenerateTypesFromSpecs parseInt GetPackageSourceFiles os_Open parser_ParseFile
    choose' fuel typeSpecs = Ok results.
Proof. apply GenerateTypesFromSpecs_okImplies_order. Qed.

(** X21 on the requests for [B] and [N] of [Demo], under the order that
    visits the second key first. *)
Lemma X21_result_independent_of_range_order_witness :
  GenerateTypesFromSpecs parseInt_decimal Demo.GetPackageSourceFiles Demo.os_Open
    Demo.parser_ParseFile (fun _ _ => 1%nat) 2
    [mkTypeSpec "p" "B"; mkTypeSpec "p" "N"] =
  Demo.resolve 2 [mkTypeSpec "p" "B"; mkTypeSpec "p" "N"].
Proof.
  apply (X21_result_independent_of_range_order parseInt_decimal
           Demo.GetPackageSourceFiles Demo.os_Open Demo.parser_ParseFile
           Demo.choose (fun _ _ => 1%nat) 2
           [mkTypeSpec "p" "B"; mkTypeSpec "p" "N"]).
  vm_compute. reflexivity.
Defined.

(** The error of a call that fails does depend on the order: of two names
    that are not declared, the one visited first is reported. *)
Example error_depends_on_range_order :
  GenerateTypesFromSpecs parseInt_decimal Demo.GetPackageSourceFiles Demo.os_Open
    Demo.parser_ParseFile (fun _ _ => 0%nat) 1
    [mkTypeSpec "p" "X"; mkTypeSpec "p" "Y"] = Err (CannotFindDefinition "Y")
  /\ GenerateTypesFromSpecs parseInt_decimal Demo.GetPackageSourceFiles Demo.os_Open
       Demo.parser_ParseFile (fun _ _ => 1%nat) 1
       [mkTypeSpec "p" "X"; mkTypeSpec "p" "Y"] = Err (CannotFindDefinition "X").
Proof. split; vm_compute; reflexivity. Qed.

(* ===================================================================== *)
(** * Further properties: embedded interfaces, forms and variants *)
(* ===================================================================== *)

(** X22: the methods an interface gets from an embedded interface are the
    methods of the declaration of that interface as lowered at home: in
    the package that declares it, under the import table of the file that
    declares it, not under those of the interface that embeds it.  They are
    appended as they are, for a name of the package as for a name selected
    from an import. *)
Theorem X22_embedded_interface_lowered_at_home (parseInt : string -> option Z)
  (GetPackageSourceFiles : string -> string + list string)
  (os_Open : string -> string + string)
  (parser_ParseFile : string -> string -> string + ast.File)
  (choose : ticket -> list string -> nat) (fuel : nat)
  (q sel : string) (pre : list string) (source : string) (post : list string)
  (fa : ast.File) (e : ast.Expr) (t : Type_) (it : InterfaceType) :
  let GenerateTypes :=
    GenerateTypesFromSpecs parseInt GetPackageSourceFiles os_Open parser_ParseFile
      choose in
  GetPackageSourceFiles q = inr (pre ++ source :: post) ->
  Forall (fun source => exists fa, parseAstFile os_Open parser_ParseFile source = Ok fa /\
                                   getDeclarationByName fa sel = None) pre ->
  parseAstFile os_Open parser_ParseFile source = Ok fa ->
  getDeclarationByName fa sel = Some e ->
  generateTypeFromExpr parseInt (GenerateTypes fuel) e q (generateImportMap q fa)
    = Ok t ->
  Type_InterfaceType t = Some it ->
  (forall p im lower names x methods,
      im !! x = Some q ->
      generateTypeFromInterfaceType_member (GenerateTypes (S fuel)) p im lower
        (ast.mkField names (ast.SelectorExpr (ast.Ident x) sel)) methods
      = Ok (methods ++ InterfaceType_Methods it))
  /\ (forall im lower names methods,
        generateTypeFromInterfaceType_member (GenerateTypes (S fuel)) q im lower
          (ast.mkField names (ast.Ident sel)) methods
        = Ok (methods ++ InterfaceType_Methods it)).
Proof.
  intros GenerateTypes Hsrcs Hpre Hparse Hdecl Hlow Hit.
  assert (Hres : GenerateTypes (S fuel) [mkTypeSpec q sel] = Ok [t]).
  { unfold GenerateTypes.
    rewrite (GenerateTypesFromSpecs_first_declaration parseInt GetPackageSourceFiles
               os_Open parser_ParseFile choose fuel q sel pre source post fa e
               Hsrcs Hpre Hparse Hdecl).
    unfold lowerExpr. fold GenerateTypes. by rewrite Hlow. }
  split.
  - intros p im lower names x methods Hx.
    unfold generateTypeFromInterfaceType_member.
    cbn [ast.Field_Type mbind outcome_bind]. rewrite Hx. cbn [default from_option id].
    rewrite Hres. cbn. by rewrite Hit.
  - intros im lower names methods.
    unfold generateTypeFromInterfaceType_member.
    cbn [ast.Field_Type mbind outcome_bind].
    rewrite Hres. cbn. by rewrite Hit.
Qed.

(** X22 on [Demo]: [B] embeds [A], which the first file declares. *)
Lemma X22_embedded_interface_lowered_at_home_witness :
  generateTypeFromInterfaceType_member (Demo.resolve 1) "p" ∅ (fun _ => OutOfFuel)
    (ast.mkField [] (ast.Ident "A")) [] =
  Ok ([] ++ [mkInterfaceTypeMethod "M"
               (mkFuncType
                  [mkTypeField "arg1"
                     (Type_of_Primitive (mkPrimitiveType PrimitiveKindInt))]
                  [] false)]).
Proof.
  edestruct (X22_embedded_interface_lowered_at_home parseInt_decimal
               Demo.GetPackageSourceFiles Demo.os_Open Demo.parser_ParseFile
               Demo.choose 0 "p" "A" [] "/src/p/a.go" ["/src/p/b.go"] Demo.a_go)
    as [_ H].
  - reflexivity.
  - constructor.
  - reflexivity.
  - reflexivity.
  - reflexivity.
  - reflexivity.
  - apply (H ∅ (fun _ => OutOfFuel) [] []).
Defined.

Lemma generateTypeFromIdent_variant Name packagePath importMap :
  variantsOf (generateTypeFromIdent Name packagePath importMap) =
    [if bool_decide (Name ∈ primitiveKindNames) then VPrimitive else VQual].
Proof.
  destruct (decide (Name ∈ primitiveKindNames)) as [Hin|Hnot].
  - rewrite bool_decide_eq_true_2 by done. unfold generateTypeFromIdent.
    repeat match goal with
    | |- context [String.eqb Name ?k] =>
        destruct (String.eqb_spec Name k) as [->|?]; [reflexivity |]
    end.
    exfalso. unfold primitiveKindNames in Hin.
    repeat (apply elem_of_cons in Hin as [Hin|Hin]; [congruence |]).
    by apply elem_of_nil in Hin.
  - rewrite bool_decide_eq_false_2 by done.
    by rewrite generateTypeFromIdent_other.
Qed.

(** X23: the form of a type expression decides the variant of its type: a
    lowering that returns a type sets the pointer of the variant that goes
    with the form, and no other; an identifier is a primitive when it is
    one of the twenty names and a qualified name otherwise, an array type
    without length is a slice.  An expression of any other form is returned
    as an unrecognized type. *)
Theorem X23_form_decides_variant (parseInt : string -> option Z)
  (resolve : list TypeSpec -> outcome (list Type_))
  (e : ast.Expr) (pkg : string) (im : gmap string string) :
  (forall t, generateTypeFromExpr parseInt resolve e pkg im = Ok t ->
             exists v, variantFor e = Some v /\ variantsOf t = [v])
  /\ (variantFor e = None ->
      generateTypeFromExpr parseInt resolve e pkg im = Err (UnrecognizedType e)).
Proof.
  split.
  - intros t H. destruct e; cbn [generateTypeFromExpr variantFor] in H |- *;
      try discriminate.
    + injection H as <-. eexists. split; [reflexivity |].
      apply generateTypeFromIdent_variant.
    + unfold generateTypeFromSelectorExpr in H.
      destruct e; try discriminate. destruct (im !! Name); [| discriminate].
      injection H as <-. by exists VQual.
    + apply bind_Ok in H as (typ & _ & [= <-]). by exists VPtr.
    + unfold generateTypeFromArrayType in H. destruct Len as [len|].
      * destruct len; try discriminate. destruct (parseInt Value); [| discriminate].
        apply bind_Ok in H as (elem & _ & [= <-]). by exists VArray.
      * apply bind_Ok in H as (elem & _ & [= <-]). by exists VSlice.
    + apply bind_Ok in H as (typ & _ & [= <-]). by exists VFunc.
    + apply bind_Ok in H as (typ & _ & [= <-]). by exists VMap.
    + apply bind_Ok in H as (typ & _ & [= <-]). by exists VChan.
    + apply bind_Ok in H as (typ & _ & [= <-]). by exists VStruct.
    + apply bind_Ok in H as (typ & _ & [= <-]). by exists VInterface.
  - intros Hnone. destruct e; try discriminate; try reflexivity.
    by destruct Len.
Qed.

(* ===================================================================== *)
(** * Further properties: source trees without embedding *)
(* ===================================================================== *)

Lemma sameReturn_bind {A B} (m m' : outcome A) (k k' : A -> outcome B) :
  sameReturn m m' -> (forall a, m = Ok a -> sameReturn (k a) (k' a)) ->
  sameReturn (m ≫= k) (m' ≫= k').
Proof.
  intros [<- Hret] Hk. destruct m as [a| | |]; try done. by apply Hk.
Qed.

Lemma sameReturn_refl {A} (m : outcome A) : returns m -> sameReturn m m.
Proof. done. Qed.

Lemma agree_sameReturn {A} (m m' : outcome A) : agree m m' -> sameReturn m m'.
Proof. intros [<- Hok]. split; [done |]. by destruct m. Qed.

Section NoEmbeddingTree.

Variable parseInt : string -> option Z.
Variable GetPackageSourceFiles : string -> string + list string.
Variable os_Open : string -> string + string.
Variable parser_ParseFile : string -> string -> string + ast.File.
Variable choose : ticket -> list string -> nat.
Variables resolve resolve' : list TypeSpec -> outcome (list Type_).

Hypothesis noEmbedding_tree : forall source fa n e,
  parseAstFile os_Open parser_ParseFile source = Ok fa ->
  getDeclarationByName fa n = Some e ->
  noEmbedding e = true.

Lemma scanNames_sameReturn fa p im todo R M :
  (forall n e, getDeclarationByName fa n = Some e -> noEmbedding e = true) ->
  sameReturn (scanNames parseInt resolve fa p im todo R M)
             (scanNames parseInt resolve' fa p im todo R M).
Proof.
  intros Hfa. revert R M. induction todo as [|name rest IH]; intros R M; [done |].
  cbn [scanNames].
  destruct (getDeclarationByName fa name) as [e|] eqn:Hdecl; [| apply IH].
  apply sameReturn_bind; [| intros typ _; apply IH].
  apply agree_sameReturn.
  apply (generateTypeFromExpr_lowersAlike parseInt resolve resolve' p im e).
  by eapply Hfa.
Qed.

Lemma parseAstFile_returns source :
  returns (parseAstFile os_Open parser_ParseFile source).
Proof.
  unfold parseAstFile. destruct (os_Open source) as [cause|file]; [done |].
  by destruct (parser_ParseFile (path_Base source) file).
Qed.

Lemma scanSources_sameReturn p srcs k R M :
  sameReturn
    (scanSources parseInt os_Open parser_ParseFile choose resolve p srcs k R M)
    (scanSources parseInt os_Open parser_ParseFile choose resolve' p srcs k R M).
Proof.
  revert k R M. induction srcs as [|source rest IH]; intros k R M; [done |].
  rewrite !scanSources_cons. case_bool_decide; [done |].
  destruct (parseAstFile os_Open parser_ParseFile source) as [fa| | |] eqn:Hparse;
    try done.
  - cbn [mbind outcome_bind].
    apply sameReturn_bind; [| intros [R1 M1] _; apply IH].
    apply scanNames_sameReturn. intros n e. by apply noEmbedding_tree with source.
  - pose proof (parseAstFile_returns source) as Hret. by rewrite Hparse in Hret.
  - pose proof (parseAstFile_returns source) as Hret. by rewrite Hparse in Hret.
Qed.

Lemma generateTypesInSinglePackage_sameReturn p names :
  sameReturn
    (generateTypesInSinglePackage parseInt GetPackageSourceFiles os_Open
       parser_ParseFile choose resolve p names)
    (generateTypesInSinglePackage parseInt GetPackageSourceFiles os_Open
       parser_ParseFile choose resolve' p names).
Proof.
  unfold generateTypesInSinglePackage.
  destruct (GetPackageSourceFiles p) as [cause|srcs]; [done |].
  apply sameReturn_bind; [apply scanSources_sameReturn |].
  intros [R1 M1] _. apply sameReturn_refl.
  case_bool_decide; [| done].
  by destruct (range_keys choose (RangeMissing p) (elements R1)).
Qed.

Lemma resolvePackages_sameReturn (G : gmap string (list string)) todo
  (M : gmap TypeSpec Type_) :
  sameReturn
    (resolvePackages parseInt GetPackageSourceFiles os_Open parser_ParseFile
       choose resolve G todo M)
    (resolvePackages parseInt GetPackageSourceFiles os_Open parser_ParseFile
       choose resolve' G todo M).
Proof.
  revert M. induction todo as [|p rest IH]; intros M; [done |].
  cbn [resolvePackages].
  apply sameReturn_bind; [apply generateTypesInSinglePackage_sameReturn |].
  intros types Htypes.
  apply sameReturn_bind; [| intros M1 _; apply IH].
  apply sameReturn_refl.
  pose proof (storeTypes_progress p (default [] (G !! p)) types 0 M) as Hstore.
  rewrite (generateTypesInSinglePackage_length _ _ _ _ _ _ _ _ _ Htypes) in Hstore.
  specialize (Hstore ltac:(cbn; lia)).
  by apply is_Ok_true in Hstore as [M1 ->].
Qed.

Lemma GenerateTypesFromSpecs_body_sameReturn typeSpecs :
  sameReturn
    (GenerateTypesFromSpecs_body parseInt GetPackageSourceFiles os_Open
       parser_ParseFile choose resolve typeSpecs)
    (GenerateTypesFromSpecs_body parseInt GetPackageSourceFiles os_Open
       parser_ParseFile choose resolve' typeSpecs).
Proof.
  unfold GenerateTypesFromSpecs_body.
  apply sameReturn_bind; [apply resolvePackages_sameReturn |]. by intros M _.
Qed.

End NoEmbeddingTree.

(** X24: on a source tree in which no declared type embeds an interface
    (and the methods of interfaces have names), every call returns, a
    result or an error, without a nested call and without a panic: the
    outcome is that of the call whose nested calls are all refused. *)
Theorem X24_returns_without_embedding (parseInt : string -> option Z)
  (GetPackageSourceFiles : string -> string + list string)
  (os_Open : string -> string + string)
  (parser_ParseFile : string -> string -> string + ast.File)
  (choose : ticket -> list string -> nat)
  (fuel : nat) (typeSpecs : list TypeSpec) :
  let GenerateTypes :=
    GenerateTypesFromSpecs parseInt GetPackageSourceFiles os_Open parser_ParseFile
      choose in
  (forall source fa n e,
      parseAstFile os_Open parser_ParseFile source = Ok fa ->
      getDeclarationByName fa n = Some e ->
      noEmbedding e = true) ->
  GenerateTypes (S fuel) typeSpecs = GenerateTypes 1 typeSpecs
  /\ returns (GenerateTypes (S fuel) typeSpecs).
Proof.
  intros GenerateTypes Htree.
  destruct (GenerateTypesFromSpecs_body_sameReturn parseInt GetPackageSourceFiles
              os_Open parser_ParseFile choose (GenerateTypes fuel)
              (GenerateTypes 0) Htree typeSpecs) as [Heq Hret].
  split; [exact Heq | exact Hret].
Qed.

(** X24 on a tree whose files all declare [type T struct { next *T }]. *)
Lemma X24_returns_without_embedding_witness :
  GenerateTypesFromSpecs parseInt_decimal (fun _ => inr ["/src/t/t.go"]) Demo.os_Open
    (fun _ _ => inr (ast.mkFile "t"
       [ast.GenDecl [ast.TypeSpec "T"
          (ast.StructType (Some
             [ast.mkField ["next"] (ast.StarExpr (ast.Ident "T"))]))]]))
    Demo.choose 4 [mkTypeSpec "t" "T"] =
  Ok [Type_of_Struct (mkStructType
        [mkTypeField "next"
           (Type_of_Ptr (mkPtrType (Type_of_Qual (mkQualType "t" "t" "T"))))])].
Proof.
  edestruct (X24_returns_without_embedding parseInt_decimal
               (fun _ => inr ["/src/t/t.go"]) Demo.os_Open
               (fun _ _ => inr (ast.mkFile "t"
                  [ast.GenDecl [ast.TypeSpec "T"
                     (ast.StructType (Some
                        [ast.mkField ["next"] (ast.StarExpr (ast.Ident "T"))]))]]))
               Demo.choose 3 [mkTypeSpec "t" "T"]) as [H _].
  - intros source fa n e Hparse Hdecl.
    unfold parseAstFile, Demo.os_Open in Hparse. injection Hparse as <-.
    unfold getDeclarationByName in Hdecl.
    cbn [ast.File_Decls getDeclarationByName_decls findTypeSpec] in Hdecl.
    destruct (String.eqb "T" n); [| discriminate].
    injection Hdecl as <-. reflexivity.
  - rewrite H. reflexivity.
Defined.
